(** * Route planner (SITP / TransMilenio): shallow embedding of [route_planner.py]

    The development follows the layout of the source file:
    knowledge base (rules R1-R4), the A* planner over (station, line) states,
    and the route explanation.  Python [int] is [Z]; a finite [float] is the
    rational ([Q]) it stands for, and what binary64 arithmetic does to it,
    rounding and raising, is part of the model; dictionaries are [gmap]s; a
    [defaultdict] is a [gmap] whose lookup inserts the default for a missing
    key, so that every query that goes through it returns the knowledge base
    it leaves behind. *)

From Stdlib Require Import ZArith QArith Qabs Lia.
From stdpp Require Import base gmap list strings.

Local Open Scope Z_scope.

(** ** Exceptions and results *)

Inductive exn : Type :=
| KeyError
| ValueError
| OverflowError.

(** Outcome of running a piece of the program: a value, a raised exception,
    or [OutOfFuel] when the iteration budget of the model was not enough. *)
Inductive run (A : Type) : Type :=
| Returns (a : A)
| Raises (e : exn)
| OutOfFuel.
Arguments Returns {A} a.
Arguments Raises {A} e.
Arguments OutOfFuel {A}.

#[global] Instance run_bind : MBind run := λ A B k m,
  match m with
  | Returns a => k a
  | Raises e => Raises e
  | OutOfFuel => OutOfFuel
  end.

(** [float('inf')] next to integer costs. *)
Inductive ecost : Type :=
| Fin (c : Z)
| Infinity.

(** ** Data *)

Record Coord : Type := { lat : Q; lon : Q }.

(** A row of [data["links"]]: [a, b, line, t]. *)
Abbreviation LinkRow := (string * string * string * Z)%type.

(** An adjacency entry [(vecina, linea, tiempo)]. *)
Abbreviation Link := (string * string * Z)%type.

Record Data : Type := {
  stations : gmap string Coord;
  links : list LinkRow;
  transfer_penalty : Z
}.

Record KnowledgeBase : Type := {
  data : Data;
  graph : gmap string (list Link);
  lines_by_station : gmap string (gset string)
}.

(** [d[k].append(x)] on a [defaultdict(list)]. *)
Definition dd_append (g : gmap string (list Link)) (k : string) (x : Link)
  : gmap string (list Link) :=
  <[k := default [] (g !! k) ++ [x]]> g.

(** [d[k].add(x)] on a [defaultdict(set)]. *)
Definition dd_add (m : gmap string (gset string)) (k : string) (x : string)
  : gmap string (gset string) :=
  <[k := default ∅ (m !! k) ∪ {[x]}]> m.

Definition add_link (g : gmap string (list Link)) (r : LinkRow)
  : gmap string (list Link) :=
  let '(a, b, line, t) := r in
  dd_append (dd_append g a (b, line, t)) b (a, line, t).

Definition add_lines (m : gmap string (gset string)) (r : LinkRow)
  : gmap string (gset string) :=
  let '(a, b, line, _) := r in
  dd_add (dd_add m a line) b line.

(** [KnowledgeBase.__init__]: two passes over the links, no check of any
    kind, no [raise]. *)
Definition build (d : Data) : KnowledgeBase :=
  {| data := d;
     graph := foldl add_link ∅ (links d);
     lines_by_station := foldl add_lines ∅ (links d) |}.

Definition KnowledgeBase_init (d : Data) : run KnowledgeBase :=
  Returns (build d).

(** The links stored for a station, [[]] when the key is missing. *)
Definition links_of (g : gmap string (list Link)) (station : string) : list Link :=
  default [] (g !! station).

(** Reading a missing key of a [defaultdict] stores the default under it. *)
Definition dd_touch {V : Type} (dflt : V) (m : gmap string V) (k : string)
  : gmap string V :=
  match m !! k with
  | Some _ => m
  | None => <[k := dflt]> m
  end.

(** R1 *)
Definition neighbors (kb : KnowledgeBase) (station : string)
  : list Link * KnowledgeBase :=
  (links_of (graph kb) station,
   {| data := data kb;
      graph := dd_touch [] (graph kb) station;
      lines_by_station := lines_by_station kb |}).

(** R2 *)
Definition is_transfer (prev_line : option string) (next_line : string) : bool :=
  match prev_line with
  | None => false
  | Some p => negb (String.eqb next_line p)
  end.

(** R3 *)
Definition step_cost (kb : KnowledgeBase) (base_time : Z) (transfer : bool) : Z :=
  base_time + (if transfer then transfer_penalty (data kb) else 0).

(** R4 *)
Definition is_interchange (kb : KnowledgeBase) (station : string)
  : bool * KnowledgeBase :=
  (bool_decide (1 < size (default ∅ (lines_by_station kb !! station)))%nat,
   {| data := data kb;
      graph := graph kb;
      lines_by_station := dd_touch ∅ (lines_by_station kb) station |}).

(** [data["stations"]] is a plain dictionary: a missing key raises. *)
Definition coords (kb : KnowledgeBase) (station : string) : run (Q * Q) :=
  match stations (data kb) !! station with
  | Some s => Returns (lat s, lon s)
  | None => Raises KeyError
  end.

(** ** The frontier

    [heapq] over tuples [(priority, (station, line))].  Tuples compare
    lexicographically and strings by code point, which on UTF-8 is the byte
    order of [String.compare].  [heappop] returns the least entry, so the
    heap is kept as the list of its entries and popping takes the minimum
    out.  The only state with line [None] is the start state, pushed on the
    empty heap and popped before any other push, so [None] never meets a
    string in a comparison; the order puts it first. *)

Abbreviation State := (string * option string)%type.
Abbreviation entry := (Q * State)%type.

Definition line_ltb (a b : option string) : bool :=
  match a, b with
  | None, None => false
  | None, Some _ => true
  | Some _, None => false
  | Some x, Some y => String.ltb x y
  end.

Definition state_ltb (a b : State) : bool :=
  match String.compare a.1 b.1 with
  | Lt => true
  | Gt => false
  | Eq => line_ltb a.2 b.2
  end.

Definition entry_ltb (a b : entry) : bool :=
  match Qcompare a.1 b.1 with
  | Lt => true
  | Gt => false
  | Eq => state_ltb a.2 b.2
  end.

Definition heappush (h : list entry) (e : entry) : list entry := e :: h.

(** Least entry of [e :: h] and the remaining entries. *)
Fixpoint pop_min (e : entry) (h : list entry) : entry * list entry :=
  match h with
  | [] => (e, [])
  | x :: h' =>
      let '(m, r) := pop_min x h' in
      if entry_ltb m e then (m, e :: r) else (e, x :: h')
  end.

Definition heappop (h : list entry) : option (entry * list entry) :=
  match h with
  | [] => None
  | e :: h' => Some (pop_min e h')
  end.

(** ** The planner *)

Record search : Type := {
  openpq : list entry;
  g_cost : gmap State Z;
  parents : gmap State (option State);
  used_line : gmap State (option string)
}.

(** [d[k]] on a plain dictionary. *)
Definition dict_get {V : Type} (m : gmap State V) (k : State) : run V :=
  match m !! k with
  | Some v => Returns v
  | None => Raises KeyError
  end.

(** [x < d.get(k, float('inf'))] *)
Definition lt_get_inf (x : Z) (o : option Z) : bool :=
  match o with
  | Some y => x <? y
  | None => true
  end.

(** The criterion dispatch inside the loop of [a_star]. *)
Definition step_for (kb : KnowledgeBase) (criterio : string)
    (base_t : Z) (transfer : bool) : run Z :=
  if String.eqb criterio "tiempo" then Returns (step_cost kb base_t transfer)
  else if String.eqb criterio "saltos" then Returns (1 + (if transfer then 1 else 0))
  else if String.eqb criterio "transbordos" then Returns (if transfer then 1 else 0)
  else Raises ValueError.

(** ** Floating point

    The heuristic and, under tiempo, the priorities of the frontier are
    binary64 numbers.  Two things are left open: the function [haversine],
    which goes through [radians], [sin], [cos], [sqrt] and [atan2] of the C
    library and raises when one of them does, and the rounding of a rational
    to the nearest binary64 number.  Every statement below holds whatever
    they are; what a statement needs of them is among its hypotheses. *)

(** The two exceptions of floating-point arithmetic: [ValueError] (math
    domain error) and [OverflowError]. *)
Inductive float_exn : Type :=
| math_domain
| float_overflow.

Definition float_raise {A : Type} (e : float_exn) : run A :=
  Raises (match e with
          | math_domain => ValueError
          | float_overflow => OverflowError
          end).

(** [float(n)] raises [OverflowError] from this integer on: it lies halfway
    between the largest binary64 number, [2^1024 - 2^971], and [2^1024]. *)
Definition float_limit : Z := 2 ^ 1024 - 2 ^ 970.

Section Planner.

(** The distance in km, or the exception raised on the way. *)
Variable haversine : Q * Q → Q * Q → float_exn + Q.

(** The binary64 number nearest to a rational.  A sum beyond the largest
    binary64 number is [inf], which raises nothing and is ordered after
    every number: any rational above them all stands for it. *)
Variable binary64 : Q → Q.

(** The nested function [h] of [a_star]; doubling a binary64 number is
    exact. *)
Definition h (kb : KnowledgeBase) (goal s : string) : run Q :=
  p1 ← coords kb s;
  p2 ← coords kb goal;
  match haversine p1 p2 with
  | inr km => Returns (km * 2)%Q
  | inl e => float_raise e
  end.

(** [n + x] for an [int] [n] and a [float] [x]: the integer is converted,
    which raises beyond the range of binary64, and the sum is rounded. *)
Definition int_add_float (n : Z) (x : Q) : run Q :=
  if Z.abs n <? float_limit
  then Returns (binary64 (binary64 (inject_Z n) + x))%Q
  else Raises OverflowError.

(** [tentative_g + (h(v) if criterio == "tiempo" else 0)]: a [float] under
    tiempo, an [int] otherwise. *)
Definition priority (kb : KnowledgeBase) (goal criterio : string)
    (tentative_g : Z) (v : string) : run Q :=
  if String.eqb criterio "tiempo" then
    hv ← h kb goal v;
    int_add_float tentative_g hv
  else Returns (inject_Z (tentative_g + 0)).

(** Body of [for v, line, base_t in kb.neighbors(u)]. *)
Definition relax (kb : KnowledgeBase) (goal criterio : string)
    (u : string) (last_line : option string)
    (st : search) (L : Link) : run search :=
  let '(v, line, base_t) := L in
  let transfer := is_transfer last_line line in
  step ← step_for kb criterio base_t transfer;
  let new_state : State := (v, Some line) in
  gu ← dict_get (g_cost st) (u, last_line);
  let tentative_g := gu + step in
  if lt_get_inf tentative_g (g_cost st !! new_state) then
    p ← priority kb goal criterio tentative_g v;
    Returns {| openpq := heappush (openpq st) (p, new_state);
               g_cost := <[new_state := tentative_g]> (g_cost st);
               parents := <[new_state := Some (u, last_line)]> (parents st);
               used_line := <[new_state := Some line]> (used_line st) |}
  else Returns st.

Fixpoint relax_all (kb : KnowledgeBase) (goal criterio : string)
    (u : string) (last_line : option string)
    (st : search) (ls : list Link) : run search :=
  match ls with
  | [] => Returns st
  | L :: ls' =>
      st' ← relax kb goal criterio u last_line st L;
      relax_all kb goal criterio u last_line st' ls'
  end.

(** [while cur is not None: path.append(cur); cur = parents[cur]] *)
Fixpoint reconstruct (fuel : nat) (par : gmap State (option State))
    (cur : option State) (path : list State) : run (list State) :=
  match cur with
  | None => Returns path
  | Some c =>
      match fuel with
      | O => OutOfFuel
      | S fuel' =>
          p ← dict_get par c;
          reconstruct fuel' par p (path ++ [c])
      end
  end.

(** [while openpq: ...]; [fuel] bounds the iterations of the two loops. *)
Fixpoint a_star_loop (fuel : nat) (kb : KnowledgeBase) (goal criterio : string)
    (st : search) : KnowledgeBase * run (option (list State) * ecost) :=
  match fuel with
  | O => (kb, OutOfFuel)
  | S fuel' =>
      match heappop (openpq st) with
      | None => (kb, Returns (None, Infinity))
      | Some ((_, (u, last_line)), pq) =>
          if String.eqb u goal then
            (kb,
             path ← reconstruct fuel' (parents st) (Some (u, last_line)) [];
             g ← dict_get (g_cost st) (u, last_line);
             Returns (Some (reverse path), Fin g))
          else
            let '(nbrs, kb') := neighbors kb u in
            match relax_all kb' goal criterio u last_line
                    {| openpq := pq; g_cost := g_cost st;
                       parents := parents st; used_line := used_line st |}
                    nbrs with
            | Returns st' => a_star_loop fuel' kb' goal criterio st'
            | Raises e => (kb', Raises e)
            | OutOfFuel => (kb', OutOfFuel)
            end
      end
  end.

Definition start_search (start : string) : search :=
  {| openpq := heappush [] (0%Q, (start, None));
     g_cost := {[ (start, None) := 0 ]};
     parents := {[ (start, None) := None ]};
     used_line := {[ (start, None) := None ]} |}.

Definition a_star (fuel : nat) (kb : KnowledgeBase) (start goal criterio : string)
  : KnowledgeBase * run (option (list State) * ecost) :=
  a_star_loop fuel kb goal criterio (start_search start).

End Planner.

(** ** Route explanation *)

Definition newline : string := String (Ascii.ascii_of_nat 10) EmptyString.

(** [s.endswith(suffix)] *)
Definition endswith (s suffix : string) : bool :=
  let n := String.length s in
  let k := String.length suffix in
  (k <=? n)%nat && String.eqb (String.substring (n - k) k s) suffix.

(** A row of the list [lines]: [(u, v, line, base_t, penalty)]. *)
Abbreviation Segment := (string * string * string * Z * Z)%type.

Record tally : Type := {
  lines : list Segment;
  transbordos : Z;
  saltos : Z;
  total_tiempo : Z
}.

(** Body of [for i in range(len(path_states)-1)]. *)
Definition explain_step (path_states : list State)
    (acc : KnowledgeBase * tally) (i : nat) : KnowledgeBase * tally :=
  let '(kb, t) := acc in
  match path_states !! i, path_states !! (i + 1)%nat with
  | Some (u, line_u), Some (v, line_v) =>
      let '(nbrs, kb') := neighbors kb u in
      match List.find (λ L : Link, String.eqb L.1.1 v) nbrs with
      | None => (kb', t)
      | Some (_, line, base_t) =>
          let transfer :=
            (0 <? i)%nat
            && negb (bool_decide (Some line_u = snd <$> path_states !! (i - 1)%nat))
            && negb (bool_decide (line_u = None)) in
          let penalty := if transfer then transfer_penalty (data kb') else 0 in
          (kb',
           {| lines := lines t ++ [(u, v, line, base_t, penalty)];
              transbordos := if transfer then transbordos t + 1 else transbordos t;
              saltos := saltos t + 1;
              total_tiempo := total_tiempo t + (base_t + penalty) |})
      end
  | _, _ => (kb, t)
  end.

(** Body of the loop that renders [lines] into [steps]. *)
Definition render_step (acc : list string * option string) (seg : Segment)
  : list string * option string :=
  let '(steps, prev_line) := acc in
  let '(u, v, line, _, _) := seg in
  match prev_line with
  | None => (steps ++ [u +:+ " ──(" +:+ line +:+ ")→ " +:+ v], Some line)
  | Some p =>
      if negb (String.eqb line p) then
        (steps ++ ["[Transbordo] " +:+ u +:+ " ⇄ " +:+ v;
                   u +:+ " ──(" +:+ line +:+ ")→ " +:+ v], Some line)
      else (steps ++ [u +:+ " → " +:+ v], Some line)
  end.

Definition explain_route (kb : KnowledgeBase) (path_states : list State)
  : KnowledgeBase * (string * Z * Z * Z) :=
  match path_states with
  | [] => (kb, ("No se encontró ruta.", 0, 0, 0))
  | _ :: _ =>
      let '(kb', t) :=
        foldl (explain_step path_states)
              (kb, {| lines := []; transbordos := 0; saltos := 0; total_tiempo := 0 |})
              (seq 0 (length path_states - 1)) in
      let steps := (foldl render_step ([], None) (lines t)).1 in
      let last_station := (List.last path_states (EmptyString, None)).1 in
      let steps :=
        match steps with
        | [] => steps ++ [last_station]
        | _ :: _ =>
            if negb (endswith (List.last steps EmptyString) last_station)
            then steps ++ [last_station] else steps
        end in
      (kb', (String.concat newline steps, total_tiempo t, transbordos t, saltos t))
  end.


(** ** Vocabulary of the statements *)

(** The three criteria the planner dispatches on. *)
Definition supported (criterio : string) : Prop :=
  criterio = "tiempo" ∨ criterio = "saltos" ∨ criterio = "transbordos".

(** State entered by riding link [L]. *)
Definition arrive (L : Link) : State := (L.1.1, Some L.1.2).

(** Cost of riding [L] after arriving by [last_line] (0 when the criterion
    is not one of the three). *)
Definition stepz (kb : KnowledgeBase) (criterio : string)
    (last_line : option string) (L : Link) : Z :=
  match step_for kb criterio L.2 (is_transfer last_line L.1.2) with
  | Returns z => z
  | _ => 0
  end.

(** A walk is the list of links ridden, in order, from a station. *)
Fixpoint walk_ok (g : gmap string (list Link)) (u : string) (ls : list Link) : Prop :=
  match ls with
  | [] => True
  | L :: ls' => L ∈ links_of g u ∧ walk_ok g L.1.1 ls'
  end.

Fixpoint walk_end (u : string) (ls : list Link) : string :=
  match ls with
  | [] => u
  | L :: ls' => walk_end L.1.1 ls'
  end.

Fixpoint walk_cost (kb : KnowledgeBase) (criterio : string)
    (last_line : option string) (ls : list Link) : Z :=
  match ls with
  | [] => 0
  | L :: ls' => stepz kb criterio last_line L + walk_cost kb criterio (Some L.1.2) ls'
  end.

(** The (station, line) states a walk goes through, the first one included. *)
Fixpoint walk_states (s : State) (ls : list Link) : list State :=
  s :: match ls with
       | [] => []
       | L :: ls' => walk_states (arrive L) ls'
       end.

Definition reachable (kb : KnowledgeBase) (start goal : string) : Prop :=
  ∃ ls, walk_ok (graph kb) start ls ∧ walk_end start ls = goal.


(** ** Invariants of the search *)

(** The knowledge bases a query can leave behind: same data, same lines per
    station, same links for every station. *)
Definition kb_same (kb kb' : KnowledgeBase) : Prop :=
  data kb' = data kb
  ∧ lines_by_station kb' = lines_by_station kb
  ∧ ∀ s, links_of (graph kb') s = links_of (graph kb) s.

(** State entered at the end of a walk that leaves state [s]. *)
Definition state_after (s : State) (ls : list Link) : State :=
  foldl (λ _ L, arrive L) s ls.

(** Every state the search can ever name. *)
Definition universe (g : gmap string (list Link)) (start : string) : list State :=
  (start, None) :: flat_map (λ kv : string * list Link, arrive <$> kv.2) (map_to_list g).

(** [tpath st x ls]: following [parents] from [x] leads back to the start
    state along the links [ls], and the recorded costs do not increase on
    the way back. *)
Inductive tpath (kb : KnowledgeBase) (start criterio : string) (st : search)
  : State → list Link → Prop :=
| tpath_root : tpath kb start criterio st (start, None) []
| tpath_step y ls L gy gx :
    tpath kb start criterio st y ls →
    L ∈ links_of (graph kb) y.1 →
    parents st !! arrive L = Some (Some y) →
    g_cost st !! y = Some gy →
    g_cost st !! arrive L = Some gx →
    gy + stepz kb criterio y.2 L ≤ gx →
    tpath kb start criterio st (arrive L) (ls ++ [L]).

(** [simple_walk st x gx ls]: the walk [ls] leads from the start to [x],
    passes no state twice and costs [gx], and what is recorded for the state
    at the end of each of its prefixes is at most the cost of the prefix. *)
Definition simple_walk (kb : KnowledgeBase) (start criterio : string) (st : search)
    (x : State) (gx : Z) (ls : list Link) : Prop :=
  walk_ok (graph kb) start ls
  ∧ state_after (start, None) ls = x
  ∧ walk_cost kb criterio None ls = gx
  ∧ NoDup (walk_states (start, None) ls)
  ∧ ∀ k, (k ≤ length ls)%nat →
      ∃ gz, g_cost st !! state_after (start, None) (take k ls) = Some gz
        ∧ gz ≤ walk_cost kb criterio None (take k ls).

Record inv1 (kb : KnowledgeBase) (start criterio : string) (st : search) : Prop := {
  inv_root_g : g_cost st !! (start, None) = Some 0;
  inv_root_p : parents st !! (start, None) = Some None;
  inv_nonneg : ∀ x gx, g_cost st !! x = Some gx → 0 ≤ gx;
  inv_univ : ∀ x gx, g_cost st !! x = Some gx → x ∈ universe (graph kb) start;
  inv_open : ∀ e : entry, e ∈ openpq st → is_Some (g_cost st !! e.2);
  inv_tree : ∀ x gx, g_cost st !! x = Some gx → ∃ ls, tpath kb start criterio st x ls;
  inv_simple : ∀ x gx, g_cost st !! x = Some gx →
      ∃ ls, simple_walk kb start criterio st x gx ls
}.

(** Link [L] out of state [x] has been relaxed. *)
Definition relaxed (kb : KnowledgeBase) (criterio : string) (st : search)
    (x : State) (L : Link) : Prop :=
  ∃ gx gy, g_cost st !! x = Some gx
    ∧ g_cost st !! arrive L = Some gy
    ∧ gy ≤ gx + stepz kb criterio x.2 L.

(** The costs that a priority holds exactly: under tiempo, where priorities
    are binary64 numbers, the integers below 2^53; under the other criteria,
    where they are integers, all of them. *)
Definition exact_cost (criterio : string) (c : Z) : Prop :=
  criterio = "tiempo" → c < 2 ^ 53.

(** [x] waits in the frontier with a priority below the cost of every way
    of completing its best known path to the goal, as far as that cost is
    held exactly. *)
Definition open_state (kb : KnowledgeBase) (goal criterio : string) (st : search)
    (x : State) : Prop :=
  ∃ p : Q, (p, x) ∈ openpq st
    ∧ ∀ gx ls, g_cost st !! x = Some gx →
        walk_ok (graph kb) x.1 ls → walk_end x.1 ls = goal →
        exact_cost criterio (gx + walk_cost kb criterio x.2 ls) →
        (p <= inject_Z (gx + walk_cost kb criterio x.2 ls))%Q.

(** The priority [p] of an entry of a goal state is not below the cost [gx]
    recorded for the state, or it lies above every cost held exactly. *)
Definition goal_priority (criterio : string) (gx : Z) (p : Q) : Prop :=
  (inject_Z gx <= p)%Q ∨ (criterio = "tiempo" ∧ (inject_Z (2 ^ 53) <= p)%Q).

Definition closed_state (kb : KnowledgeBase) (goal criterio : string) (st : search)
    (x : State) : Prop :=
  x.1 ≠ goal ∧ ∀ L, L ∈ links_of (graph kb) x.1 → relaxed kb criterio st x L.

(** The priority [p] computed for the cost [g] of a state at station [v]
    is at most the cost of every way of going on to the goal, as far as that
    cost is held exactly, and at the goal it is a priority of a goal
    state. *)
Definition good_priority (kb : KnowledgeBase) (goal criterio : string)
    (g : Z) (v : string) (p : Q) : Prop :=
  (∀ l ls, walk_ok (graph kb) v ls → walk_end v ls = goal →
     exact_cost criterio (g + walk_cost kb criterio l ls) →
     (p <= inject_Z (g + walk_cost kb criterio l ls))%Q)
  ∧ (v = goal → goal_priority criterio g p).

(** Invariant of the inner loop while the links of [u] are relaxed. *)
Record inv2_mid (kb : KnowledgeBase) (goal criterio : string) (u : State)
    (st : search) : Prop := {
  inv_frontier : ∀ x gx, g_cost st !! x = Some gx →
      x = u ∨ open_state kb goal criterio st x ∨ closed_state kb goal criterio st x;
  inv_goal_prio : ∀ (p : Q) x, (p, x) ∈ openpq st → x.1 = goal →
      ∃ gx, g_cost st !! x = Some gx ∧ goal_priority criterio gx p
}.

(** Invariant of the outer loop. *)
Record inv2 (kb : KnowledgeBase) (goal criterio : string) (st : search) : Prop := {
  inv2_frontier : ∀ x gx, g_cost st !! x = Some gx →
      open_state kb goal criterio st x ∨ closed_state kb goal criterio st x;
  inv2_goal_prio : ∀ (p : Q) x, (p, x) ∈ openpq st → x.1 = goal →
      ∃ gx, g_cost st !! x = Some gx ∧ goal_priority criterio gx p
}.

(** Termination measure: the states without a cost, then the costs and the
    size of the frontier. *)
Definition undefined_states (kb : KnowledgeBase) (start : string) (st : search) : nat :=
  sum_list_with (λ x, match g_cost st !! x with None => 1 | Some _ => 0 end)%nat
    (universe (graph kb) start).

Definition cost_mass (kb : KnowledgeBase) (start : string) (st : search) : nat :=
  (sum_list_with (λ x, Z.to_nat (default 0%Z (g_cost st !! x)))
     (universe (graph kb) start)
   + length (openpq st))%nat.

Definition lexle (kb : KnowledgeBase) (start : string) (st' st : search) : Prop :=
  (undefined_states kb start st' < undefined_states kb start st)%nat
  ∨ (undefined_states kb start st' = undefined_states kb start st
     ∧ cost_mass kb start st' ≤ cost_mass kb start st)%nat.

(** Hypotheses of the statements about [a_star]. *)

(** Travel times and penalty are not negative (data model, section 3). *)
Definition nonneg_costs (kb : KnowledgeBase) : Prop :=
  0 ≤ transfer_penalty (data kb)
  ∧ ∀ u (L : Link), L ∈ links_of (graph kb) u → 0 ≤ L.2.

(** The goal and every station named by a link have coordinates. *)
Definition has_coords (kb : KnowledgeBase) (goal : string) : Prop :=
  is_Some (stations (data kb) !! goal)
  ∧ ∀ u (L : Link), L ∈ links_of (graph kb) u → is_Some (stations (data kb) !! L.1.1).

(** [haversine] returns a distance for every linked station against the
    goal. *)
Definition distance_defined (haversine : Q * Q → Q * Q → float_exn + Q)
    (kb : KnowledgeBase) (goal : string) : Prop :=
  ∀ u (L : Link) cv cg,
    L ∈ links_of (graph kb) u →
    stations (data kb) !! L.1.1 = Some cv →
    stations (data kb) !! goal = Some cg →
    ∃ km, haversine (lat cv, lon cv) (lat cg, lon cg) = inr km.

(** Every walk from the start that passes no state twice costs less than
    the integer from which the conversion to [float] raises. *)
Definition within_float_range (kb : KnowledgeBase) (start : string) : Prop :=
  ∀ ls, walk_ok (graph kb) start ls →
    NoDup (walk_states (start, None) ls) →
    walk_cost kb "tiempo" None ls < float_limit.

(** Under tiempo the priorities of a search from [start] can all be
    computed: the goal and the linked stations have coordinates,
    [haversine] returns a distance for them, and no cost met leaves the
    range of [float]. *)
Definition heuristic_computable (haversine : Q * Q → Q * Q → float_exn + Q)
    (kb : KnowledgeBase) (start goal : string) : Prop :=
  has_coords kb goal
  ∧ distance_defined haversine kb goal
  ∧ within_float_range kb start.

(** What the statements on optimality use of rounding to nearest: it keeps
    the order, and it leaves the integers up to 2^53 as they are. *)
Definition rounding (binary64 : Q → Q) : Prop :=
  (∀ x y : Q, (x <= y)%Q → (binary64 x <= binary64 y)%Q)
  ∧ (∀ z : Z, Z.abs z ≤ 2 ^ 53 → (binary64 (inject_Z z) == inject_Z z)%Q).

(** The heuristic of a station never exceeds the tiempo cost of a walk from
    it to the goal, and is not negative at the goal. *)
Definition admissible (haversine : Q * Q → Q * Q → float_exn + Q)
    (kb : KnowledgeBase) (goal : string) : Prop :=
  (∀ v hv l ls, h haversine kb goal v = Returns hv →
     walk_ok (graph kb) v ls → walk_end v ls = goal →
     (hv <= inject_Z (walk_cost kb "tiempo" l ls))%Q)
  ∧ (∀ hv, h haversine kb goal goal = Returns hv → (0 <= hv)%Q).

(** Every priority that the search computes is a good one. *)
Definition good_priorities (haversine : Q * Q → Q * Q → float_exn + Q)
    (binary64 : Q → Q) (kb : KnowledgeBase) (goal criterio : string) : Prop :=
  ∀ g v p, 0 ≤ g →
    priority haversine binary64 kb goal criterio g v = Returns p →
    good_priority kb goal criterio g v p.

(** The search state after link [L] out of state [u] improved the cost of
    [arrive L] to [g] and put it into the frontier with priority [p]. *)
Definition pushed (st : search) (u : State) (L : Link) (g : Z) (p : Q) : search :=
  {| openpq := heappush (openpq st) (p, arrive L);
     g_cost := <[arrive L := g]> (g_cost st);
     parents := <[arrive L := Some u]> (parents st);
     used_line := <[arrive L := Some L.1.2]> (used_line st) |}.

(** Recorded costs only go down from [st] to [st']. *)
Definition g_le (st' st : search) : Prop :=
  ∀ x gx, g_cost st !! x = Some gx → ∃ gx', g_cost st' !! x = Some gx' ∧ gx' ≤ gx.

(** The search state once the popped entry is out of the frontier. *)
Definition popped (st : search) (pq : list entry) : search :=
  {| openpq := pq; g_cost := g_cost st;
     parents := parents st; used_line := used_line st |}.

Definition lexlt (kb : KnowledgeBase) (start : string) (st' st : search) : Prop :=
  (undefined_states kb start st' < undefined_states kb start st)%nat
  ∨ (undefined_states kb start st' = undefined_states kb start st
     ∧ cost_mass kb start st' < cost_mass kb start st)%nat.

(** What the search may hand back: a chain of states along a walk from the
    start to the goal with a cost not below the cost of that walk; the
    no-path pair; or the exception that the computation of a priority
    raises for the last link of a walk from the start that passes no state
    twice, at the cost of that walk. *)
Definition sound_result (haversine : Q * Q → Q * Q → float_exn + Q)
    (binary64 : Q → Q) (kb : KnowledgeBase)
    (start goal criterio : string) (r : run (option (list State) * ecost)) : Prop :=
  match r with
  | Returns (Some path, Fin c) =>
      ∃ ls, walk_ok (graph kb) start ls
        ∧ walk_end start ls = goal
        ∧ path = walk_states (start, None) ls
        ∧ walk_cost kb criterio None ls ≤ c
  | Returns (None, Infinity) => True
  | Returns _ => False
  | Raises e =>
      ∃ ls (L : Link),
        walk_ok (graph kb) start (ls ++ [L])
        ∧ NoDup (walk_states (start, None) (ls ++ [L]))
        ∧ priority haversine binary64 kb goal criterio
            (walk_cost kb criterio None (ls ++ [L])) L.1.1 = Raises e
  | OutOfFuel => True
  end.

(** The cost handed back is below the cost of every walk to the goal whose
    cost is held exactly, and the no-path pair means that there is no
    walk. *)
Definition optimal_result (kb : KnowledgeBase) (start goal criterio : string)
    (r : run (option (list State) * ecost)) : Prop :=
  match r with
  | Returns (Some path, Fin c) =>
      ∀ ls, walk_ok (graph kb) start ls → walk_end start ls = goal →
        exact_cost criterio (walk_cost kb criterio None ls) →
        c ≤ walk_cost kb criterio None ls
  | Returns (None, Infinity) => ¬ reachable kb start goal
  | _ => True
  end.

(** Executable checks of the hypotheses on a concrete knowledge base. *)
Definition all_links (kb : KnowledgeBase) (P : Link → bool) : bool :=
  forallb (λ kv : string * list Link, forallb P kv.2) (map_to_list (graph kb)).

Definition nonneg_costsb (kb : KnowledgeBase) : bool :=
  (0 <=? transfer_penalty (data kb)) && all_links kb (λ L, 0 <=? L.2).

Definition has_coordsb (kb : KnowledgeBase) (goal : string) : bool :=
  bool_decide (is_Some (stations (data kb) !! goal))
  && all_links kb (λ L, bool_decide (is_Some (stations (data kb) !! L.1.1))).

(** No link takes more than [M] minutes with the penalty, and as many such
    links as there are states stay below the limit of [float]. *)
Definition within_float_rangeb (kb : KnowledgeBase) (start : string) (M : Z) : bool :=
  all_links kb (λ L, L.2 + transfer_penalty (data kb) <=? M)
  && (Z.of_nat (length (universe (graph kb) start)) * M <? float_limit).

(** [S] contains every station linked to one of its members. *)
Definition closed_under (kb : KnowledgeBase) (S : list string) : bool :=
  forallb (λ u, forallb (λ L : Link, bool_decide (L.1.1 ∈ S))
                  (links_of (graph kb) u)) S.

(** Every station named in an adjacency list has an adjacency list. *)
Definition closed_graph (g : gmap string (list Link)) : Prop :=
  ∀ u (L : Link), L ∈ links_of g u → is_Some (g !! L.1.1).
(** What a validating constructor would have to reject. *)
Definition negative_time (d : Data) : bool :=
  existsb (λ r : LinkRow, r.2 <? 0) (links d).

Definition known (d : Data) (s : string) : bool :=
  bool_decide (is_Some (stations d !! s)).

Definition missing_coords (d : Data) : bool :=
  existsb (λ r : LinkRow, negb (known d r.1.1.1) || negb (known d r.1.1.2)) (links d).

(** What the constructor stores: the adjacency entries that the link row
    [r] gives station [s], one when [s] is its first station and one when
    [s] is its second. *)
Definition entries_of (s : string) (r : LinkRow) : list Link :=
  (if decide (s = r.1.1.1) then [(r.1.1.2, r.1.2, r.2)] else [])
  ++ (if decide (s = r.1.1.2) then [(r.1.1.1, r.1.2, r.2)] else []).

(** A key of a [defaultdict] is there once something has been put under
    it. *)
Definition stored {A : Type} (l : list A) : option (list A) :=
  match l with
  | [] => None
  | _ :: _ => Some l
  end.

(** ** Sample networks *)

(** A-B on line 1 (5 min), B-C on line 2 (4 min), penalty 3. *)
Definition two_lines (cA cB cC : Coord) : Data :=
  {| stations := <["A" := cA]> (<["B" := cB]> {["C" := cC]});
     links := [("A", "B", "1", 5); ("B", "C", "2", 4)];
     transfer_penalty := 3 |}.

(** A-B-C on the single line L1, penalty 3. *)
Definition one_line : Data :=
  {| stations := <["A" := {| lat := 0; lon := 0 |}]>
                 (<["B" := {| lat := 0; lon := 0 |}]>
                 {["C" := {| lat := 0; lon := 0 |}]});
     links := [("A", "B", "L1", 5); ("B", "C", "L1", 4)];
     transfer_penalty := 3 |}.

(** A negative travel time, and a link to a station without coordinates. *)
Definition bad_data : Data :=
  {| stations := {["A" := {| lat := 0; lon := 0 |}]};
     links := [("A", "B", "L1", -5)];
     transfer_penalty := 3 |}.

(** A direct link S-G of 10 minutes and a detour S-X-G of 1+1 minutes on the
    same line, with X one degree of latitude (about 111 km) away from G. *)
Definition detour : Data :=
  {| stations := <["S" := {| lat := 1; lon := 0 |}]>
                 (<["X" := {| lat := 0; lon := 0 |}]>
                 {["G" := {| lat := 1; lon := 0 |}]});
     links := [("S", "G", "L1", 10); ("S", "X", "L1", 1); ("X", "G", "L1", 1)];
     transfer_penalty := 3 |}.

(** The detour network with its three stations at one place. *)
Definition plaza : Data :=
  {| stations := <["S" := {| lat := 0; lon := 0 |}]>
                 (<["X" := {| lat := 0; lon := 0 |}]>
                 {["G" := {| lat := 0; lon := 0 |}]});
     links := [("S", "G", "L1", 10); ("S", "X", "L1", 1); ("X", "G", "L1", 1)];
     transfer_penalty := 3 |}.

(** Two islands at one place: A-B on line L1 and C-D on line L2. *)
Definition islands : Data :=
  {| stations := <["A" := {| lat := 0; lon := 0 |}]>
                 (<["B" := {| lat := 0; lon := 0 |}]>
                 (<["C" := {| lat := 0; lon := 0 |}]>
                 {["D" := {| lat := 0; lon := 0 |}]}));
     links := [("A", "B", "L1", 5); ("C", "D", "L2", 4)];
     transfer_penalty := 3 |}.

(** A link to a station without coordinates, and a goal G that no link
    reaches. *)
Definition uncharted : Data :=
  {| stations := <["A" := {| lat := 0; lon := 0 |}]>
                 {["G" := {| lat := 0; lon := 0 |}]};
     links := [("A", "B", "L1", 5)];
     transfer_penalty := 3 |}.

(** Great-circle distance of co-located stations: [haversine(p, p)] is 0. *)
Definition colocated : Q * Q → Q * Q → float_exn + Q := λ _ _, inr 0%Q.

(** Distance along a meridian, 111 km for a degree of latitude. *)
Definition meridian_km : Q * Q → Q * Q → float_exn + Q :=
  λ p q, inr (111 * Qabs (p.1 - q.1))%Q.

(** A distance function that raises the math domain error of [sqrt], as
    [haversine] does between near-antipodal points. *)
Definition domain_error : Q * Q → Q * Q → float_exn + Q := λ _ _, inl math_domain.

(** Rounding where every number met is a binary64 number already. *)
Definition no_rounding : Q → Q := λ x, x.

(** ** Further vocabulary *)

(** State [x] has an entry in the frontier. *)
Definition waiting (st : search) (x : State) : Prop :=
  ∃ p : Q, (p, x) ∈ openpq st.

(** Every state with a cost waits in the frontier or has had all its links
    relaxed. *)
Definition explored (kb : KnowledgeBase) (goal criterio : string)
    (st : search) : Prop :=
  ∀ x gx, g_cost st !! x = Some gx →
    waiting st x ∨ closed_state kb goal criterio st x.

(** Sum of the travel times of the links of a walk. *)
Fixpoint walk_time (ls : list Link) : Z :=
  match ls with
  | [] => 0
  | L :: ls' => L.2 + walk_time ls'
  end.

(** The link that [explain_route] finds from [u] to [v]: the first adjacency
    entry of [u] whose neighbour is [v]. *)
Definition found (kb : KnowledgeBase) (u v : string) : option Link :=
  List.find (λ L : Link, String.eqb L.1.1 v) (links_of (graph kb) u).

Definition found_time (kb : KnowledgeBase) (u v : string) : Z :=
  match found kb u v with
  | Some L => L.2
  | None => 0
  end.

Fixpoint found_times (kb : KnowledgeBase) (u : string) (ls : list Link) : Z :=
  match ls with
  | [] => 0
  | L :: ls' => found_time kb u L.1.1 + found_times kb L.1.1 ls'
  end.

(** Every two consecutive states of the chain are joined by a link. *)
Definition chain_linked (kb : KnowledgeBase) (path_states : list State) : Prop :=
  ∀ (i : nat) (x y : State),
    path_states !! i = Some x → path_states !! S i = Some y →
    ∃ L : Link, L ∈ links_of (graph kb) x.1 ∧ L.1.1 = y.1.

(** No station has two different adjacency entries towards the same
    neighbour. *)
Definition no_parallel_links (kb : KnowledgeBase) : Prop :=
  ∀ u (L1 L2 : Link),
    L1 ∈ links_of (graph kb) u → L2 ∈ links_of (graph kb) u →
    L1.1.1 = L2.1.1 → L1 = L2.

Definition no_parallel_linksb (kb : KnowledgeBase) : bool :=
  forallb (λ kv : string * list Link,
             forallb (λ L1 : Link,
                        forallb (λ L2 : Link,
                                   implb (String.eqb L1.1.1 L2.1.1)
                                         (bool_decide (L1 = L2))) kv.2) kv.2)
          (map_to_list (graph kb)).

(** * Properties *)

(** Closed goals are settled by evaluation. *)
Ltac by_eval := vm_compute; reflexivity.

(** ** Cost policy *)


(** ** Construction *)

Lemma links_of_dd_append g k x u (L : Link) :
  L ∈ links_of (dd_append g k x) u ↔ L ∈ links_of g u ∨ (u = k ∧ L = x).
Proof.
  unfold links_of, dd_append.
  destruct (decide (u = k)) as [->|Hne].
  - rewrite lookup_insert_eq. simpl. rewrite elem_of_app, list_elem_of_singleton.
    tauto.
  - rewrite lookup_insert_ne by done. tauto.
Qed.

Lemma links_of_add_link g (r : LinkRow) u (L : Link) :
  L ∈ links_of (add_link g r) u
  ↔ L ∈ links_of g u
    ∨ (u = r.1.1.1 ∧ L = (r.1.1.2, r.1.2, r.2))
    ∨ (u = r.1.1.2 ∧ L = (r.1.1.1, r.1.2, r.2)).
Proof.
  destruct r as [[[a b] line] t]. unfold add_link. simpl.
  rewrite !links_of_dd_append. tauto.
Qed.

(** The adjacency lists hold every link in both directions and nothing else. *)
Lemma graph_build d u (L : Link) :
  L ∈ links_of (graph (build d)) u
  ↔ ∃ r : LinkRow, r ∈ links d
      ∧ ((u = r.1.1.1 ∧ L = (r.1.1.2, r.1.2, r.2))
         ∨ (u = r.1.1.2 ∧ L = (r.1.1.1, r.1.2, r.2))).
Proof.
  unfold build. simpl. generalize (links d). intros rows.
  induction rows as [|r rows IH] using rev_ind.
  - simpl. unfold links_of. rewrite lookup_empty. simpl. split.
    + intros H. by apply elem_of_nil in H.
    + intros (r & H & _). by apply elem_of_nil in H.
  - rewrite foldl_app. simpl. rewrite links_of_add_link, IH. split.
    + intros [(r' & Hin & H)|H].
      * exists r'. split; [|done]. apply elem_of_app. by left.
      * exists r. split; [|done]. apply elem_of_app. right. by apply list_elem_of_singleton.
    + intros (r' & Hin & H). apply elem_of_app in Hin as [Hin|Hin].
      * left. by exists r'.
      * apply list_elem_of_singleton in Hin as ->. by right.
Qed.

(** C5, counterexample: a dataset with a negative travel time and a link to
    a station without coordinates is accepted by the constructor. *)
Lemma KnowledgeBase_init_accepts_bad_data :
  negative_time bad_data = true
  ∧ missing_coords bad_data = true
  ∧ KnowledgeBase_init bad_data = Returns (build bad_data).
Proof. repeat split; by_eval. Qed.

Lemma stored_snoc {A} (l : list A) (x : A) : stored (l ++ [x]) = Some (l ++ [x]).
Proof. by destruct l. Qed.

Lemma default_stored {A} (l : list A) : default [] (stored l) = l.
Proof. by destruct l. Qed.

Lemma lookup_dd_append g k x s :
  dd_append g k x !! s
  = if decide (s = k) then Some (links_of g k ++ [x]) else g !! s.
Proof.
  unfold dd_append, links_of. destruct (decide (s = k)) as [->|Hne].
  - by rewrite lookup_insert_eq.
  - by rewrite lookup_insert_ne.
Qed.

Lemma lookup_dd_add (m : gmap string (gset string)) k x s :
  dd_add m k x !! s
  = if decide (s = k) then Some (default ∅ (m !! k) ∪ {[x]}) else m !! s.
Proof.
  unfold dd_add. destruct (decide (s = k)) as [->|Hne].
  - by rewrite lookup_insert_eq.
  - by rewrite lookup_insert_ne.
Qed.

(** The adjacency mapping, key by key. *)
Lemma graph_build_lookup d s :
  graph (build d) !! s = stored (flat_map (entries_of s) (links d)).
Proof.
  unfold build. simpl. generalize (links d). intros rows.
  induction rows as [|r rows IH] using rev_ind; [done|].
  rewrite foldl_app, flat_map_app. simpl. rewrite app_nil_r.
  set (g := foldl add_link ∅ rows) in *.
  set (F := flat_map (entries_of s) rows) in *.
  destruct r as [[[a b] line] t]. unfold add_link, entries_of. simpl.
  rewrite !lookup_dd_append. unfold links_of. rewrite !lookup_dd_append.
  unfold links_of.
  destruct (decide (s = b)) as [Eb|Hb], (decide (s = a)) as [Ea|Ha]; simpl.
  - subst a b. rewrite decide_True by done. rewrite IH, default_stored. simpl.
    replace (F ++ [(s, line, t); (s, line, t)])
      with ((F ++ [(s, line, t)]) ++ [(s, line, t)]) by (by rewrite <- app_assoc).
    by rewrite stored_snoc.
  - subst b. rewrite decide_False by done. rewrite IH, default_stored.
    by rewrite stored_snoc.
  - subst a. rewrite IH, default_stored. by rewrite stored_snoc.
  - by rewrite app_nil_r.
Qed.

(** The lines per station, key by key. *)
Lemma lines_build_lookup d s :
  lines_by_station (build d) !! s
  = (λ l, list_to_set ((λ L : Link, L.1.2) <$> l))
      <$> stored (flat_map (entries_of s) (links d)).
Proof.
  unfold build. simpl. generalize (links d). intros rows.
  induction rows as [|r rows IH] using rev_ind; [done|].
  rewrite foldl_app, flat_map_app. simpl. rewrite app_nil_r.
  set (m := foldl add_lines ∅ rows) in *.
  set (F := flat_map (entries_of s) rows) in *.
  destruct r as [[[a b] line] t]. unfold add_lines, entries_of. simpl.
  rewrite !lookup_dd_add.
  assert (∀ l : list Link,
            default (∅ : gset string)
              ((λ l, list_to_set ((λ L : Link, L.1.2) <$> l)) <$> stored l)
            = list_to_set ((λ L : Link, L.1.2) <$> l)) as Hd
    by (by intros []).
  destruct (decide (s = b)) as [Eb|Hb], (decide (s = a)) as [Ea|Ha]; simpl.
  - subst a b. rewrite decide_True by done. simpl.
    replace (F ++ [(s, line, t); (s, line, t)])
      with ((F ++ [(s, line, t)]) ++ [(s, line, t)]) by (by rewrite <- app_assoc).
    rewrite IH, Hd, stored_snoc. simpl. f_equal.
    rewrite !fmap_app, !list_to_set_app_L. simpl.
    by rewrite !(right_id_L ∅ (∪)).
  - subst b. rewrite decide_False by done.
    rewrite IH, Hd, stored_snoc. simpl. f_equal.
    rewrite fmap_app, list_to_set_app_L. simpl.
    by rewrite !(right_id_L ∅ (∪)).
  - subst a. rewrite IH, Hd, stored_snoc. simpl. f_equal.
    rewrite fmap_app, list_to_set_app_L. simpl.
    by rewrite !(right_id_L ∅ (∪)).
  - by rewrite app_nil_r.
Qed.

(** C5, amended: the constructor validates nothing; on every dataset it
    returns a knowledge base holding the dataset itself and, under every
    station, exactly the adjacency entries of the link rows that name it,
    one per row and direction, in the order of the rows, with the set of
    their lines; a station that no row names has no key. *)
Theorem KnowledgeBase_init_total (d : Data) :
  ∃ kb, KnowledgeBase_init d = Returns kb
    ∧ data kb = d
    ∧ (∀ s, graph kb !! s = stored (flat_map (entries_of s) (links d)))
    ∧ (∀ s, lines_by_station kb !! s
            = (λ l, list_to_set ((λ L : Link, L.1.2) <$> l))
                <$> stored (flat_map (entries_of s) (links d))).
Proof.
  exists (build d). split; [done|]. split; [done|].
  split; [apply graph_build_lookup|apply lines_build_lookup].
Qed.
(** ** Unfolding the main loop *)

Section Unfold.
Variable haversine : Q * Q → Q * Q → float_exn + Q.
Variable binary64 : Q → Q.

Lemma reconstruct_None (fuel : nat) (par : gmap State (option State))
    (acc : list State) :
  reconstruct fuel par None acc = Returns acc.
Proof. by destruct fuel. Qed.

Lemma reconstruct_step (fuel : nat) (par : gmap State (option State))
    (x : State) (p : option State) (acc : list State) :
  par !! x = Some p →
  reconstruct (S fuel) par (Some x) acc = reconstruct fuel par p (acc ++ [x]).
Proof. intros H. simpl. unfold dict_get. by rewrite H. Qed.

Lemma reconstruct_root (fuel : nat) (par : gmap State (option State))
    (x : State) (acc : list State) :
  par !! x = Some None →
  reconstruct (S fuel) par (Some x) acc = Returns (acc ++ [x]).
Proof.
  intros H. simpl. unfold dict_get. rewrite H. simpl. apply reconstruct_None.
Qed.

Lemma a_star_loop_empty fuel kb goal criterio st :
  openpq st = [] →
  a_star_loop haversine binary64 (S fuel) kb goal criterio st = (kb, Returns (None, Infinity)).
Proof. intros H. simpl. rewrite H. done. Qed.

Lemma a_star_loop_goal fuel kb goal criterio st p u l pq :
  heappop (openpq st) = Some ((p, (u, l)), pq) →
  u = goal →
  a_star_loop haversine binary64 (S fuel) kb goal criterio st
  = (kb,
     path ← reconstruct fuel (parents st) (Some (u, l)) [];
     g ← dict_get (g_cost st) (u, l);
     Returns (Some (reverse path), Fin g)).
Proof.
  intros H ->. simpl. rewrite H. by rewrite String.eqb_refl.
Qed.

Lemma a_star_loop_relax fuel kb goal criterio st p u l pq :
  heappop (openpq st) = Some ((p, (u, l)), pq) →
  u ≠ goal →
  a_star_loop haversine binary64 (S fuel) kb goal criterio st
  = match relax_all haversine binary64 (neighbors kb u).2 goal criterio u l
            {| openpq := pq; g_cost := g_cost st;
               parents := parents st; used_line := used_line st |}
            (neighbors kb u).1 with
    | Returns st' => a_star_loop haversine binary64 fuel (neighbors kb u).2 goal criterio st'
    | Raises e => ((neighbors kb u).2, Raises e)
    | OutOfFuel => ((neighbors kb u).2, OutOfFuel)
    end.
Proof.
  intros H Hne. simpl. rewrite H.
  apply String.eqb_neq in Hne. by rewrite Hne.
Qed.


Lemma h_value kb goal v cv cg km :
  stations (data kb) !! v = Some cv →
  stations (data kb) !! goal = Some cg →
  haversine (lat cv, lon cv) (lat cg, lon cg) = inr km →
  h haversine kb goal v = Returns (km * 2)%Q.
Proof.
  intros Hv Hg Hd. unfold h, coords. rewrite Hv, Hg. simpl. by rewrite Hd.
Qed.

Lemma int_add_float_value (n : Z) (x : Q) :
  Z.abs n < float_limit →
  int_add_float binary64 n x
  = Returns (binary64 (binary64 (inject_Z n) + x))%Q.
Proof.
  intros H. unfold int_add_float. apply Z.ltb_lt in H. by rewrite H.
Qed.

Lemma priority_tiempo kb goal (g : Z) v cv cg km :
  stations (data kb) !! v = Some cv →
  stations (data kb) !! goal = Some cg →
  haversine (lat cv, lon cv) (lat cg, lon cg) = inr km →
  Z.abs g < float_limit →
  priority haversine binary64 kb goal "tiempo" g v
  = Returns (binary64 (binary64 (inject_Z g) + km * 2))%Q.
Proof.
  intros Hv Hg Hd Hlim. unfold priority. simpl.
  rewrite (h_value _ _ _ _ _ _ Hv Hg Hd). simpl.
  by apply int_add_float_value.
Qed.

Lemma priority_float_raise kb goal (g : Z) v cv cg e :
  stations (data kb) !! v = Some cv →
  stations (data kb) !! goal = Some cg →
  haversine (lat cv, lon cv) (lat cg, lon cg) = inl e →
  priority haversine binary64 kb goal "tiempo" g v = float_raise e.
Proof.
  intros Hv Hg Hd. unfold priority, h, coords. simpl.
  rewrite Hv, Hg. simpl. by rewrite Hd.
Qed.

Lemma priority_other kb goal criterio (g : Z) v :
  criterio ≠ "tiempo" →
  priority haversine binary64 kb goal criterio g v = Returns (inject_Z (g + 0)).
Proof.
  intros H. unfold priority. apply String.eqb_neq in H. by rewrite H.
Qed.

Lemma relax_push kb goal criterio u l st v line t step gu p :
  step_for kb criterio t (is_transfer l line) = Returns step →
  g_cost st !! (u, l) = Some gu →
  lt_get_inf (gu + step) (g_cost st !! (v, Some line)) = true →
  priority haversine binary64 kb goal criterio (gu + step) v = Returns p →
  relax haversine binary64 kb goal criterio u l st (v, line, t)
  = Returns {| openpq := heappush (openpq st) (p, (v, Some line));
               g_cost := <[(v, Some line) := gu + step]> (g_cost st);
               parents := <[(v, Some line) := Some (u, l)]> (parents st);
               used_line := <[(v, Some line) := Some line]> (used_line st) |}.
Proof.
  intros Hs Hg Hlt Hh. unfold relax, dict_get.
  rewrite Hs. simpl. rewrite Hg. simpl. rewrite Hlt, Hh. done.
Qed.

Lemma relax_raise kb goal criterio u l st v line t step gu e :
  step_for kb criterio t (is_transfer l line) = Returns step →
  g_cost st !! (u, l) = Some gu →
  lt_get_inf (gu + step) (g_cost st !! (v, Some line)) = true →
  priority haversine binary64 kb goal criterio (gu + step) v = Raises e →
  relax haversine binary64 kb goal criterio u l st (v, line, t) = Raises e.
Proof.
  intros Hs Hg Hlt Hh. unfold relax, dict_get.
  rewrite Hs. simpl. rewrite Hg. simpl. rewrite Hlt, Hh. done.
Qed.

Lemma relax_skip kb goal criterio u l st v line t step gu :
  step_for kb criterio t (is_transfer l line) = Returns step →
  g_cost st !! (u, l) = Some gu →
  lt_get_inf (gu + step) (g_cost st !! (v, Some line)) = false →
  relax haversine binary64 kb goal criterio u l st (v, line, t) = Returns st.
Proof.
  intros Hs Hg Hlt. unfold relax, dict_get.
  rewrite Hs. simpl. rewrite Hg. simpl. by rewrite Hlt.
Qed.

Lemma neighbors_known kb s : is_Some (graph kb !! s) → (neighbors kb s).2 = kb.
Proof.
  intros [ls H]. unfold neighbors, dd_touch. simpl. rewrite H. by destruct kb.
Qed.

Lemma a_star_loop_relax_to fuel kb goal criterio st p u l pq ls st' :
  heappop (openpq st) = Some ((p, (u, l)), pq) →
  u ≠ goal →
  is_Some (graph kb !! u) →
  links_of (graph kb) u = ls →
  relax_all haversine binary64 kb goal criterio u l (popped st pq) ls = Returns st' →
  a_star_loop haversine binary64 (S fuel) kb goal criterio st
  = a_star_loop haversine binary64 fuel kb goal criterio st'.
Proof.
  intros Hpop Hne Hu <- Hrel.
  rewrite (a_star_loop_relax _ _ _ _ _ _ _ _ _ Hpop Hne).
  rewrite (neighbors_known _ _ Hu). simpl. unfold popped in Hrel. by rewrite Hrel.
Qed.

Lemma relax_all_cons kb goal criterio u l st (L : Link) ls st1 st' :
  relax haversine binary64 kb goal criterio u l st L = Returns st1 →
  relax_all haversine binary64 kb goal criterio u l st1 ls = Returns st' →
  relax_all haversine binary64 kb goal criterio u l st (L :: ls) = Returns st'.
Proof. intros H1 H2. simpl. by rewrite H1. Qed.

Lemma heappop_two (e1 e2 : entry) :
  entry_ltb e1 e2 = true → heappop [e2; e1] = Some (e1, [e2]).
Proof. intros H. simpl. by rewrite H. Qed.

End Unfold.

(** Evaluate a lookup or a test on a search state, leaving the priorities
    of the frontier untouched. *)
Ltac on_state := cbn [g_cost parents pushed popped start_search]; by_eval.


(** ** Reflexive requests *)

(** C9: a search from a stop to itself returns the one-state chain, which
    has no segment, with cost 0, and its explanation counts 0 minutes,
    0 transfers and 0 hops; this holds for every knowledge base, stop and
    criterion. *)
Theorem a_star_reflexive (haversine : Q * Q → Q * Q → float_exn + Q)
    (binary64 : Q → Q) (kb : KnowledgeBase)
    (s criterio : string) (fuel : nat) :
  a_star haversine binary64 (2 + fuel) kb s s criterio
  = (kb, Returns (Some [(s, None)], Fin 0))
  ∧ explain_route kb [(s, None)] = (kb, (s, 0, 0, 0)).
Proof.
  split.
  - unfold a_star. change (2 + fuel)%nat with (S (S fuel)).
    erewrite a_star_loop_goal; [|reflexivity|reflexivity].
    rewrite reconstruct_root by apply lookup_singleton_eq.
    unfold dict_get. simpl. rewrite lookup_singleton_eq. reflexivity.
  - unfold explain_route. simpl. reflexivity.
Qed.

(** ** The two-line example *)

Section TwoLines.
Variable haversine : Q * Q → Q * Q → float_exn + Q.
Variable binary64 : Q → Q.
Variables cA cB cC : Coord.
Variables dA dB dC : Q.
Hypothesis HdA : haversine (lat cA, lon cA) (lat cC, lon cC) = inr dA.
Hypothesis HdB : haversine (lat cB, lon cB) (lat cC, lon cC) = inr dB.
Hypothesis HdC : haversine (lat cC, lon cC) (lat cC, lon cC) = inr dC.

Local Abbreviation kb2 := (build (two_lines cA cB cC)).

(** A relaxation under tiempo that improves a cost. *)
Local Ltac push_tiempo H :=
  eapply relax_push;
    [by_eval|on_state|on_state
    |eapply priority_tiempo; [by_eval|by_eval|exact H|by_eval]].

Lemma two_lines_search fuel :
  a_star haversine binary64 (7 + fuel) kb2 "A" "C" "tiempo"
  = (kb2, Returns (Some [("A", None); ("B", Some "1"); ("C", Some "2")], Fin 12)).
Proof.
  unfold a_star.
  change (7 + fuel)%nat with (S (S (S (S (3 + fuel)))))%nat.
  (* pop (A, None), push (B, 1) *)
  etransitivity.
  { eapply a_star_loop_relax_to; [reflexivity|done|eexists; by_eval|by_eval|].
    eapply relax_all_cons; [push_tiempo HdB|reflexivity]. }
  (* pop (B, 1), push (A, 1) and (C, 2) *)
  etransitivity.
  { eapply a_star_loop_relax_to; [reflexivity|done|eexists; by_eval|by_eval|].
    eapply relax_all_cons; [push_tiempo HdA|].
    eapply relax_all_cons; [push_tiempo HdC|reflexivity]. }
  (* the frontier holds (A, 1) and (C, 2): whichever comes out first, the
     state (C, 2) is the one returned *)
  match goal with
  | |- a_star_loop _ _ _ _ _ _ ?st = _ =>
      assert (∃ eC eA : entry,
                eC.2 = ("C", Some "2") ∧ eA.2 = ("A", Some "1")
                ∧ openpq st = [eC; eA]) as (eC & eA & HC & HA & Hpq)
        by (eexists _, _; split; [|split]; [| |reflexivity]; reflexivity);
      set (st2 := st) in *
  end.
  assert (g_cost st2 !! ("A", Some "1") = Some 10) as HgA by (subst st2; on_state).
  assert (g_cost st2 !! ("B", Some "1") = Some 5) as HgB by (subst st2; on_state).
  assert (g_cost st2 !! ("C", Some "2") = Some 12) as HgC by (subst st2; on_state).
  assert (parents st2 !! ("C", Some "2") = Some (Some ("B", Some "1"))) as HpC
    by (subst st2; on_state).
  assert (parents st2 !! ("B", Some "1") = Some (Some ("A", None))) as HpB
    by (subst st2; on_state).
  assert (parents st2 !! ("A", None) = Some None) as HpA by (subst st2; on_state).
  clearbody st2. destruct eC as [pC sC], eA as [pA sA]. simpl in HC, HA. subst sC sA.
  assert (∀ st f, g_cost st = g_cost st2 → parents st = parents st2 →
            openpq st = [(pC, ("C", Some "2"))] ∨ heappop (openpq st)
              = Some ((pC, ("C", Some "2")), [(pA, ("A", Some "1"))]) →
            a_star_loop haversine binary64 (S (S (2 + f))) kb2 "C" "tiempo" st
            = (kb2, Returns (Some [("A", None); ("B", Some "1"); ("C", Some "2")],
                             Fin 12))) as Hgoal.
  { intros st f Hg Hp Hpop.
    assert (∃ pq, heappop (openpq st) = Some ((pC, ("C", Some "2")), pq)) as [pq Hpop'].
    { destruct Hpop as [Hpop|Hpop]; rewrite Hpop; by eexists. }
    rewrite (a_star_loop_goal _ _ _ _ _ _ _ _ _ _ _ Hpop' eq_refl).
    rewrite Hg, Hp. simpl. unfold dict_get.
    rewrite HpC. simpl. rewrite HpB. simpl. rewrite HpA. simpl.
    rewrite reconstruct_None. simpl. rewrite HgC. simpl. reflexivity. }
  destruct (entry_ltb (pA, ("A", Some "1")) (pC, ("C", Some "2"))) eqn:E.
  - etransitivity.
    { eapply a_star_loop_relax_to;
        [rewrite Hpq; cbv [heappop pop_min]; rewrite E; reflexivity
        |done|eexists; by_eval|by_eval|].
      eapply relax_all_cons; [|reflexivity].
      eapply relax_skip; [by_eval|exact HgA|]. simpl. by rewrite HgB. }
    apply (Hgoal _ fuel); [done|done|by left].
  - apply (Hgoal _ (1 + fuel)%nat); [done|done|]. right.
    rewrite Hpq. cbv [heappop pop_min]. rewrite E. reflexivity.
Qed.

End TwoLines.




(** ** Transfer accounting of the explanation *)

(** C3, at the failing input: on A-B-C served by the single line L1 the
    search returns the chain A, B, C with cost 5+4 = 9, and the explanation
    of that chain reports 12 minutes and 1 transfer for its 2 hops, although
    its text shows no transfer. *)
Theorem explain_route_one_line :
  a_star colocated no_rounding 7 (build one_line) "A" "C" "tiempo"
  = (build one_line,
     Returns (Some [("A", None); ("B", Some "L1"); ("C", Some "L1")], Fin 9))
  ∧ explain_route (build one_line)
      [("A", None); ("B", Some "L1"); ("C", Some "L1")]
    = (build one_line,
       ("A ──(L1)→ B" +:+ newline +:+ "B → C", 12, 1, 2)).
Proof. split; by_eval. Qed.


(** ** The frontier *)

Lemma pop_min_perm (h : list entry) (e m : entry) (r : list entry) :
  pop_min e h = (m, r) → m :: r ≡ₚ e :: h.
Proof.
  revert e m r. induction h as [|x h IH]; intros e m r; simpl.
  - intros [= <- <-]. done.
  - destruct (pop_min x h) as [m' r'] eqn:E.
    specialize (IH _ _ _ E).
    destruct (entry_ltb m' e); intros [= <- <-].
    + rewrite <- IH. apply Permutation_swap.
    + done.
Qed.

Lemma entry_ltb_true (a b : entry) : entry_ltb a b = true → (a.1 <= b.1)%Q.
Proof.
  unfold entry_ltb. destruct (Qcompare a.1 b.1) eqn:E; try done; intros _.
  - apply Qeq_alt in E. rewrite E. apply Qle_refl.
  - apply Qlt_alt in E. by apply Qlt_le_weak.
Qed.

Lemma entry_ltb_false (a b : entry) : entry_ltb a b = false → (b.1 <= a.1)%Q.
Proof.
  unfold entry_ltb. destruct (Qcompare a.1 b.1) eqn:E; try done; intros _.
  - apply Qeq_alt in E. rewrite E. apply Qle_refl.
  - apply Qgt_alt in E. by apply Qlt_le_weak.
Qed.

Lemma pop_min_least (h : list entry) (e m : entry) (r : list entry) :
  pop_min e h = (m, r) → ∀ x : entry, x ∈ e :: h → (m.1 <= x.1)%Q.
Proof.
  revert e m r. induction h as [|x h IH]; intros e m r; simpl.
  - intros [= <- <-] y Hy. apply list_elem_of_singleton in Hy as ->. apply Qle_refl.
  - destruct (pop_min x h) as [m' r'] eqn:E.
    specialize (IH _ _ _ E).
    destruct (entry_ltb m' e) eqn:Hlt; intros [= <- <-] y Hy.
    + apply elem_of_cons in Hy as [->|Hy]; [by apply entry_ltb_true|by apply IH].
    + apply elem_of_cons in Hy as [->|Hy]; [apply Qle_refl|].
      eapply Qle_trans; [by apply entry_ltb_false|by apply IH].
Qed.

Lemma heappop_perm (h : list entry) (m : entry) (r : list entry) :
  heappop h = Some (m, r) → m :: r ≡ₚ h.
Proof.
  destruct h as [|e h]; [done|]. simpl. intros [= H]. by apply pop_min_perm.
Qed.

Lemma heappop_least (h : list entry) (m : entry) (r : list entry) :
  heappop h = Some (m, r) → ∀ x : entry, x ∈ h → (m.1 <= x.1)%Q.
Proof.
  destruct h as [|e h]; [done|]. simpl. intros [= H]. by apply (pop_min_least _ _ _ _ H).
Qed.

Lemma heappop_None (h : list entry) : heappop h = None → h = [].
Proof. by destruct h. Qed.

(** ** Sums over the universe *)

Lemma sum_list_with_le {A} (f f' : A → nat) (l : list A) :
  (∀ x, x ∈ l → f' x ≤ f x)%nat →
  (sum_list_with f' l ≤ sum_list_with f l)%nat.
Proof.
  induction l as [|a l IH]; simpl; intros H; [done|].
  pose proof (H a (list_elem_of_here _ _)).
  assert (sum_list_with f' l ≤ sum_list_with f l)%nat; [|lia].
  apply IH. intros x Hx. apply H. by apply list_elem_of_further.
Qed.

Lemma sum_list_with_lt {A} (f f' : A → nat) (l : list A) (a : A) :
  a ∈ l → (f' a < f a)%nat →
  (∀ x, x ∈ l → f' x ≤ f x)%nat →
  (sum_list_with f' l < sum_list_with f l)%nat.
Proof.
  induction l as [|b l IH]; simpl; intros Ha Hlt H; [by apply elem_of_nil in Ha|].
  pose proof (H b (list_elem_of_here _ _)).
  assert (Hl : ∀ x, x ∈ l → (f' x ≤ f x)%nat).
  { intros x Hx. apply H. by apply list_elem_of_further. }
  apply elem_of_cons in Ha as [->|Ha].
  - pose proof (sum_list_with_le f f' l Hl). lia.
  - specialize (IH Ha Hlt Hl). lia.
Qed.

Lemma sum_list_with_ext_in {A} (f f' : A → nat) (l : list A) :
  (∀ x, x ∈ l → f' x = f x) → sum_list_with f' l = sum_list_with f l.
Proof.
  induction l as [|a l IH]; simpl; intros H; [done|].
  rewrite (H a (list_elem_of_here _ _)), IH; [done|].
  intros x Hx. apply H. by apply list_elem_of_further.
Qed.

(** ** Walks *)

Lemma walk_ok_app g u (ls1 ls2 : list Link) :
  walk_ok g u (ls1 ++ ls2) ↔ walk_ok g u ls1 ∧ walk_ok g (walk_end u ls1) ls2.
Proof.
  revert u. induction ls1 as [|L ls1 IH]; intros u; simpl; [tauto|].
  rewrite IH. tauto.
Qed.

Lemma walk_end_app u (ls1 ls2 : list Link) :
  walk_end u (ls1 ++ ls2) = walk_end (walk_end u ls1) ls2.
Proof. revert u. induction ls1 as [|L ls1 IH]; intros u; simpl; [done|]. apply IH. Qed.

Lemma state_after_end (s : State) (ls : list Link) :
  (state_after s ls).1 = walk_end s.1 ls.
Proof.
  revert s. induction ls as [|L ls IH]; intros s; [done|].
  unfold state_after in *. simpl. rewrite IH. done.
Qed.

Lemma state_after_snoc (s : State) (ls : list Link) (L : Link) :
  state_after s (ls ++ [L]) = arrive L.
Proof. unfold state_after. by rewrite foldl_app. Qed.

Lemma walk_cost_app kb criterio l (ls1 ls2 : list Link) u :
  walk_cost kb criterio l (ls1 ++ ls2)
  = walk_cost kb criterio l ls1
    + walk_cost kb criterio (state_after (u, l) ls1).2 ls2.
Proof.
  revert l u. induction ls1 as [|L ls1 IH]; intros l u; simpl; [done|].
  rewrite (IH _ L.1.1).
  change (state_after (u, l) (L :: ls1)) with (state_after (arrive L) ls1).
  unfold arrive. lia.
Qed.

Lemma walk_states_snoc (s : State) (ls : list Link) (L : Link) :
  walk_states s (ls ++ [L]) = walk_states s ls ++ [arrive L].
Proof.
  revert s. induction ls as [|L' ls IH]; intros s; simpl; [done|].
  f_equal. apply IH.
Qed.

Lemma walk_cost_snoc kb criterio l u (ls : list Link) (L : Link) :
  walk_cost kb criterio l (ls ++ [L])
  = walk_cost kb criterio l ls + stepz kb criterio (state_after (u, l) ls).2 L.
Proof. rewrite (walk_cost_app _ _ _ _ _ u). simpl. lia. Qed.

Lemma walk_states_length (s : State) (ls : list Link) :
  length (walk_states s ls) = S (length ls).
Proof.
  revert s. induction ls as [|L ls IH]; intros s; simpl; [done|]. by rewrite IH.
Qed.

Lemma walk_states_lookup (s : State) (ls : list Link) (i : nat) :
  (i ≤ length ls)%nat →
  walk_states s ls !! i = Some (state_after s (take i ls)).
Proof.
  revert s i. induction ls as [|L ls IH]; intros s [|i] Hi; simpl in *;
    [done|lia|done|].
  rewrite IH by lia. done.
Qed.

Lemma state_after_take (s : State) (ls : list Link) (k : nat) (L : Link) :
  ls !! k = Some L → state_after s (take (S k) ls) = arrive L.
Proof. intros H. by rewrite (take_S_r _ _ _ H), state_after_snoc. Qed.

Lemma walk_states_elem (s x : State) (ls : list Link) :
  x ∈ walk_states s ls →
  ∃ k, (k ≤ length ls)%nat ∧ x = state_after s (take k ls).
Proof.
  intros Hx. apply list_elem_of_lookup in Hx as [k Hk].
  pose proof (lookup_lt_Some _ _ _ Hk) as Hlt. rewrite walk_states_length in Hlt.
  exists k. split; [lia|]. rewrite walk_states_lookup in Hk by lia. congruence.
Qed.

(** ** Step costs *)

Lemma step_for_stepz kb criterio l (L : Link) :
  supported criterio →
  step_for kb criterio L.2 (is_transfer l L.1.2) = Returns (stepz kb criterio l L).
Proof.
  unfold stepz. intros [-> | [-> | ->]]; reflexivity.
Qed.

Lemma stepz_nonneg kb criterio u l (L : Link) :
  supported criterio →
  (criterio = "tiempo" → nonneg_costs kb) →
  L ∈ links_of (graph kb) u →
  0 ≤ stepz kb criterio l L.
Proof.
  intros Hs Hn HL. unfold stepz.
  destruct Hs as [-> | [-> | ->]]; simpl.
  - destruct (Hn eq_refl) as [Hp Ht]. specialize (Ht _ _ HL).
    unfold step_cost. destruct (is_transfer l L.1.2); lia.
  - destruct (is_transfer l L.1.2); lia.
  - destruct (is_transfer l L.1.2); lia.
Qed.

Lemma walk_cost_nonneg kb criterio u l (ls : list Link) :
  supported criterio →
  (criterio = "tiempo" → nonneg_costs kb) →
  walk_ok (graph kb) u ls →
  0 ≤ walk_cost kb criterio l ls.
Proof.
  intros Hs Hn. revert u l. induction ls as [|L ls IH]; intros u l; simpl; [done|].
  intros [HL Hok].
  pose proof (stepz_nonneg kb criterio u l L Hs Hn HL).
  specialize (IH _ (Some L.1.2) Hok). lia.
Qed.

(** ** The universe of states *)

Lemma arrive_in_universe g start u (L : Link) :
  L ∈ links_of g u → arrive L ∈ universe g start.
Proof.
  unfold links_of, universe. intros HL.
  destruct (g !! u) as [ls|] eqn:E; simpl in HL; [|by apply elem_of_nil in HL].
  apply list_elem_of_further, list_elem_of_In, in_flat_map.
  exists (u, ls). split.
  - apply list_elem_of_In. by apply elem_of_map_to_list.
  - apply list_elem_of_In. simpl. by apply list_elem_of_fmap_2.
Qed.

(** ** One relaxation *)

Section Search.
Variable haversine : Q * Q → Q * Q → float_exn + Q.
Variable binary64 : Q → Q.
Variable kb : KnowledgeBase.
Variables start goal criterio : string.
Hypothesis Hsup : supported criterio.
Hypothesis Hnn : criterio = "tiempo" → nonneg_costs kb.

Lemma priority_cases (g : Z) v :
  (∃ p, priority haversine binary64 kb goal criterio g v = Returns p)
  ∨ (∃ e, priority haversine binary64 kb goal criterio g v = Raises e).
Proof.
  unfold priority, h, coords, int_add_float.
  destruct (String.eqb criterio "tiempo"); [|by eauto].
  destruct (stations (data kb) !! v); simpl; [|by eauto].
  destruct (stations (data kb) !! goal); simpl; [|by eauto].
  destruct (haversine _ _) as [[]|km]; simpl; [by eauto..|].
  destruct (Z.abs g <? float_limit); by eauto.
Qed.

Lemma lt_get_inf_true a o :
  lt_get_inf a o = true ↔ ∀ gn, o = Some gn → a < gn.
Proof.
  destruct o as [gn|]; simpl.
  - rewrite Z.ltb_lt. split; [by intros ? ? [= <-]|by auto].
  - split; [by intros|done].
Qed.

Lemma lt_get_inf_false a o :
  lt_get_inf a o = false ↔ ∃ gn, o = Some gn ∧ gn ≤ a.
Proof.
  destruct o as [gn|]; simpl.
  - rewrite Z.ltb_ge. split; [by eauto|by intros (? & [= <-] & ?)].
  - split; [done|by intros (? & ? & ?)].
Qed.

Lemma relax_cases (u : State) st (L : Link) gu :
  g_cost st !! u = Some gu →
  (lt_get_inf (gu + stepz kb criterio u.2 L) (g_cost st !! arrive L) = false
   ∧ relax haversine binary64 kb goal criterio u.1 u.2 st L = Returns st)
  ∨ (lt_get_inf (gu + stepz kb criterio u.2 L) (g_cost st !! arrive L) = true
     ∧ ((∃ p, priority haversine binary64 kb goal criterio
                (gu + stepz kb criterio u.2 L) L.1.1 = Returns p
           ∧ relax haversine binary64 kb goal criterio u.1 u.2 st L
             = Returns (pushed st u L (gu + stepz kb criterio u.2 L) p))
        ∨ (∃ e, priority haversine binary64 kb goal criterio
                  (gu + stepz kb criterio u.2 L) L.1.1 = Raises e
           ∧ relax haversine binary64 kb goal criterio u.1 u.2 st L = Raises e))).
Proof.
  intros Hg. destruct u as [u l], L as [[v line] t].
  pose proof (step_for_stepz kb criterio l (v, line, t) Hsup) as Hs.
  simpl in Hs.
  destruct (lt_get_inf _ _) eqn:Hlt.
  - right. split; [done|].
    destruct (priority_cases (gu + stepz kb criterio l (v, line, t)) v)
      as [[p Hh]|[e Hh]].
    + left. exists p. split; [done|].
      by eapply relax_push.
    + right. exists e. split; [done|].
      by eapply relax_raise.
  - left. split; [done|]. by eapply relax_skip.
Qed.

Lemma relax_data kb' u l st (L : Link) :
  data kb' = data kb →
  relax haversine binary64 kb' goal criterio u l st L
  = relax haversine binary64 kb goal criterio u l st L.
Proof.
  intros H. destruct L as [[v line] t].
  unfold relax, step_for, step_cost, priority, h, coords. by rewrite H.
Qed.

Lemma relax_all_data kb' u l st (ls : list Link) :
  data kb' = data kb →
  relax_all haversine binary64 kb' goal criterio u l st ls
  = relax_all haversine binary64 kb goal criterio u l st ls.
Proof.
  intros H. revert st. induction ls as [|L ls IH]; intros st; simpl; [done|].
  rewrite relax_data by done.
  destruct (relax haversine binary64 kb goal criterio u l st L); simpl; [apply IH|done|done].
Qed.

(** ** The parent tree *)

Lemma arrive_not_root (L : Link) : arrive L ≠ (start, None).
Proof. unfold arrive. congruence. Qed.

Lemma tpath_state_after st x ls :
  tpath kb start criterio st x ls → state_after (start, None) ls = x.
Proof. destruct 1; [done|]. apply state_after_snoc. Qed.

Lemma tpath_walk_ok st x ls :
  tpath kb start criterio st x ls → walk_ok (graph kb) start ls.
Proof.
  induction 1 as [|y ls L gy gx Ht IH HL Hp Hgy Hgx Hle]; [done|].
  apply walk_ok_app. split; [done|]. simpl. split; [|done].
  apply tpath_state_after in Ht.
  by rewrite <- (state_after_end (start, None)), Ht.
Qed.

Lemma tpath_cost st x ls gx :
  g_cost st !! (start, None) = Some 0 →
  tpath kb start criterio st x ls →
  g_cost st !! x = Some gx →
  walk_cost kb criterio None ls ≤ gx.
Proof.
  intros Hroot Ht. revert gx.
  induction Ht as [|y ls L gy gx' Ht IH HL Hp Hgy Hgx Hle]; intros gx Hx.
  - simpl. assert (gx = 0) by congruence. lia.
  - rewrite (walk_cost_app _ _ _ _ _ start). simpl.
    rewrite (tpath_state_after _ _ _ Ht).
    specialize (IH _ Hgy). assert (gx = gx') as -> by congruence. lia.
Qed.

Lemma tpath_reconstruct st x ls fuel acc :
  parents st !! (start, None) = Some None →
  tpath kb start criterio st x ls →
  (length ls < fuel)%nat →
  reconstruct fuel (parents st) (Some x) acc
  = Returns (acc ++ reverse (walk_states (start, None) ls)).
Proof.
  intros Hroot Ht. revert fuel acc.
  induction Ht as [|y ls L gy gx' Ht IH HL Hp Hgy Hgx Hle]; intros fuel acc Hf.
  - destruct fuel as [|fuel]; [simpl in Hf; lia|].
    simpl. unfold dict_get. rewrite Hroot. simpl.
    by rewrite reconstruct_None.
  - destruct fuel as [|fuel]; [simpl in Hf; lia|].
    rewrite length_app in Hf. simpl in Hf.
    simpl. unfold dict_get. rewrite Hp. simpl.
    rewrite IH by lia.
    rewrite walk_states_snoc, reverse_app, <- app_assoc. done.
Qed.

Lemma tpath_pushed_keep st u (L0 : Link) a hv x ls gx :
  tpath kb start criterio st x ls →
  g_cost st !! x = Some gx →
  (∀ gn, g_cost st !! arrive L0 = Some gn → gx < gn) →
  tpath kb start criterio (pushed st u L0 a hv) x ls.
Proof.
  intros Ht. revert gx.
  induction Ht as [|y ls L gy gx' Ht IH HL Hp Hgy Hgx Hle]; intros gx Hx Hn.
  - constructor.
  - assert (gx = gx') as -> by congruence.
    pose proof (stepz_nonneg kb criterio _ y.2 L Hsup Hnn HL) as Hs.
    assert (arrive L ≠ arrive L0) as Hne1.
    { intros E. rewrite E in Hx. specialize (Hn _ Hx). lia. }
    assert (y ≠ arrive L0) as Hne2.
    { intros E. rewrite E in Hgy. specialize (Hn _ Hgy). lia. }
    eapply tpath_step; simpl.
    + eapply IH; [done|]. intros gn Hgn. specialize (Hn _ Hgn). lia.
    + done.
    + by rewrite lookup_insert_ne.
    + by rewrite lookup_insert_ne.
    + by rewrite lookup_insert_ne.
    + done.
Qed.

Lemma tpath_pushed_new st (u : State) (L0 : Link) gu hv :
  inv1 kb start criterio st →
  g_cost st !! u = Some gu →
  L0 ∈ links_of (graph kb) u.1 →
  lt_get_inf (gu + stepz kb criterio u.2 L0) (g_cost st !! arrive L0) = true →
  ∃ ls, tpath kb start criterio
          (pushed st u L0 (gu + stepz kb criterio u.2 L0) hv) (arrive L0) ls.
Proof.
  intros Hinv Hgu HL Hlt. rewrite lt_get_inf_true in Hlt.
  pose proof (stepz_nonneg kb criterio _ u.2 L0 Hsup Hnn HL) as Hs.
  destruct (inv_tree _ _ _ _ Hinv _ _ Hgu) as [ls Ht].
  exists (ls ++ [L0]).
  assert (u ≠ arrive L0) as Hne.
  { intros E. rewrite E in Hgu. specialize (Hlt _ Hgu). lia. }
  eapply tpath_step; simpl.
  - eapply tpath_pushed_keep; [done..|].
    intros gn Hgn. specialize (Hlt _ Hgn). lia.
  - done.
  - by rewrite lookup_insert_eq.
  - by rewrite lookup_insert_ne.
  - by rewrite lookup_insert_eq.
  - lia.
Qed.

Lemma tpath_pushed st (u : State) (L0 : Link) gu hv x ls :
  inv1 kb start criterio st →
  g_cost st !! u = Some gu →
  L0 ∈ links_of (graph kb) u.1 →
  lt_get_inf (gu + stepz kb criterio u.2 L0) (g_cost st !! arrive L0) = true →
  tpath kb start criterio st x ls →
  ∃ ls', tpath kb start criterio
           (pushed st u L0 (gu + stepz kb criterio u.2 L0) hv) x ls'.
Proof.
  intros Hinv Hgu HL Hlt Ht.
  pose proof (tpath_pushed_new st u L0 gu hv Hinv Hgu HL Hlt) as Hnew.
  rewrite lt_get_inf_true in Hlt.
  induction Ht as [|y ls L gy gx' Ht IH HL' Hp Hgy Hgx Hle].
  - exists []. constructor.
  - destruct IH as [ls' IH].
    destruct (decide (arrive L = arrive L0)) as [E|Hne]; [by rewrite E|].
    exists (ls' ++ [L]).
    destruct (decide (y = arrive L0)) as [Ey|Hney].
    + eapply tpath_step; simpl; [done|done| | | |].
      * by rewrite lookup_insert_ne.
      * rewrite Ey. by rewrite lookup_insert_eq.
      * by rewrite lookup_insert_ne.
      * rewrite Ey in Hgy. specialize (Hlt _ Hgy). lia.
    + eapply tpath_step; simpl; [done|done| | | |].
      * by rewrite lookup_insert_ne.
      * by rewrite lookup_insert_ne.
      * by rewrite lookup_insert_ne.
      * done.
Qed.

(** ** Walks that pass no state twice *)

Lemma walk_cost_take (ls : list Link) (k : nat) :
  walk_ok (graph kb) start ls →
  walk_cost kb criterio None (take k ls) ≤ walk_cost kb criterio None ls.
Proof.
  intros Hok. rewrite <- (take_drop k ls) at 2.
  rewrite <- (take_drop k ls) in Hok. apply walk_ok_app in Hok as [_ Hok].
  rewrite (walk_cost_app _ _ _ _ _ start).
  pose proof (walk_cost_nonneg kb criterio _
                (state_after (start, None) (take k ls)).2 _ Hsup Hnn Hok).
  lia.
Qed.

Lemma simple_walk_keep st u (L0 : Link) a p x gx ls :
  lt_get_inf a (g_cost st !! arrive L0) = true →
  simple_walk kb start criterio st x gx ls →
  simple_walk kb start criterio (pushed st u L0 a p) x gx ls.
Proof.
  intros Hlt (Hok & Hx & Hc & Hnd & Hpre). rewrite lt_get_inf_true in Hlt.
  split; [done|]. split; [done|]. split; [done|]. split; [done|].
  intros k Hk. destruct (Hpre k Hk) as (gz & Hz & Hle). simpl.
  destruct (decide (arrive L0 = state_after (start, None) (take k ls))) as [E|Hne].
  - rewrite <- E, lookup_insert_eq. eexists. split; [done|].
    rewrite <- E in Hz. specialize (Hlt _ Hz). lia.
  - rewrite lookup_insert_ne by done. by exists gz.
Qed.

(** Riding a link that improves a cost extends the walk to a walk that
    still passes no state twice. *)
Lemma simple_walk_extend st (u : State) (L0 : Link) gu ls :
  g_cost st !! u = Some gu →
  L0 ∈ links_of (graph kb) u.1 →
  lt_get_inf (gu + stepz kb criterio u.2 L0) (g_cost st !! arrive L0) = true →
  simple_walk kb start criterio st u gu ls →
  walk_ok (graph kb) start (ls ++ [L0])
  ∧ walk_cost kb criterio None (ls ++ [L0]) = gu + stepz kb criterio u.2 L0
  ∧ NoDup (walk_states (start, None) (ls ++ [L0])).
Proof.
  intros Hgu HL Hlt (Hok & Hu & Hc & Hnd & Hpre). rewrite lt_get_inf_true in Hlt.
  pose proof (stepz_nonneg kb criterio _ u.2 L0 Hsup Hnn HL) as Hs.
  split; [|split].
  - apply walk_ok_app. split; [done|]. simpl. split; [|done].
    by rewrite <- (state_after_end (start, None)), Hu.
  - by rewrite (walk_cost_snoc _ _ _ start), Hu, Hc.
  - rewrite walk_states_snoc. apply NoDup_app. split; [done|].
    split; [|apply NoDup_singleton].
    intros x Hx Hx'. apply list_elem_of_singleton in Hx' as ->.
    apply walk_states_elem in Hx as (k & Hk & E).
    destruct (Hpre k Hk) as (gz & Hz & Hle). rewrite <- E in Hz.
    specialize (Hlt _ Hz). pose proof (walk_cost_take ls k Hok). lia.
Qed.

Lemma simple_walk_new st (u : State) (L0 : Link) gu p ls :
  g_cost st !! u = Some gu →
  L0 ∈ links_of (graph kb) u.1 →
  lt_get_inf (gu + stepz kb criterio u.2 L0) (g_cost st !! arrive L0) = true →
  simple_walk kb start criterio st u gu ls →
  simple_walk kb start criterio
    (pushed st u L0 (gu + stepz kb criterio u.2 L0) p)
    (arrive L0) (gu + stepz kb criterio u.2 L0) (ls ++ [L0]).
Proof.
  intros Hgu HL Hlt Hsw.
  destruct (simple_walk_extend st u L0 gu ls Hgu HL Hlt Hsw) as (Hok & Hc & Hnd).
  pose proof (simple_walk_keep st u L0 _ p _ _ _ Hlt Hsw) as (_ & _ & _ & _ & Hpre).
  split; [done|]. split; [apply state_after_snoc|]. split; [done|]. split; [done|].
  intros k Hk. rewrite length_app in Hk. simpl in Hk.
  destruct (decide (k ≤ length ls)%nat) as [Hle|Hgt].
  - rewrite take_app_le by done. by apply Hpre.
  - rewrite take_ge by (rewrite length_app; simpl; lia).
    rewrite state_after_snoc. simpl. rewrite lookup_insert_eq.
    eexists. split; [done|]. lia.
Qed.

(** ** Effect of a successful relaxation *)

Section Pushed.
Variables (st : search) (u : State) (L : Link) (gu : Z) (pr : Q).
Hypothesis Hinv : inv1 kb start criterio st.
Hypothesis Hgu : g_cost st !! u = Some gu.
Hypothesis HL : L ∈ links_of (graph kb) u.1.
Hypothesis Hlt :
  lt_get_inf (gu + stepz kb criterio u.2 L) (g_cost st !! arrive L) = true.

Local Abbreviation st' := (pushed st u L (gu + stepz kb criterio u.2 L) pr).

Lemma pushed_step_nonneg : 0 ≤ stepz kb criterio u.2 L.
Proof. by eapply stepz_nonneg. Qed.

Lemma pushed_not_u : u ≠ arrive L.
Proof.
  pose proof pushed_step_nonneg. intros E.
  apply lt_get_inf_true with (gn := gu) in Hlt; [lia|]. by rewrite <- E.
Qed.

Lemma pushed_g_u : g_cost st' !! u = Some gu.
Proof. simpl. rewrite lookup_insert_ne; [done|]. by apply not_eq_sym, pushed_not_u. Qed.

Lemma pushed_g_le : g_le st' st.
Proof.
  intros x gx Hx. simpl.
  destruct (decide (arrive L = x)) as [<-|Hne].
  - rewrite lookup_insert_eq. eexists. split; [done|].
    apply lt_get_inf_true with (gn := gx) in Hlt; [lia|done].
  - rewrite lookup_insert_ne by done. eexists. split; [done|lia].
Qed.

Lemma pushed_inv1 : inv1 kb start criterio st'.
Proof.
  pose proof pushed_step_nonneg as Hs.
  split; simpl.
  - rewrite lookup_insert_ne; [apply Hinv|apply arrive_not_root].
  - rewrite lookup_insert_ne; [apply Hinv|apply arrive_not_root].
  - intros x gx. destruct (decide (arrive L = x)) as [<-|Hne].
    + rewrite lookup_insert_eq. intros [= <-].
      pose proof (inv_nonneg _ _ _ _ Hinv _ _ Hgu). lia.
    + rewrite lookup_insert_ne by done. apply Hinv.
  - intros x gx. destruct (decide (arrive L = x)) as [<-|Hne].
    + intros _. by eapply arrive_in_universe.
    + rewrite lookup_insert_ne by done. apply Hinv.
  - intros e He. destruct (decide (arrive L = e.2)) as [<-|Hne].
    + rewrite lookup_insert_eq. by eexists.
    + rewrite lookup_insert_ne by done.
      unfold heappush in He. apply elem_of_cons in He as [->|He]; [done|].
      by apply Hinv.
  - intros x gx. destruct (decide (arrive L = x)) as [<-|Hne].
    + intros _. by apply tpath_pushed_new.
    + rewrite lookup_insert_ne by done. intros Hx.
      destruct (inv_tree _ _ _ _ Hinv _ _ Hx) as [ls Ht].
      by eapply tpath_pushed.
  - intros x gx. destruct (decide (arrive L = x)) as [<-|Hne].
    + rewrite lookup_insert_eq. intros [= <-].
      destruct (inv_simple _ _ _ _ Hinv _ _ Hgu) as [ls Hsw].
      exists (ls ++ [L]). by apply simple_walk_new.
    + rewrite lookup_insert_ne by done. intros Hx.
      destruct (inv_simple _ _ _ _ Hinv _ _ Hx) as [ls Hsw].
      exists ls. by apply simple_walk_keep.
Qed.

Lemma pushed_lexle : lexle kb start st' st.
Proof.
  pose proof pushed_step_nonneg as Hs.
  pose proof (inv_nonneg _ _ _ _ Hinv _ _ Hgu) as Hgu0.
  assert (HU : arrive L ∈ universe (graph kb) start) by by eapply arrive_in_universe.
  unfold lexle, undefined_states, cost_mass.
  destruct (g_cost st !! arrive L) as [gn|] eqn:E.
  - right. apply lt_get_inf_true with (gn := gn) in Hlt; [|done]. split.
    + apply sum_list_with_ext_in. intros x _. simpl.
      destruct (decide (arrive L = x)) as [<-|Hne].
      * by rewrite lookup_insert_eq, E.
      * by rewrite lookup_insert_ne.
    + assert (sum_list_with (λ x, Z.to_nat (default 0%Z (g_cost st' !! x)))
                (universe (graph kb) start)
              < sum_list_with (λ x, Z.to_nat (default 0%Z (g_cost st !! x)))
                  (universe (graph kb) start))%nat;
        [|change (length (openpq st')) with (S (length (openpq st))); lia].
      apply (sum_list_with_lt _ _ _ (arrive L)); [done| |].
      * simpl. rewrite lookup_insert_eq, E. simpl. lia.
      * intros x _. simpl. destruct (decide (arrive L = x)) as [<-|Hne].
        -- rewrite lookup_insert_eq, E. simpl. lia.
        -- by rewrite lookup_insert_ne.
  - left. apply (sum_list_with_lt _ _ _ (arrive L)); [done| |].
    + simpl. rewrite lookup_insert_eq, E. lia.
    + intros x _. simpl. destruct (decide (arrive L = x)) as [<-|Hne].
      * rewrite lookup_insert_eq, E. lia.
      * by rewrite lookup_insert_ne.
Qed.

Lemma pushed_relaxed : relaxed kb criterio st' u L.
Proof.
  exists gu, (gu + stepz kb criterio u.2 L). split; [apply pushed_g_u|].
  split; [|lia]. simpl. by rewrite lookup_insert_eq.
Qed.

Lemma pushed_inv2_mid :
  good_priority kb goal criterio (gu + stepz kb criterio u.2 L) L.1.1 pr →
  inv2_mid kb goal criterio u st →
  inv2_mid kb goal criterio u st'.
Proof.
  intros [Hadm Hgoal] [Hfr Hgp]. pose proof pushed_g_le as Hle.
  split.
  - intros x gx. simpl. destruct (decide (arrive L = x)) as [<-|Hne].
    + rewrite lookup_insert_eq. intros [= <-]. right. left.
      eexists. split; [apply list_elem_of_here|].
      intros gx ls. simpl. rewrite lookup_insert_eq. intros [= <-] Hok Hend.
      by apply Hadm.
    + rewrite lookup_insert_ne by done. intros Hx.
      destruct (Hfr _ _ Hx) as [->|[(p & Hp & Hopen)|[Hng Hcl]]]; [by left| |].
      * right. left. exists p. split; [by apply list_elem_of_further|].
        intros gx' ls. simpl. rewrite lookup_insert_ne by done. apply Hopen.
      * right. right. split; [done|]. intros L' HL'.
        destruct (Hcl _ HL') as (gx' & gy & Hx' & Hy & Hrel).
        destruct (Hle _ _ Hy) as (gy' & Hy' & Hyle).
        exists gx', gy'. split; [|split; [done|lia]].
        simpl. by rewrite lookup_insert_ne.
  - intros p x Hin Hx. simpl. apply elem_of_cons in Hin as [[= -> ->]|Hin].
    + rewrite lookup_insert_eq. eexists. split; [done|]. by apply Hgoal.
    + destruct (Hgp _ _ Hin Hx) as (gx & Hgx & Hpx).
      destruct (Hle _ _ Hgx) as (gx' & Hgx' & Hxle).
      exists gx'. split; [done|].
      destruct Hpx as [Hpx|Hpx]; [left|by right].
      eapply Qle_trans; [|done]. by rewrite <- Zle_Qle.
Qed.

End Pushed.

(** ** The inner loop *)

Lemma lexle_refl st : lexle kb start st st.
Proof. right. split; lia. Qed.

Lemma lexle_trans st1 st2 st3 :
  lexle kb start st1 st2 → lexle kb start st2 st3 → lexle kb start st1 st3.
Proof. unfold lexle. lia. Qed.

Lemma g_le_refl st : g_le st st.
Proof. intros x gx Hx. exists gx. split; [done|lia]. Qed.

Lemma g_le_trans st1 st2 st3 : g_le st1 st2 → g_le st2 st3 → g_le st1 st3.
Proof.
  intros H12 H23 x gx Hx.
  destruct (H23 _ _ Hx) as (g2 & H2 & Hle2).
  destruct (H12 _ _ H2) as (g1 & H1 & Hle1).
  exists g1. split; [done|lia].
Qed.

Lemma relaxed_mono st st' (u : State) gu (L : Link) :
  relaxed kb criterio st u L →
  g_le st' st →
  g_cost st !! u = Some gu → g_cost st' !! u = Some gu →
  relaxed kb criterio st' u L.
Proof.
  intros (gx & gy & Hx & Hy & Hle) Hg Hu Hu'.
  destruct (Hg _ _ Hy) as (gy' & Hy' & Hle').
  exists gu, gy'. split; [done|]. split; [done|].
  assert (gx = gu) by congruence. lia.
Qed.

Lemma relax_step st (u : State) (L : Link) gu st' :
  inv1 kb start criterio st →
  g_cost st !! u = Some gu →
  L ∈ links_of (graph kb) u.1 →
  relax haversine binary64 kb goal criterio u.1 u.2 st L = Returns st' →
  inv1 kb start criterio st'
  ∧ lexle kb start st' st
  ∧ g_cost st' !! u = Some gu
  ∧ g_le st' st
  ∧ relaxed kb criterio st' u L
  ∧ (good_priorities haversine binary64 kb goal criterio →
     inv2_mid kb goal criterio u st → inv2_mid kb goal criterio u st').
Proof.
  intros Hinv Hgu HL Hrel.
  destruct (relax_cases u st L gu Hgu) as [[Hlt Hr]|[Hlt [(p & Hh & Hr)|(e & Hh & Hr)]]];
    rewrite Hr in Hrel; [| |done]; injection Hrel as <-.
  - split; [done|]. split; [apply lexle_refl|]. split; [done|].
    split; [apply g_le_refl|]. split; [|done].
    apply lt_get_inf_false in Hlt as (gn & Hn & Hle). by exists gu, gn.
  - split; [by apply pushed_inv1|]. split; [by apply pushed_lexle|].
    split; [by apply pushed_g_u|]. split; [by apply pushed_g_le|].
    split; [by apply pushed_relaxed|]. intros Hadm. apply pushed_inv2_mid; try done.
    apply Hadm; [|done].
    pose proof (inv_nonneg _ _ _ _ Hinv _ _ Hgu).
    pose proof (stepz_nonneg kb criterio _ u.2 L Hsup Hnn HL). lia.
Qed.

Lemma relax_all_steps (u : State) gu (ls : list Link) st st' :
  (∀ L : Link, L ∈ ls → L ∈ links_of (graph kb) u.1) →
  inv1 kb start criterio st →
  g_cost st !! u = Some gu →
  relax_all haversine binary64 kb goal criterio u.1 u.2 st ls = Returns st' →
  inv1 kb start criterio st'
  ∧ lexle kb start st' st
  ∧ g_cost st' !! u = Some gu
  ∧ g_le st' st
  ∧ (∀ L : Link, L ∈ ls → relaxed kb criterio st' u L)
  ∧ (good_priorities haversine binary64 kb goal criterio →
     inv2_mid kb goal criterio u st → inv2_mid kb goal criterio u st').
Proof.
  revert st. induction ls as [|L ls IH]; intros st Hls Hinv Hgu; simpl.
  - intros [= <-]. split; [done|]. split; [apply lexle_refl|]. split; [done|].
    split; [apply g_le_refl|]. split; [|done]. intros L HL. by apply elem_of_nil in HL.
  - destruct (relax haversine binary64 kb goal criterio u.1 u.2 st L) as [st1| |] eqn:E;
      simpl; [|done..].
    intros Hall.
    destruct (relax_step st u L gu st1 Hinv Hgu) as (Hi1 & Hl1 & Hg1 & Hle1 & Hr1 & Hm1);
      [apply Hls, list_elem_of_here|done|].
    destruct (IH st1) as (Hi2 & Hl2 & Hg2 & Hle2 & Hr2 & Hm2); [|done..|].
    { intros L' HL'. by apply Hls, list_elem_of_further. }
    split; [done|]. split; [by eapply lexle_trans|]. split; [done|].
    split; [by eapply g_le_trans|]. split.
    + intros L' HL'. apply elem_of_cons in HL' as [->|HL']; [|by apply Hr2].
      by eapply relaxed_mono.
    + intros Hadm Hmid. by apply Hm2, Hm1.
Qed.

Lemma relax_all_raises (u : State) gu (ls : list Link) st e :
  (∀ L : Link, L ∈ ls → L ∈ links_of (graph kb) u.1) →
  inv1 kb start criterio st →
  g_cost st !! u = Some gu →
  relax_all haversine binary64 kb goal criterio u.1 u.2 st ls = Raises e →
  ∃ wl (L : Link),
    walk_ok (graph kb) start (wl ++ [L])
    ∧ NoDup (walk_states (start, None) (wl ++ [L]))
    ∧ priority haversine binary64 kb goal criterio
        (walk_cost kb criterio None (wl ++ [L])) L.1.1 = Raises e.
Proof.
  revert st. induction ls as [|L ls IH]; intros st Hls Hinv Hgu; simpl; [done|].
  destruct (relax haversine binary64 kb goal criterio u.1 u.2 st L) as [st1|e'|] eqn:E;
    simpl.
  - intros Hall.
    destruct (relax_step st u L gu st1 Hinv Hgu) as (Hi1 & Hl1 & Hg1 & _);
      [apply Hls, list_elem_of_here|done|].
    apply (IH st1); [|done..].
    intros L' HL'. by apply Hls, list_elem_of_further.
  - intros [= ->].
    destruct (relax_cases u st L gu Hgu) as [[Hlt Hr]|[Hlt [(p & Hh & Hr)|(e' & Hh & Hr)]]];
      rewrite Hr in E; try done.
    injection E as <-.
    destruct (inv_simple _ _ _ _ Hinv _ _ Hgu) as [wl Hsw].
    destruct (simple_walk_extend st u L gu wl Hgu (Hls _ (list_elem_of_here _ _))
                Hlt Hsw) as (Hok & Hc & Hnd).
    exists wl, L. rewrite Hc. done.
  - done.
Qed.

Lemma relax_all_fuel (u : State) gu (ls : list Link) st :
  (∀ L : Link, L ∈ ls → L ∈ links_of (graph kb) u.1) →
  inv1 kb start criterio st →
  g_cost st !! u = Some gu →
  relax_all haversine binary64 kb goal criterio u.1 u.2 st ls ≠ OutOfFuel.
Proof.
  revert st. induction ls as [|L ls IH]; intros st Hls Hinv Hgu; simpl; [done|].
  destruct (relax haversine binary64 kb goal criterio u.1 u.2 st L) as [st1|e'|] eqn:E; simpl.
  - destruct (relax_step st u L gu st1 Hinv Hgu) as (Hi1 & Hl1 & Hg1 & _);
      [apply Hls, list_elem_of_here|done|].
    apply IH; [|done..]. intros L' HL'. by apply Hls, list_elem_of_further.
  - done.
  - destruct (relax_cases u st L gu Hgu) as [[Hlt Hr]|[Hlt [(p & Hh & Hr)|(e & Hh & Hr)]]];
      rewrite Hr in E; done.
Qed.

(** ** One iteration of the outer loop *)

Lemma tpath_ext st1 st2 x ls :
  g_cost st2 = g_cost st1 → parents st2 = parents st1 →
  tpath kb start criterio st1 x ls → tpath kb start criterio st2 x ls.
Proof.
  intros Hg Hp. induction 1; [constructor|].
  eapply tpath_step; rewrite ?Hg, ?Hp; done.
Qed.

Section Iteration.
Variables (st : search) (p : Q) (u : State) (pq : list entry).
Hypothesis Hinv : inv1 kb start criterio st.
Hypothesis Hpop : heappop (openpq st) = Some ((p, u), pq).

Lemma popped_in (e : entry) : e ∈ pq → e ∈ openpq st.
Proof.
  intros He. rewrite <- (heappop_perm _ _ _ Hpop). by apply list_elem_of_further.
Qed.

Lemma popped_cases (e : entry) : e ∈ openpq st → e = (p, u) ∨ e ∈ pq.
Proof.
  rewrite <- (heappop_perm _ _ _ Hpop). intros He. by apply elem_of_cons in He.
Qed.

Lemma popped_defined : ∃ gu, g_cost st !! u = Some gu.
Proof.
  assert ((p, u) ∈ openpq st) as Hin.
  { rewrite <- (heappop_perm _ _ _ Hpop). apply list_elem_of_here. }
  by destruct (inv_open _ _ _ _ Hinv _ Hin) as [gu Hgu]; exists gu.
Qed.

Lemma popped_inv1 : inv1 kb start criterio (popped st pq).
Proof.
  split; simpl; try apply Hinv.
  - intros e He. by apply Hinv, popped_in.
  - intros x gx Hx. destruct (inv_tree _ _ _ _ Hinv _ _ Hx) as [ls Ht].
    exists ls. by apply (tpath_ext st).
Qed.

Lemma popped_measure :
  undefined_states kb start (popped st pq) = undefined_states kb start st
  ∧ S (cost_mass kb start (popped st pq)) = cost_mass kb start st.
Proof.
  split; [done|]. unfold cost_mass. simpl.
  rewrite <- (Permutation_length (heappop_perm _ _ _ Hpop)). simpl. lia.
Qed.

Lemma popped_inv2_mid :
  inv2 kb goal criterio st → inv2_mid kb goal criterio u (popped st pq).
Proof.
  intros [Hfr Hgp]. split.
  - intros x gx Hx. simpl in Hx.
    destruct (Hfr _ _ Hx) as [(p' & Hin & Hopen)|Hcl]; [|by right; right].
    apply popped_cases in Hin as [[= -> ->]|Hin]; [by left|].
    right. left. by exists p'.
  - intros p' x Hin. simpl. apply Hgp. by apply popped_in.
Qed.

Lemma iteration st' :
  u.1 ≠ goal →
  relax_all haversine binary64 kb goal criterio u.1 u.2 (popped st pq)
    (links_of (graph kb) u.1) = Returns st' →
  inv1 kb start criterio st'
  ∧ lexlt kb start st' st
  ∧ (good_priorities haversine binary64 kb goal criterio →
     inv2 kb goal criterio st → inv2 kb goal criterio st').
Proof.
  intros Hng Hrel. destruct popped_defined as [gu Hgu].
  destruct (relax_all_steps u gu _ _ _ (λ _ H, H) popped_inv1 Hgu Hrel)
    as (Hi & Hl & Hg & Hle & Hr & Hm).
  split; [done|]. split.
  - destruct popped_measure as [Hu Hc]. unfold lexle in Hl. unfold lexlt. lia.
  - intros Hadm Hinv2. destruct (Hm Hadm (popped_inv2_mid Hinv2)) as [Hfr Hgp].
    split; [|done]. intros x gx Hx.
    destruct (Hfr _ _ Hx) as [->|H]; [|done].
    right. by split.
Qed.

End Iteration.

(** ** The knowledge base along the search *)

Lemma links_of_dd_touch (g : gmap string (list Link)) k s :
  links_of (dd_touch [] g k) s = links_of g s.
Proof.
  unfold links_of, dd_touch. destruct (g !! k) eqn:E; [done|].
  destruct (decide (k = s)) as [<-|Hne].
  - by rewrite lookup_insert_eq, E.
  - by rewrite lookup_insert_ne.
Qed.

Lemma kb_same_refl k : kb_same k k.
Proof. by repeat split. Qed.

Lemma kb_same_trans k1 k2 k3 : kb_same k1 k2 → kb_same k2 k3 → kb_same k1 k3.
Proof.
  intros (Hd1 & Hl1 & Hg1) (Hd2 & Hl2 & Hg2).
  split; [congruence|]. split; [congruence|].
  intros s. by rewrite Hg2, Hg1.
Qed.

Lemma kb_same_neighbors k s : kb_same k (neighbors k s).2.
Proof. repeat split. intros s'. simpl. apply links_of_dd_touch. Qed.

Lemma a_star_loop_step fuel kb' st p (u : State) pq :
  kb_same kb kb' →
  heappop (openpq st) = Some ((p, u), pq) →
  u.1 ≠ goal →
  a_star_loop haversine binary64 (S fuel) kb' goal criterio st
  = match relax_all haversine binary64 kb goal criterio u.1 u.2 (popped st pq)
            (links_of (graph kb) u.1) with
    | Returns st' => a_star_loop haversine binary64 fuel (neighbors kb' u.1).2 goal criterio st'
    | Raises e => ((neighbors kb' u.1).2, Raises e)
    | OutOfFuel => ((neighbors kb' u.1).2, OutOfFuel)
    end.
Proof.
  intros (Hd & Hl & Hg) Hpop Hne. destruct u as [u l].
  rewrite (a_star_loop_relax _ _ _ _ _ _ _ _ _ _ _ Hpop Hne).
  rewrite relax_all_data by done. simpl. by rewrite Hg.
Qed.

(** ** Termination of the two loops *)

Lemma reconstruct_stable (fuel fuel' : nat) (par : gmap State (option State))
    (cur : option State) (acc : list State) :
  reconstruct fuel par cur acc ≠ OutOfFuel →
  (fuel ≤ fuel')%nat →
  reconstruct fuel' par cur acc = reconstruct fuel par cur acc.
Proof.
  revert fuel' cur acc. induction fuel as [|fuel IH]; intros fuel' cur acc Hr Hle.
  - destruct cur; [done|]. by rewrite !reconstruct_None.
  - destruct fuel' as [|fuel']; [lia|].
    destruct cur as [c|]; [|done]. simpl in *.
    destruct (dict_get par c) as [q| |]; simpl in *; [|done..].
    apply IH; [done|lia].
Qed.

Lemma a_star_loop_terminates (n m : nat) st kb' :
  kb_same kb kb' →
  inv1 kb start criterio st →
  (undefined_states kb start st ≤ n)%nat →
  (cost_mass kb start st ≤ m)%nat →
  ∃ fuel0 r, r ≠ OutOfFuel
    ∧ ∀ fuel, (fuel0 ≤ fuel)%nat →
        (a_star_loop haversine binary64 fuel kb' goal criterio st).2 = r.
Proof.
  revert m st kb'.
  induction n as [n IHn] using lt_wf_ind.
  induction m as [m IHm] using lt_wf_ind.
  intros st kb' Hkb Hinv Hn Hm.
  destruct (heappop (openpq st)) as [[[p u] pq]|] eqn:Hpop.
  - destruct (decide (u.1 = goal)) as [Hg|Hng].
    + destruct (popped_defined st p u pq Hinv Hpop) as [gu Hgu].
      destruct (inv_tree _ _ _ _ Hinv _ _ Hgu) as [ls Ht].
      exists (S (S (length ls))), (Returns (Some (walk_states (start, None) ls), Fin gu)).
      split; [done|]. intros fuel Hf.
      destruct fuel as [|fuel]; [lia|]. destruct u as [u l].
      rewrite (a_star_loop_goal _ _ _ _ _ _ _ _ _ _ _ Hpop Hg). simpl.
      rewrite (tpath_reconstruct st (u, l) ls) by (try apply Hinv; try done; lia).
      simpl. unfold dict_get. rewrite Hgu. simpl. by rewrite reverse_involutive.
    + destruct (relax_all haversine binary64 kb goal criterio u.1 u.2 (popped st pq)
                  (links_of (graph kb) u.1)) as [st'|e|] eqn:E.
      * destruct (iteration st p u pq Hinv Hpop st' Hng E) as (Hi & Hlt & _).
        assert (∃ fuel0 r, r ≠ OutOfFuel ∧ ∀ fuel, (fuel0 ≤ fuel)%nat →
                  (a_star_loop haversine binary64 fuel (neighbors kb' u.1).2
                     goal criterio st').2 = r) as (fuel0 & r & Hr & Hrun).
        { assert (kb_same kb (neighbors kb' u.1).2) as Hkb'.
          { eapply kb_same_trans; [done|apply kb_same_neighbors]. }
          destruct Hlt as [Hlt|[Heq Hlt]].
          - eapply (IHn (undefined_states kb start st')); [lia|done|done|lia|done].
          - eapply (IHm (cost_mass kb start st')); [lia|done|done|lia|done]. }
        exists (S fuel0), r. split; [done|]. intros fuel Hf.
        destruct fuel as [|fuel]; [lia|].
        rewrite (a_star_loop_step _ _ _ _ _ _ Hkb Hpop Hng), E.
        apply Hrun. lia.
      * exists 1%nat, (Raises e). split; [done|]. intros fuel Hf.
        destruct fuel as [|fuel]; [lia|].
        by rewrite (a_star_loop_step _ _ _ _ _ _ Hkb Hpop Hng), E.
      * destruct (popped_defined st p u pq Hinv Hpop) as [gu Hgu].
        exfalso.
        by apply (relax_all_fuel u gu _ (popped st pq) (λ _ H, H)
                    (popped_inv1 st p u pq Hinv Hpop) Hgu).
  - exists 1%nat, (Returns (None, Infinity)). split; [done|]. intros fuel Hf.
    destruct fuel as [|fuel]; [lia|].
    rewrite a_star_loop_empty; [done|]. by apply heappop_None.
Qed.

(** ** What the loop returns *)

Lemma a_star_loop_ind (I : search → Prop)
    (P : run (option (list State) * ecost) → Prop) :
  P OutOfFuel →
  (∀ st, I st → openpq st = [] → P (Returns (None, Infinity))) →
  (∀ st p (u : State) pq fuel, I st →
     heappop (openpq st) = Some ((p, u), pq) → u.1 = goal →
     P (path ← reconstruct fuel (parents st) (Some u) [];
        g ← dict_get (g_cost st) u;
        Returns (Some (reverse path), Fin g))) →
  (∀ st p (u : State) pq e, I st →
     heappop (openpq st) = Some ((p, u), pq) → u.1 ≠ goal →
     relax_all haversine binary64 kb goal criterio u.1 u.2 (popped st pq)
       (links_of (graph kb) u.1) = Raises e →
     P (Raises e)) →
  (∀ st p (u : State) pq st', I st →
     heappop (openpq st) = Some ((p, u), pq) → u.1 ≠ goal →
     relax_all haversine binary64 kb goal criterio u.1 u.2 (popped st pq)
       (links_of (graph kb) u.1) = Returns st' →
     I st') →
  ∀ fuel st kb', kb_same kb kb' → I st →
    P (a_star_loop haversine binary64 fuel kb' goal criterio st).2.
Proof.
  intros Hfuel Hempty Hgoal Hraise Hstep.
  induction fuel as [|fuel IH]; intros st kb' Hkb HI; [done|].
  destruct (heappop (openpq st)) as [[[p u] pq]|] eqn:Hpop.
  - destruct (decide (u.1 = goal)) as [Hg|Hng].
    + destruct u as [u l].
      rewrite (a_star_loop_goal _ _ _ _ _ _ _ _ _ _ _ Hpop Hg). simpl.
      by eapply Hgoal.
    + rewrite (a_star_loop_step _ _ _ _ _ _ Hkb Hpop Hng).
      destruct (relax_all _ _ _ _ _ _ _ _) as [st'|e|] eqn:E.
      * apply IH; [|by eapply Hstep].
        eapply kb_same_trans; [done|apply kb_same_neighbors].
      * by eapply Hraise.
      * done.
  - rewrite a_star_loop_empty; [|by apply heappop_None].
    eapply Hempty; [done|]. by apply heappop_None.
Qed.

(** Whatever it returns is a walk from the start to the goal, and it only
    raises when the computation of a priority does. *)
Lemma a_star_loop_sound fuel st kb' :
  kb_same kb kb' →
  inv1 kb start criterio st →
  sound_result haversine binary64 kb start goal criterio
    (a_star_loop haversine binary64 fuel kb' goal criterio st).2.
Proof.
  intros Hkb Hinv0.
  apply (a_star_loop_ind (inv1 kb start criterio)
           (sound_result haversine binary64 kb start goal criterio)); try done.
  - intros st' p u pq f Hinv Hpop Hg.
    destruct (popped_defined st' p u pq Hinv Hpop) as [gu Hgu].
    destruct (inv_tree _ _ _ _ Hinv _ _ Hgu) as [ls Ht].
    destruct (reconstruct f (parents st') (Some u) []) as [path|e|] eqn:E;
      simpl; [| |done].
    + unfold dict_get. rewrite Hgu. simpl.
      assert (reconstruct (f + S (length ls)) (parents st') (Some u) []
              = Returns path) as E'.
      { rewrite <- E. apply reconstruct_stable; [by rewrite E|lia]. }
      rewrite (tpath_reconstruct st' u ls) in E' by (try apply Hinv; try done; lia).
      injection E' as <-. simpl. rewrite reverse_involutive.
      exists ls. split; [by eapply tpath_walk_ok|]. split; [|split; [done|]].
      * rewrite <- Hg, <- (tpath_state_after _ _ _ Ht).
        by rewrite state_after_end.
      * eapply tpath_cost; [apply Hinv|done|done].
    + assert (reconstruct (f + S (length ls)) (parents st') (Some u) []
              = Raises e) as E'.
      { rewrite <- E. apply reconstruct_stable; [by rewrite E|lia]. }
      by rewrite (tpath_reconstruct st' u ls) in E' by (try apply Hinv; try done; lia).
  - intros st' p u pq e Hinv Hpop Hng E.
    destruct (popped_defined st' p u pq Hinv Hpop) as [gu Hgu].
    exact (relax_all_raises u gu _ _ _ (λ _ H, H)
             (popped_inv1 st' p u pq Hinv Hpop) Hgu E).
  - intros st' p u pq st'' Hinv Hpop Hng E.
    by destruct (iteration st' p u pq Hinv Hpop st'' Hng E) as (Hi & _).
Qed.

Lemma exact_cost_le (c c' : Z) :
  exact_cost criterio c → c' ≤ c → exact_cost criterio c'.
Proof. intros H Hle Ht. specialize (H Ht). lia. Qed.

(** Some entry of the frontier lies below the cost of any way of reaching
    the goal through a state that has a cost, when that cost is held
    exactly. *)
Lemma frontier_bound st (x : State) gx ls :
  inv2 kb goal criterio st →
  g_cost st !! x = Some gx →
  walk_ok (graph kb) x.1 ls →
  walk_end x.1 ls = goal →
  exact_cost criterio (gx + walk_cost kb criterio x.2 ls) →
  ∃ e : entry, e ∈ openpq st
    ∧ (e.1 <= inject_Z (gx + walk_cost kb criterio x.2 ls))%Q.
Proof.
  intros [Hfr _]. revert x gx.
  induction ls as [|L ls IH]; intros x gx Hx Hok Hend Hex.
  - destruct (Hfr _ _ Hx) as [(p & Hp & Hopen)|[Hng _]]; [|done].
    exists (p, x). split; [done|]. by apply Hopen.
  - destruct (Hfr _ _ Hx) as [(p & Hp & Hopen)|[Hng Hcl]].
    + exists (p, x). split; [done|]. by apply Hopen.
    + destruct Hok as [HL Hok]. simpl in Hend.
      destruct (Hcl _ HL) as (gx' & gy & Hx' & Hy & Hle).
      assert (gx' = gx) as -> by congruence.
      destruct (IH (arrive L) gy Hy Hok Hend) as (e & He & Hple).
      { eapply exact_cost_le; [exact Hex|]. simpl. lia. }
      exists e. split; [done|].
      eapply Qle_trans; [done|]. rewrite <- Zle_Qle. simpl. lia.
Qed.

(** Once every state with a cost has had its links relaxed, no walk from
    such a state ends at the goal. *)
Lemma all_closed_no_walk st (x : State) gx (ls : list Link) :
  (∀ y gy, g_cost st !! y = Some gy → closed_state kb goal criterio st y) →
  g_cost st !! x = Some gx →
  walk_ok (graph kb) x.1 ls →
  walk_end x.1 ls ≠ goal.
Proof.
  intros Hall. revert x gx. induction ls as [|L ls IH]; intros x gx Hx; simpl.
  - intros _. by destruct (Hall _ _ Hx).
  - intros [HL Hok]. destruct (Hall _ _ Hx) as [_ Hcl].
    destruct (Hcl _ HL) as (_ & gy & _ & Hy & _).
    by apply (IH (arrive L) gy).
Qed.

(** With good priorities the cost returned is below the cost of every walk
    to the goal whose cost is held exactly, and the frontier only runs dry
    when there is none. *)
Lemma a_star_loop_optimal fuel st kb' :
  good_priorities haversine binary64 kb goal criterio →
  kb_same kb kb' →
  inv1 kb start criterio st →
  inv2 kb goal criterio st →
  optimal_result kb start goal criterio
    (a_star_loop haversine binary64 fuel kb' goal criterio st).2.
Proof.
  intros Hadm Hkb Hi1 Hi2.
  apply (a_star_loop_ind
           (λ st, inv1 kb start criterio st ∧ inv2 kb goal criterio st)
           (optimal_result kb start goal criterio));
    try done.
  - intros st' [Hinv Hinv2] Hemp (ls & Hok & Hend).
    eapply (all_closed_no_walk st' (start, None) 0 ls); [|apply Hinv|done|done].
    intros y gy Hy.
    destruct (inv2_frontier _ _ _ _ Hinv2 _ _ Hy) as [(p & Hp & _)|?]; [|done].
    rewrite Hemp in Hp. by apply elem_of_nil in Hp.
  - intros st' p u pq f [Hinv Hinv2] Hpop Hg.
    destruct (popped_defined st' p u pq Hinv Hpop) as [gu Hgu].
    destruct (reconstruct f (parents st') (Some u) []) as [path|e|]; simpl; [|done..].
    unfold dict_get. rewrite Hgu. simpl. intros ls Hok Hend Hex.
    destruct (frontier_bound st' (start, None) 0 ls Hinv2) as (e & He & Hle);
      [apply Hinv|done|done|done|].
    assert ((p, u) ∈ openpq st') as Hin.
    { rewrite <- (heappop_perm _ _ _ Hpop). apply list_elem_of_here. }
    destruct (inv2_goal_prio _ _ _ _ Hinv2 _ _ Hin Hg) as (gu' & Hgu' & Hple).
    assert (gu' = gu) as -> by congruence.
    pose proof (heappop_least _ _ _ Hpop e He) as Hmin. simpl in Hmin.
    assert (p <= inject_Z (walk_cost kb criterio None ls))%Q as Hp
      by (eapply Qle_trans; [done|done]).
    destruct Hple as [Hple|[Ht Hple]].
    + rewrite Zle_Qle. by eapply Qle_trans.
    + specialize (Hex Ht). exfalso.
      assert (inject_Z (2 ^ 53) <= inject_Z (walk_cost kb criterio None ls))%Q as H
        by (by eapply Qle_trans).
      rewrite <- Zle_Qle in H. lia.
  - intros st' p u pq st'' [Hinv Hinv2] Hpop Hng E.
    destruct (iteration st' p u pq Hinv Hpop st'' Hng E) as (Hi & _ & Hopt).
    split; [done|]. by apply Hopt.
Qed.

(** ** The initial state *)

Lemma start_inv1 : inv1 kb start criterio (start_search start).
Proof.
  split; simpl.
  - by rewrite lookup_singleton_eq.
  - by rewrite lookup_singleton_eq.
  - intros x gx Hx. apply lookup_singleton_Some in Hx as [_ <-]. done.
  - intros x gx Hx. apply lookup_singleton_Some in Hx as [<- _].
    apply list_elem_of_here.
  - intros e He. apply list_elem_of_singleton in He as ->. simpl.
    rewrite lookup_singleton_eq. by eexists.
  - intros x gx Hx. apply lookup_singleton_Some in Hx as [<- _].
    exists []. constructor.
  - intros x gx Hx. apply lookup_singleton_Some in Hx as [<- <-].
    exists []. split; [done|]. split; [done|]. split; [done|].
    split; [apply NoDup_singleton|].
    intros k Hk. simpl in Hk. exists 0. rewrite take_nil. simpl.
    by rewrite lookup_singleton_eq.
Qed.

Lemma start_inv2 : inv2 kb goal criterio (start_search start).
Proof.
  split; simpl.
  - intros x gx Hx. apply lookup_singleton_Some in Hx as [<- <-].
    left. exists 0%Q. split; [apply list_elem_of_here|].
    intros gx ls. simpl. rewrite lookup_singleton_eq. intros [= <-] Hok Hend _.
    change 0%Q with (inject_Z 0). rewrite <- Zle_Qle.
    pose proof (walk_cost_nonneg kb criterio start None ls Hsup Hnn Hok). lia.
  - intros p x Hin Hx. apply list_elem_of_singleton in Hin as [= -> ->].
    exists 0. rewrite lookup_singleton_eq. split; [done|]. left. apply Qle_refl.
Qed.

End Search.

(** ** Hypotheses on concrete networks *)

Lemma links_of_in_map g u (L : Link) :
  L ∈ links_of g u →
  ∃ kv : string * list Link, kv ∈ map_to_list g ∧ L ∈ kv.2.
Proof.
  unfold links_of. intros HL.
  destruct (g !! u) as [ls|] eqn:E; simpl in HL; [|by apply elem_of_nil in HL].
  exists (u, ls). split; [by apply elem_of_map_to_list|done].
Qed.

Lemma all_links_spec kb (P : Link → bool) :
  all_links kb P = true →
  ∀ u (L : Link), L ∈ links_of (graph kb) u → P L = true.
Proof.
  unfold all_links. rewrite forallb_forall. intros Hall u L HL.
  destruct (links_of_in_map _ _ _ HL) as (kv & Hkv & HLkv).
  apply list_elem_of_In in Hkv. specialize (Hall _ Hkv).
  rewrite forallb_forall in Hall. by apply Hall, list_elem_of_In.
Qed.

Lemma nonneg_costsb_spec kb : nonneg_costsb kb = true → nonneg_costs kb.
Proof.
  unfold nonneg_costsb. rewrite andb_true_iff, Z.leb_le.
  intros [Hp Hall]. split; [done|]. intros u L HL.
  by apply Z.leb_le, (all_links_spec _ _ Hall u).
Qed.

Lemma has_coordsb_spec kb goal : has_coordsb kb goal = true → has_coords kb goal.
Proof.
  unfold has_coordsb. rewrite andb_true_iff, bool_decide_eq_true.
  intros [Hg Hall]. split; [done|]. intros u L HL.
  by eapply bool_decide_eq_true, (all_links_spec _ _ Hall u).
Qed.

Lemma closed_under_walk kb (S : list string) u ls :
  closed_under kb S = true → u ∈ S →
  walk_ok (graph kb) u ls → walk_end u ls ∈ S.
Proof.
  unfold closed_under. rewrite forallb_forall. intros Hcl.
  revert u. induction ls as [|L ls IH]; intros u Hu; simpl; [done|].
  intros [HL Hok]. apply IH; [|done].
  apply list_elem_of_In in Hu. specialize (Hcl _ Hu).
  rewrite forallb_forall in Hcl.
  eapply bool_decide_eq_true, Hcl. by apply list_elem_of_In.
Qed.

Lemma closed_under_unreachable kb (S : list string) start goal :
  closed_under kb S = true → start ∈ S → goal ∉ S → ¬ reachable kb start goal.
Proof.
  intros Hcl Hs Hg (ls & Hok & Hend). apply Hg. rewrite <- Hend.
  by eapply closed_under_walk.
Qed.

Lemma no_link_unreachable kb start goal :
  start ≠ goal →
  (∀ u (L : Link), L ∈ links_of (graph kb) u → L.1.1 ≠ goal) →
  ¬ reachable kb start goal.
Proof.
  intros Hne Hno (ls & Hok & Hend).
  assert (∀ u, walk_ok (graph kb) u ls → walk_end u ls = goal → u = goal) as H.
  { clear Hok Hend. induction ls as [|L ls IH]; intros u; simpl; [done|].
    intros [HL Hok] Hend. exfalso. eapply Hno; [done|]. by apply IH. }
  by apply Hne, H.
Qed.

Lemma walk_states_universe g (s : State) start (ls : list Link) :
  s ∈ universe g start →
  walk_ok g s.1 ls →
  ∀ x, x ∈ walk_states s ls → x ∈ universe g start.
Proof.
  revert s. induction ls as [|L ls IH]; intros s Hs Hok x Hx; simpl in *.
  - by apply list_elem_of_singleton in Hx as ->.
  - destruct Hok as [HL Hok]. apply elem_of_cons in Hx as [->|Hx]; [done|].
    apply (IH (arrive L)); [by eapply arrive_in_universe|done|done].
Qed.

Lemma walk_cost_tiempo_le kb (M : Z) u l (ls : list Link) :
  0 ≤ transfer_penalty (data kb) →
  (∀ v (L : Link), L ∈ links_of (graph kb) v →
     L.2 + transfer_penalty (data kb) ≤ M) →
  walk_ok (graph kb) u ls →
  walk_cost kb "tiempo" l ls ≤ Z.of_nat (length ls) * M.
Proof.
  intros Hp HM. revert u l. induction ls as [|L ls IH]; intros u l; [simpl; lia|].
  intros [HL Hok]. cbn [walk_cost length].
  specialize (IH _ (Some L.1.2) Hok). specialize (HM _ _ HL).
  unfold stepz, step_for, step_cost. simpl.
  destruct (is_transfer l L.1.2); lia.
Qed.

Lemma within_float_rangeb_spec kb start (M : Z) :
  nonneg_costs kb →
  within_float_rangeb kb start M = true → within_float_range kb start.
Proof.
  intros [Hp Hnn]. unfold within_float_rangeb.
  rewrite andb_true_iff, Z.ltb_lt. intros [Hall Hlim] ls Hok Hnd.
  assert (∀ v (L : Link), L ∈ links_of (graph kb) v →
            L.2 + transfer_penalty (data kb) ≤ M) as HM.
  { intros v L HL. by apply Z.leb_le, (all_links_spec _ _ Hall v). }
  pose proof (walk_cost_tiempo_le kb M start None ls Hp HM Hok) as Hle.
  assert (length (walk_states (start, None) ls)
          ≤ length (universe (graph kb) start))%nat as Hlen.
  { apply submseteq_length, NoDup_submseteq; [done|].
    apply walk_states_universe; [apply list_elem_of_here|done]. }
  rewrite walk_states_length in Hlen.
  destruct ls as [|L ls]; [done|].
  destruct Hok as [HL _]. specialize (HM _ _ HL). specialize (Hnn _ _ HL).
  simpl length in *. nia.
Qed.

(** ** Priorities *)

Lemma priority_total haversine binary64 kb goal criterio (g : Z) u (L : Link) :
  (criterio = "tiempo" →
   has_coords kb goal ∧ distance_defined haversine kb goal
   ∧ Z.abs g < float_limit) →
  L ∈ links_of (graph kb) u →
  ∃ p, priority haversine binary64 kb goal criterio g L.1.1 = Returns p.
Proof.
  intros Hc HL. destruct (decide (criterio = "tiempo")) as [->|Hne].
  - destruct (Hc eq_refl) as ([[cg Hg] Hall] & Hd & Hlim).
    destruct (Hall _ _ HL) as [cv Hv].
    destruct (Hd _ _ _ _ HL Hv Hg) as [km Hkm].
    eexists. by eapply priority_tiempo.
  - eexists. by apply priority_other.
Qed.

Lemma priority_value haversine binary64 kb goal (g : Z) v p :
  priority haversine binary64 kb goal "tiempo" g v = Returns p →
  ∃ hv, h haversine kb goal v = Returns hv
    ∧ Z.abs g < float_limit
    ∧ p = (binary64 (binary64 (inject_Z g) + hv))%Q.
Proof.
  unfold priority, int_add_float. simpl.
  destruct (h haversine kb goal v) as [hv| |]; simpl; [|done..].
  destruct (Z.abs g <? float_limit) eqn:E; [|done].
  intros [= <-]. exists hv. split; [done|]. split; [by apply Z.ltb_lt|done].
Qed.

(** What makes the computation of a priority raise: under tiempo only, a
    station without coordinates, an exception of [haversine], or a cost
    that [float] cannot hold. *)
Lemma priority_raises haversine binary64 kb goal criterio (g : Z) v e :
  priority haversine binary64 kb goal criterio g v = Raises e →
  criterio = "tiempo"
  ∧ ((e = KeyError
      ∧ (stations (data kb) !! v = None ∨ stations (data kb) !! goal = None))
     ∨ (∃ cv cg fe, stations (data kb) !! v = Some cv
          ∧ stations (data kb) !! goal = Some cg
          ∧ haversine (lat cv, lon cv) (lat cg, lon cg) = inl fe
          ∧ Raises e = float_raise (A := Q) fe)
     ∨ (e = OverflowError ∧ float_limit ≤ Z.abs g)).
Proof.
  unfold priority, h, coords, int_add_float.
  destruct (String.eqb criterio "tiempo") eqn:E; [|done].
  apply String.eqb_eq in E. intros H. split; [done|].
  destruct (stations (data kb) !! v) as [cv|]; simpl in H;
    [|injection H as <-; left; split; [done|by left]].
  destruct (stations (data kb) !! goal) as [cg|]; simpl in H;
    [|injection H as <-; left; split; [done|by right]].
  destruct (haversine _ _) as [fe|km] eqn:Ed; simpl in H.
  - right. left. exists cv, cg, fe. split; [done|]. split; [done|].
    split; [done|]. by rewrite <- H.
  - destruct (Z.abs g <? float_limit) eqn:El; [done|].
    injection H as <-. right. right. split; [done|]. by apply Z.ltb_ge.
Qed.

Lemma good_priorities_other haversine binary64 kb goal criterio :
  supported criterio → criterio ≠ "tiempo" →
  good_priorities haversine binary64 kb goal criterio.
Proof.
  intros Hs Hne g v p Hg. rewrite priority_other by done. intros [= <-].
  rewrite Z.add_0_r. split.
  - intros l ls Hok Hend _. rewrite <- Zle_Qle.
    pose proof (walk_cost_nonneg kb criterio v l ls Hs (λ H, False_ind _ (Hne H)) Hok).
    lia.
  - intros _. left. apply Qle_refl.
Qed.

Lemma good_priorities_tiempo haversine binary64 kb goal :
  nonneg_costs kb →
  admissible haversine kb goal →
  rounding binary64 →
  good_priorities haversine binary64 kb goal "tiempo".
Proof.
  intros Hnn [Hadm Hgoal] [Hmono Hexact] g v p Hg Hp.
  apply priority_value in Hp as (hv & Hh & Hlim & ->).
  assert (binary64 (inject_Z (2 ^ 53)) == inject_Z (2 ^ 53))%Q as Etop
    by (apply Hexact; lia).
  split.
  - intros l ls Hok Hend Hex. specialize (Hex eq_refl).
    pose proof (walk_cost_nonneg kb "tiempo" v l ls (or_introl eq_refl)
                  (λ _, Hnn) Hok) as Hc.
    pose proof (Hadm v hv l ls Hh Hok Hend) as Hhv.
    assert (binary64 (inject_Z g) == inject_Z g)%Q as Eg by (apply Hexact; lia).
    assert (binary64 (inject_Z (g + walk_cost kb "tiempo" l ls))
            == inject_Z (g + walk_cost kb "tiempo" l ls))%Q as Ec
      by (apply Hexact; lia).
    rewrite <- Ec. apply Hmono.
    rewrite Eg, inject_Z_plus. by apply Qplus_le_r.
  - intros ->. pose proof (Hgoal hv Hh) as Hhv.
    destruct (Z.lt_ge_cases g (2 ^ 53)) as [Hsmall|Hbig].
    + left.
      assert (binary64 (inject_Z g) == inject_Z g)%Q as Eg by (apply Hexact; lia).
      rewrite <- Eg at 1. apply Hmono.
      rewrite Eg. rewrite <- (Qplus_0_r (inject_Z g)) at 1.
      by apply Qplus_le_r.
    + right. split; [done|]. rewrite <- Etop. apply Hmono.
      rewrite <- (Qplus_0_r (inject_Z (2 ^ 53))).
      apply Qplus_le_compat; [|done].
      rewrite <- Etop. apply Hmono. by rewrite <- Zle_Qle.
Qed.

Lemma distance_defined_colocated kb goal : distance_defined colocated kb goal.
Proof. intros u L cv cg _ _ _. by exists 0%Q. Qed.

Lemma rounding_no_rounding : rounding no_rounding.
Proof. split; [by intros x y|]. intros z _. apply Qeq_refl. Qed.

Lemma admissible_colocated kb goal :
  nonneg_costs kb → admissible colocated kb goal.
Proof.
  intros Hnn.
  assert (∀ v hv, h colocated kb goal v = Returns hv → hv = (0 * 2)%Q) as Hz.
  { intros v hv. unfold h, coords.
    destruct (stations (data kb) !! v); simpl; [|done].
    destruct (stations (data kb) !! goal); simpl; [|done].
    by intros [= <-]. }
  split.
  - intros v hv l ls Hh Hok Hend. rewrite (Hz _ _ Hh).
    change (0 * 2)%Q with (inject_Z 0). rewrite <- Zle_Qle.
    eapply walk_cost_nonneg; [by left|done|done].
  - intros hv Hh. rewrite (Hz _ _ Hh). done.
Qed.

(** ** The search as a whole *)

Section Whole.
Variable haversine : Q * Q → Q * Q → float_exn + Q.
Variable binary64 : Q → Q.
Variable kb : KnowledgeBase.
Variables start goal criterio : string.
Hypothesis Hsup : supported criterio.
Hypothesis Hnn : criterio = "tiempo" → nonneg_costs kb.

(** The result no longer depends on the fuel once there is enough of it,
    and it is a returned value or a raised exception. *)
Lemma a_star_settles :
  ∃ fuel0 r, r ≠ OutOfFuel
    ∧ sound_result haversine binary64 kb start goal criterio r
    ∧ (good_priorities haversine binary64 kb goal criterio →
       optimal_result kb start goal criterio r)
    ∧ ∀ fuel, (fuel0 ≤ fuel)%nat →
        (a_star haversine binary64 fuel kb start goal criterio).2 = r.
Proof.
  pose proof (start_inv1 kb start criterio) as Hi1.
  pose proof (start_inv2 kb start goal criterio Hsup Hnn) as Hi2.
  destruct (a_star_loop_terminates haversine binary64 kb start goal criterio Hsup Hnn
              _ _ (start_search start) kb (kb_same_refl kb) Hi1
              (Nat.le_refl _) (Nat.le_refl _)) as (fuel0 & r & Hr & Hrun).
  exists fuel0, r. split; [done|].
  unfold a_star. rewrite <- (Hrun fuel0 (Nat.le_refl _)).
  split; [|split].
  - by apply (a_star_loop_sound haversine binary64 kb start goal criterio Hsup Hnn).
  - intros Hadm.
    by apply (a_star_loop_optimal haversine binary64 kb start goal criterio Hsup Hnn).
  - intros fuel Hf. rewrite (Hrun fuel0 (Nat.le_refl _)). by apply Hrun.
Qed.

(** With coordinates, distances and costs within range nothing raises. *)
Lemma sound_no_raise e :
  (criterio = "tiempo" → heuristic_computable haversine kb start goal) →
  ¬ sound_result haversine binary64 kb start goal criterio (Raises e).
Proof.
  intros Hc (wl & L & Hok & Hnd & Hp).
  pose proof (walk_cost_nonneg kb criterio start None _ Hsup Hnn Hok) as H0.
  apply walk_ok_app in Hok as Hok'. destruct Hok' as [_ [HL _]].
  destruct (priority_total haversine binary64 kb goal criterio
              (walk_cost kb criterio None (wl ++ [L])) (walk_end start wl) L)
    as [p Hp']; [|done|congruence].
  intros ->. destruct (Hc eq_refl) as (Hco & Hd & Hr).
  split; [done|]. split; [done|]. specialize (Hr _ Hok Hnd). lia.
Qed.

Lemma a_star_no_path :
  (criterio = "tiempo" → heuristic_computable haversine kb start goal) →
  ¬ reachable kb start goal →
  ∃ fuel0, ∀ fuel, (fuel0 ≤ fuel)%nat →
    (a_star haversine binary64 fuel kb start goal criterio).2
    = Returns (None, Infinity).
Proof.
  intros Hc Hun. destruct a_star_settles as (fuel0 & r & Hr & Hs & _ & Hrun).
  exists fuel0. intros fuel Hf. rewrite (Hrun fuel Hf).
  destruct r as [[[path|] [c|]]|e|]; simpl in Hs; try done.
  - destruct Hs as (ls & Hok & Hend & _). exfalso. apply Hun. by exists ls.
  - by apply sound_no_raise in Hs.
Qed.

Lemma a_star_best_path :
  (criterio = "tiempo" → heuristic_computable haversine kb start goal) →
  good_priorities haversine binary64 kb goal criterio →
  (criterio = "tiempo" →
   ∃ ls0, walk_ok (graph kb) start ls0 ∧ walk_end start ls0 = goal
     ∧ walk_cost kb criterio None ls0 < 2 ^ 53) →
  reachable kb start goal →
  ∃ fuel0 ls,
    walk_ok (graph kb) start ls
    ∧ walk_end start ls = goal
    ∧ (∀ ls', walk_ok (graph kb) start ls' → walk_end start ls' = goal →
         walk_cost kb criterio None ls ≤ walk_cost kb criterio None ls')
    ∧ ∀ fuel, (fuel0 ≤ fuel)%nat →
        (a_star haversine binary64 fuel kb start goal criterio).2
        = Returns (Some (walk_states (start, None) ls),
                   Fin (walk_cost kb criterio None ls)).
Proof.
  intros Hc Hadm Hsmall Hreach.
  destruct a_star_settles as (fuel0 & r & Hr & Hs & Ho & Hrun).
  specialize (Ho Hadm).
  destruct r as [[[path|] [c|]]|e|]; simpl in Hs, Ho; try done.
  - destruct Hs as (ls & Hok & Hend & -> & Hle).
    assert (∀ ls', walk_ok (graph kb) start ls' → walk_end start ls' = goal →
              c ≤ walk_cost kb criterio None ls') as Hbest.
    { intros ls' Hok' Hend'.
      destruct (decide (criterio = "tiempo")) as [Ht|Hnt].
      - destruct (Hsmall Ht) as (ls0 & Hok0 & Hend0 & Hlt0).
        pose proof (Ho ls0 Hok0 Hend0 (λ _, Hlt0)) as H0.
        destruct (Z.lt_ge_cases (walk_cost kb criterio None ls') (2 ^ 53)) as [H|H].
        + apply Ho; [done|done|]. by intros _.
        + lia.
      - apply Ho; [done|done|]. by intros Ht. }
    pose proof (Hbest ls Hok Hend) as Hge.
    assert (c = walk_cost kb criterio None ls) as -> by lia.
    exists fuel0, ls. done.
  - by apply sound_no_raise in Hs.
Qed.

End Whole.

(** ** Termination *)

Lemma relax_reinserts haversine binary64 kb goal criterio u l st (L : Link) st' :
  relax haversine binary64 kb goal criterio u l st L = Returns st' →
  st' = st
  ∨ ∃ p g', openpq st' = (p, arrive L) :: openpq st
      ∧ g_cost st' !! arrive L = Some g'
      ∧ ∀ g, g_cost st !! arrive L = Some g → g' < g.
Proof.
  destruct L as [[v line] t]. unfold relax.
  destruct (step_for kb criterio t (is_transfer l line)) as [step| |]; simpl; [|done..].
  destruct (dict_get (g_cost st) (u, l)) as [gu| |]; simpl; [|done..].
  destruct (lt_get_inf _ _) eqn:Hlt; [|by intros [= <-]; left].
  destruct (priority haversine binary64 kb goal criterio _ v) as [p| |];
    simpl; [|done..].
  intros [= <-]. right. eexists _, _. simpl. split; [done|].
  split; [by rewrite lookup_insert_eq|].
  intros g Hg. unfold arrive in Hg. simpl in Hg. rewrite Hg in Hlt.
  by apply Z.ltb_lt.
Qed.

(** C10: on a network whose travel times and transfer penalty are not
    negative, under each of the three criteria, the search terminates: from
    some amount of fuel on it gives one and the same result, a returned
    value or an exception, also when steps cost 0 as under transbordos; and
    a relaxation puts a state back into the frontier only when the cost
    recorded for that state strictly decreases. *)
Theorem a_star_terminates (haversine : Q * Q → Q * Q → float_exn + Q)
    (binary64 : Q → Q) (kb : KnowledgeBase)
    (start goal criterio : string) :
  supported criterio →
  nonneg_costs kb →
  (∃ fuel0 r, r ≠ OutOfFuel
     ∧ ∀ fuel, (fuel0 ≤ fuel)%nat →
         (a_star haversine binary64 fuel kb start goal criterio).2 = r)
  ∧ (∀ u l st (L : Link) st',
       relax haversine binary64 kb goal criterio u l st L = Returns st' →
       st' = st
       ∨ ∃ p g', openpq st' = (p, arrive L) :: openpq st
           ∧ g_cost st' !! arrive L = Some g'
           ∧ ∀ g, g_cost st !! arrive L = Some g → g' < g).
Proof.
  intros Hsup Hnn. split; [|apply relax_reinserts].
  destruct (a_star_settles haversine binary64 kb start goal criterio Hsup (λ _, Hnn))
    as (fuel0 & r & Hr & _ & _ & Hrun).
  by exists fuel0, r.
Qed.

Lemma a_star_terminates_witness :
  (∃ fuel0 r, r ≠ OutOfFuel
     ∧ ∀ fuel, (fuel0 ≤ fuel)%nat →
         (a_star colocated no_rounding fuel (build one_line) "A" "C" "transbordos").2 = r)
  ∧ (∀ u l st (L : Link) st',
       relax colocated no_rounding (build one_line) "C" "transbordos" u l st L = Returns st' →
       st' = st
       ∨ ∃ p g', openpq st' = (p, arrive L) :: openpq st
           ∧ g_cost st' !! arrive L = Some g'
           ∧ ∀ g, g_cost st !! arrive L = Some g → g' < g).
Proof.
  apply a_star_terminates.
  - right. right. reflexivity.
  - apply nonneg_costsb_spec. vm_compute. reflexivity.
Defined.

(** ** Unreachable goals *)

(** The first relaxation of a search: when the priority of the first link
    of the start raises, the search does. *)
Lemma a_star_first_relax haversine binary64 kb start goal criterio
    (L : Link) ls e fuel :
  supported criterio →
  start ≠ goal →
  links_of (graph kb) start = L :: ls →
  priority haversine binary64 kb goal criterio
    (0 + stepz kb criterio None L) L.1.1 = Raises e →
  (a_star haversine binary64 (S fuel) kb start goal criterio).2 = Raises e.
Proof.
  intros Hsup Hne Hl Hp. unfold a_star.
  erewrite a_star_loop_relax; [|reflexivity|done].
  rewrite (relax_all_data haversine binary64 kb) by done.
  change (neighbors kb start).1 with (links_of (graph kb) start).
  rewrite Hl. cbn [relax_all].
  match goal with
  | |- context [relax _ _ _ _ _ _ _ ?st _] =>
      destruct (relax_cases haversine binary64 kb goal criterio Hsup
                  (start, None) st L 0)
        as [[Hlt _]|[_ [(p & Hh & _)|(e' & Hh & Hr)]]]
  end.
  - simpl. by rewrite lookup_singleton_eq.
  - simpl in Hlt. rewrite lookup_singleton_ne in Hlt; [done|].
    apply not_eq_sym. unfold arrive. congruence.
  - cbn [snd] in Hh. congruence.
  - cbn [fst snd] in Hr, Hh. rewrite Hr. simpl. congruence.
Qed.

Lemma priority_no_coords haversine binary64 kb goal (g : Z) v :
  stations (data kb) !! v = None ∨ stations (data kb) !! goal = None →
  priority haversine binary64 kb goal "tiempo" g v = Raises KeyError.
Proof.
  intros H. unfold priority, h, coords. simpl.
  destruct (stations (data kb) !! v); simpl; [|done].
  destruct H as [H|H]; [done|]. by rewrite H.
Qed.




(** ** Optimality *)

Lemma entry_ltb_le (a b : entry) :
  (a.1 <= b.1)%Q → state_ltb a.2 b.2 = true → entry_ltb a b = true.
Proof.
  intros Hle Hs. unfold entry_ltb.
  destruct (Qcompare_spec a.1 b.1) as [E|E|E]; [done|done|].
  exfalso. apply (Qlt_irrefl b.1). by eapply Qlt_le_trans.
Qed.

(** C1, counterexample: on the network with a direct link S-G of 10 minutes
    and a detour S-X-G of 1+1 minutes on the same line, with X one degree of
    latitude away from G, a walk of cost 2 exists, and the search under
    tiempo returns the direct link with cost 10: with 111 km for the degree
    of latitude, and with every distance function that gives 0 from G to
    itself and more than 4.5 km from X to G, under every rounding that
    keeps the order and the small integers. *)
Lemma a_star_tiempo_suboptimal :
  walk_ok (graph (build detour)) "S" [("X", "L1", 1); ("G", "L1", 1)]
  ∧ walk_end "S" [("X", "L1", 1); ("G", "L1", 1) : Link] = "G"
  ∧ walk_cost (build detour) "tiempo" None [("X", "L1", 1); ("G", "L1", 1)] = 2
  ∧ (a_star meridian_km no_rounding 4 (build detour) "S" "G" "tiempo").2
    = Returns (Some [("S", None); ("G", Some "L1")], Fin 10)
  ∧ ∀ (haversine : Q * Q → Q * Q → float_exn + Q) (binary64 : Q → Q) (d0 dx : Q),
      rounding binary64 →
      haversine (1, 0)%Q (1, 0)%Q = inr d0 → (d0 == 0)%Q →
      haversine (0, 0)%Q (1, 0)%Q = inr dx → (9 < dx * 2)%Q →
      ∀ fuel,
        (a_star haversine binary64 (4 + fuel) (build detour) "S" "G" "tiempo").2
        = Returns (Some [("S", None); ("G", Some "L1")], Fin 10).
Proof.
  split.
  { simpl. split; [|split; [|done]].
    - replace (links_of _ "S") with [("G", "L1", 10) : Link; ("X", "L1", 1)] by by_eval.
      apply list_elem_of_further, list_elem_of_here.
    - replace (links_of _ "X") with [("S", "L1", 1) : Link; ("G", "L1", 1)] by by_eval.
      apply list_elem_of_further, list_elem_of_here. }
  split; [done|]. split; [by_eval|]. split; [by_eval|].
  intros haversine binary64 d0 dx Hr Hgg Hd0 Hxg Hdx fuel.
  pose proof Hr as [Hmono Hexact].
  unfold a_star. change (4 + fuel)%nat with (S (S (2 + fuel)))%nat.
  (* pop (S, None), push (G, L1) and (X, L1) *)
  erewrite a_star_loop_relax_to; [|reflexivity|done|eexists; by_eval|by_eval|];
    [|eapply relax_all_cons;
        [eapply relax_push;
           [by_eval|on_state|on_state
           |eapply priority_tiempo; [by_eval|by_eval|exact Hgg|by_eval]]|];
      eapply relax_all_cons;
        [eapply relax_push;
           [by_eval|on_state|on_state
           |eapply priority_tiempo; [by_eval|by_eval|exact Hxg|by_eval]]
        |reflexivity]].
  (* (G, L1) leaves the frontier before (X, L1) *)
  erewrite a_star_loop_goal; [| |reflexivity].
  2: { apply heappop_two, entry_ltb_le; [|by_eval]. cbn [fst].
       assert (binary64 (inject_Z 10) == inject_Z 10)%Q as E10 by (by apply Hexact).
       assert (binary64 (inject_Z 1) == inject_Z 1)%Q as E1 by (by apply Hexact).
       apply Qle_trans with (y := binary64 (inject_Z 10)).
       - apply Hmono. change (inject_Z (0 + 10)) with (inject_Z 10).
         rewrite E10, Hd0. done.
       - apply Hmono. change (inject_Z (0 + 1)) with (inject_Z 1).
         rewrite E1. apply Qlt_le_weak.
         apply Qle_lt_trans with (y := (inject_Z 1 + 9)%Q); [done|].
         by apply Qplus_lt_r. }
  cbn [parents g_cost pushed popped start_search].
  change (2 + fuel)%nat with (S (S fuel)).
  erewrite reconstruct_step; [|by_eval].
  erewrite reconstruct_step; [|by_eval].
  rewrite reconstruct_None. by_eval.
Qed.

(** C1, amended: for a reachable goal the search returns the states of a
    walk from the start to the goal together with the cost of that walk, and
    no walk from the start to the goal costs less: under saltos and
    transbordos on every network; under tiempo on a network with travel
    times and penalty not negative whose priorities can all be computed, on
    which the heuristic never exceeds the cost of a walk to the goal and is
    not negative at the goal, when rounding keeps the order and the integers
    up to 2^53, and some walk to the goal costs less than 2^53. *)
Theorem a_star_optimal (haversine : Q * Q → Q * Q → float_exn + Q)
    (binary64 : Q → Q) (kb : KnowledgeBase)
    (start goal criterio : string) :
  supported criterio →
  (criterio = "tiempo" →
   nonneg_costs kb
   ∧ heuristic_computable haversine kb start goal
   ∧ admissible haversine kb goal
   ∧ rounding binary64
   ∧ ∃ ls0, walk_ok (graph kb) start ls0 ∧ walk_end start ls0 = goal
       ∧ walk_cost kb "tiempo" None ls0 < 2 ^ 53) →
  reachable kb start goal →
  ∃ fuel0 ls,
    walk_ok (graph kb) start ls
    ∧ walk_end start ls = goal
    ∧ (∀ ls', walk_ok (graph kb) start ls' → walk_end start ls' = goal →
         walk_cost kb criterio None ls ≤ walk_cost kb criterio None ls')
    ∧ ∀ fuel, (fuel0 ≤ fuel)%nat →
        (a_star haversine binary64 fuel kb start goal criterio).2
        = Returns (Some (walk_states (start, None) ls),
                   Fin (walk_cost kb criterio None ls)).
Proof.
  intros Hsup Hwf Hreach.
  apply a_star_best_path; [done| | | | |done].
  - intros Ht. by destruct (Hwf Ht).
  - intros Ht. by destruct (Hwf Ht) as (_ & ? & _).
  - destruct (decide (criterio = "tiempo")) as [->|Hne].
    + destruct (Hwf eq_refl) as (Hnn & _ & Hadm & Hr & _).
      by apply good_priorities_tiempo.
    + by apply good_priorities_other.
  - intros ->. by destruct (Hwf eq_refl) as (_ & _ & _ & _ & ?).
Qed.

Lemma a_star_optimal_witness :
  ∃ fuel0 ls,
    walk_ok (graph (build plaza)) "S" ls
    ∧ walk_end "S" ls = "G"
    ∧ (∀ ls', walk_ok (graph (build plaza)) "S" ls' → walk_end "S" ls' = "G" →
         walk_cost (build plaza) "tiempo" None ls
         ≤ walk_cost (build plaza) "tiempo" None ls')
    ∧ ∀ fuel, (fuel0 ≤ fuel)%nat →
        (a_star colocated no_rounding fuel (build plaza) "S" "G" "tiempo").2
        = Returns (Some (walk_states ("S", None) ls),
                   Fin (walk_cost (build plaza) "tiempo" None ls)).
Proof.
  assert (walk_ok (graph (build plaza)) "S" [("G", "L1", 10)]) as Hok.
  { simpl. split; [|exact I].
    replace (links_of _ "S") with [("G", "L1", 10) : Link; ("X", "L1", 1)]
      by (vm_compute; reflexivity).
    apply list_elem_of_here. }
  assert (nonneg_costs (build plaza)) as Hnn
    by (apply nonneg_costsb_spec; vm_compute; reflexivity).
  apply a_star_optimal.
  - left. reflexivity.
  - intros _. split; [done|]. split; [|split; [|split]].
    + split; [|split].
      * apply has_coordsb_spec. vm_compute. reflexivity.
      * apply distance_defined_colocated.
      * apply (within_float_rangeb_spec _ _ 13 Hnn). vm_compute. reflexivity.
    + by apply admissible_colocated.
    + apply rounding_no_rounding.
    + exists [("G", "L1", 10)]. split; [done|]. split; [reflexivity|].
      vm_compute. reflexivity.
  - exists [("G", "L1", 10)]. split; [done|reflexivity].
Defined.

(** ** Unknown stops *)

(** C6, counterexample: on the network A-B-C, the search under saltos for
    the goal Z, which is no station of the network, returns the no-path
    pair. *)
Lemma a_star_unknown_goal_no_path :
  stations one_line !! "Z" = None
  ∧ graph (build one_line) !! "Z" = None
  ∧ (a_star colocated no_rounding 7 (build one_line) "A" "Z" "saltos").2
    = Returns (None, Infinity).
Proof. repeat split; by_eval. Qed.

Lemma a_star_first_relax_raises haversine binary64 kb start goal fuel :
  stations (data kb) !! goal = None →
  start ≠ goal →
  links_of (graph kb) start ≠ [] →
  (a_star haversine binary64 (S fuel) kb start goal "tiempo").2 = Raises KeyError.
Proof.
  intros Hg Hne Hl.
  destruct (links_of (graph kb) start) as [|L ls] eqn:E; [done|].
  eapply a_star_first_relax; [by left|done|done|].
  apply priority_no_coords. by right.
Qed.

Lemma a_star_isolated_start haversine binary64 kb start goal criterio fuel :
  start ≠ goal →
  links_of (graph kb) start = [] →
  (a_star haversine binary64 (S (S fuel)) kb start goal criterio).2 = Returns (None, Infinity).
Proof.
  intros Hne Hl. unfold a_star.
  erewrite a_star_loop_relax; [|reflexivity|done].
  rewrite (relax_all_data haversine binary64 kb) by done.
  change (neighbors kb start).1 with (links_of (graph kb) start).
  rewrite Hl. cbn [relax_all]. by rewrite a_star_loop_empty.
Qed.

(** C6, amended: [a_star] does not look the two stops up before it
    searches.  For a start different from the goal: under tiempo, a goal
    without coordinates makes the search raise [KeyError] at its first
    relaxation, when the start has a link; under saltos and transbordos, a
    goal that no link leads to yields the no-path pair; and under every
    criterion a start without links yields the no-path pair. *)
Theorem a_star_unknown_stop (haversine : Q * Q → Q * Q → float_exn + Q)
    (binary64 : Q → Q) (kb : KnowledgeBase)
    (start goal criterio : string) :
  supported criterio →
  start ≠ goal →
  (criterio = "tiempo" →
   stations (data kb) !! goal = None →
   links_of (graph kb) start ≠ [] →
   ∀ fuel, (a_star haversine binary64 (S fuel) kb start goal criterio).2 = Raises KeyError)
  ∧ (criterio ≠ "tiempo" →
     (∀ u (L : Link), L ∈ links_of (graph kb) u → L.1.1 ≠ goal) →
     ∃ fuel0, ∀ fuel, (fuel0 ≤ fuel)%nat →
       (a_star haversine binary64 fuel kb start goal criterio).2 = Returns (None, Infinity))
  ∧ (links_of (graph kb) start = [] →
     ∀ fuel,
       (a_star haversine binary64 (S (S fuel)) kb start goal criterio).2
       = Returns (None, Infinity)).
Proof.
  intros Hsup Hne. split; [|split].
  - intros -> Hg Hl fuel. by apply a_star_first_relax_raises.
  - intros Hnt Hno. apply a_star_no_path; [done|done|done|].
    by apply no_link_unreachable.
  - intros Hl fuel. by apply a_star_isolated_start.
Qed.

Lemma a_star_unknown_stop_witness :
  (∀ fuel,
     (a_star colocated no_rounding (S fuel) (build one_line) "A" "Z" "tiempo").2
     = Raises KeyError)
  ∧ (∃ fuel0, ∀ fuel, (fuel0 ≤ fuel)%nat →
       (a_star colocated no_rounding fuel (build one_line) "A" "Z" "saltos").2
       = Returns (None, Infinity))
  ∧ (∀ fuel,
       (a_star colocated no_rounding (S (S fuel)) (build one_line) "Z" "A" "transbordos").2
       = Returns (None, Infinity)).
Proof.
  split; [|split].
  - apply (a_star_unknown_stop colocated no_rounding (build one_line) "A" "Z" "tiempo").
    + left. reflexivity.
    + discriminate.
    + reflexivity.
    + vm_compute. reflexivity.
    + vm_compute. discriminate.
  - apply (a_star_unknown_stop colocated no_rounding (build one_line) "A" "Z" "saltos").
    + right. left. reflexivity.
    + discriminate.
    + discriminate.
    + intros u L HL.
      pose proof (all_links_spec (build one_line)
                    (λ L, negb (String.eqb L.1.1 "Z")) eq_refl u L HL) as H.
      simpl in H. apply negb_true_iff in H. by apply String.eqb_neq.
  - apply (a_star_unknown_stop colocated no_rounding (build one_line) "Z" "A" "transbordos").
    + right. right. reflexivity.
    + discriminate.
    + vm_compute. reflexivity.
Defined.

(** ** The knowledge base is only read *)

Lemma dd_touch_known {V} (dflt : V) (m : gmap string V) k :
  is_Some (m !! k) → dd_touch dflt m k = m.
Proof. intros [v Hv]. unfold dd_touch. by rewrite Hv. Qed.

Lemma default_dd_touch {V} (dflt : V) (m : gmap string V) k s :
  default dflt (dd_touch dflt m k !! s) = default dflt (m !! s).
Proof.
  unfold dd_touch. destruct (m !! k) eqn:E; [done|].
  destruct (decide (k = s)) as [<-|Hne].
  - by rewrite lookup_insert_eq, E.
  - by rewrite lookup_insert_ne.
Qed.

Lemma is_interchange_known kb s :
  is_Some (lines_by_station kb !! s) → (is_interchange kb s).2 = kb.
Proof.
  intros H. unfold is_interchange. simpl. rewrite dd_touch_known by done.
  by destruct kb.
Qed.

Lemma a_star_loop_kb_same haversine binary64 fuel kb goal criterio st :
  kb_same kb (a_star_loop haversine binary64 fuel kb goal criterio st).1.
Proof.
  revert kb st. induction fuel as [|fuel IH]; intros kb st; simpl.
  - apply kb_same_refl.
  - destruct (heappop (openpq st)) as [[[p [u l]] pq]|]; [|apply kb_same_refl].
    destruct (String.eqb u goal); [apply kb_same_refl|].
    destruct (relax_all _ _ _ _ _ _ _ _ _) as [st'| |]; simpl.
    + eapply kb_same_trans; [apply (kb_same_neighbors kb u)|apply IH].
    + apply (kb_same_neighbors kb u).
    + apply (kb_same_neighbors kb u).
Qed.

Lemma relax_all_openpq haversine binary64 kb goal criterio u l (ls : list Link) st st' :
  relax_all haversine binary64 kb goal criterio u l st ls = Returns st' →
  ∀ e : entry, e ∈ openpq st' →
    e ∈ openpq st ∨ ∃ L : Link, L ∈ ls ∧ e.2 = arrive L.
Proof.
  revert st. induction ls as [|L ls IH]; intros st; simpl.
  - intros [= <-] e He. by left.
  - destruct (relax haversine binary64 kb goal criterio u l st L) as [st1| |] eqn:E;
      simpl; [|done..].
    intros Hall e He.
    destruct (IH _ Hall e He) as [H1|(L' & HL' & HeL)].
    + destruct (relax_reinserts _ _ _ _ _ _ _ _ _ _ E) as [->|(p & g' & Hpq & _)];
        [by left|].
      rewrite Hpq in H1. apply elem_of_cons in H1 as [->|H1]; [|by left].
      right. exists L. split; [apply list_elem_of_here|done].
    + right. exists L'. split; [by apply list_elem_of_further|done].
Qed.

Lemma a_star_loop_kb_exact haversine binary64 fuel kb goal criterio st :
  closed_graph (graph kb) →
  (∀ e : entry, e ∈ openpq st → is_Some (graph kb !! e.2.1)) →
  (a_star_loop haversine binary64 fuel kb goal criterio st).1 = kb.
Proof.
  intros Hcl. revert st. induction fuel as [|fuel IH]; intros st Hpq; simpl; [done|].
  destruct (heappop (openpq st)) as [[[p [u l]] pq]|] eqn:Hpop; [|done].
  destruct (String.eqb u goal); [done|].
  assert (is_Some (graph kb !! u)) as Hu.
  { apply (Hpq (p, (u, l))). rewrite <- (heappop_perm _ _ _ Hpop).
    apply list_elem_of_here. }
  pose proof (neighbors_known kb u Hu) as Hk. unfold neighbors in Hk. simpl in Hk.
  rewrite Hk.
  destruct (relax_all _ _ _ _ _ _ _ _ _) as [st'| |] eqn:E; simpl; [|done..].
  apply IH. intros e He.
  destruct (relax_all_openpq _ _ _ _ _ _ _ _ _ _ E e He) as [H|(L & HL & ->)].
  - apply Hpq. rewrite <- (heappop_perm _ _ _ Hpop). by apply list_elem_of_further.
  - by apply (Hcl u).
Qed.

Lemma links_of_nonempty g u (L : Link) : L ∈ links_of g u → is_Some (g !! u).
Proof.
  unfold links_of. destruct (g !! u); [by eauto|].
  intros H. by apply elem_of_nil in H.
Qed.

Lemma build_closed d : closed_graph (graph (build d)).
Proof.
  intros u L HL. apply graph_build in HL as (r & Hr & [[-> ->]|[-> ->]]); simpl.
  - apply (links_of_nonempty _ _ (r.1.1.1, r.1.2, r.2)).
    apply graph_build. exists r. split; [done|]. by right.
  - apply (links_of_nonempty _ _ (r.1.1.2, r.1.2, r.2)).
    apply graph_build. exists r. split; [done|]. by left.
Qed.



(** * Further properties *)

(** ** Unsupported criteria *)

Lemma step_for_unsupported kb criterio t tr :
  ¬ supported criterio → step_for kb criterio t tr = Raises ValueError.
Proof.
  intros H. unfold step_for.
  destruct (String.eqb criterio "tiempo") eqn:E1.
  { apply String.eqb_eq in E1. exfalso. apply H. by left. }
  destruct (String.eqb criterio "saltos") eqn:E2.
  { apply String.eqb_eq in E2. exfalso. apply H. right. by left. }
  destruct (String.eqb criterio "transbordos") eqn:E3.
  { apply String.eqb_eq in E3. exfalso. apply H. right. by right. }
  done.
Qed.

(** X1: with a criterion that is none of tiempo, saltos, transbordos, a
    search whose start differs from the goal raises [ValueError] when it
    relaxes the first link of the start, and returns the no-path pair when
    the start has no link: the criterion is only looked at inside the loop
    over the neighbours. *)
Theorem a_star_unsupported_criterion (haversine : Q * Q → Q * Q → float_exn + Q)
    (binary64 : Q → Q)
    (kb : KnowledgeBase) (start goal criterio : string) (fuel : nat) :
  ¬ supported criterio →
  start ≠ goal →
  (links_of (graph kb) start ≠ [] →
   (a_star haversine binary64 (S fuel) kb start goal criterio).2 = Raises ValueError)
  ∧ (links_of (graph kb) start = [] →
     (a_star haversine binary64 (S (S fuel)) kb start goal criterio).2
     = Returns (None, Infinity)).
Proof.
  intros Hun Hne. split; [|by apply a_star_isolated_start].
  intros Hl. unfold a_star.
  erewrite a_star_loop_relax; [|reflexivity|done].
  change (neighbors kb start).1 with (links_of (graph kb) start).
  destruct (links_of (graph kb) start) as [|[[v line] t] ls]; [done|].
  cbn [relax_all]. unfold relax.
  rewrite step_for_unsupported by first [exact Hun | done]. done.
Qed.

Lemma a_star_unsupported_criterion_witness :
  (a_star colocated no_rounding 1 (build one_line) "A" "C" "distancia").2 = Raises ValueError
  ∧ (a_star colocated no_rounding 2 (build one_line) "Z" "C" "distancia").2
    = Returns (None, Infinity).
Proof.
  split.
  - apply (a_star_unsupported_criterion colocated no_rounding (build one_line) "A" "C"
             "distancia" 0).
    + intros [H|[H|H]]; discriminate H.
    + discriminate.
    + vm_compute. discriminate.
  - apply (a_star_unsupported_criterion colocated no_rounding (build one_line) "Z" "C"
             "distancia" 0).
    + intros [H|[H|H]]; discriminate H.
    + discriminate.
    + vm_compute. reflexivity.
Defined.

(** ** Every outcome of a search *)

(** X2: under a supported criterion (with travel times and penalty not
    negative under tiempo), whatever the distance function and the rounding,
    a search ends in one of these ways: the no-path pair; the states of a
    walk from the start to the goal, beginning with (start, None), with a
    cost that is not below the cost of that walk; or, under tiempo only, an
    exception raised while the priority of the last link of a walk from the
    start that passes no state twice is computed: [KeyError] because the
    station of that link or the goal has no coordinates, the exception of
    [haversine] on their coordinates ([ValueError] or [OverflowError]), or
    [OverflowError] because the cost of that walk is an integer beyond the
    range of [float]. *)
Theorem a_star_outcomes (haversine : Q * Q → Q * Q → float_exn + Q)
    (binary64 : Q → Q) (kb : KnowledgeBase)
    (start goal criterio : string) :
  supported criterio →
  (criterio = "tiempo" → nonneg_costs kb) →
  ∃ fuel0 r,
    (∀ fuel, (fuel0 ≤ fuel)%nat →
       (a_star haversine binary64 fuel kb start goal criterio).2 = r)
    ∧ (r = Returns (None, Infinity)
       ∨ (∃ ls c,
            r = Returns (Some (walk_states (start, None) ls), Fin c)
            ∧ walk_ok (graph kb) start ls
            ∧ walk_end start ls = goal
            ∧ walk_cost kb criterio None ls ≤ c)
       ∨ (∃ e ls (L : Link),
            r = Raises e
            ∧ criterio = "tiempo"
            ∧ walk_ok (graph kb) start (ls ++ [L])
            ∧ NoDup (walk_states (start, None) (ls ++ [L]))
            ∧ ((e = KeyError
                ∧ (stations (data kb) !! L.1.1 = None
                   ∨ stations (data kb) !! goal = None))
               ∨ (∃ cv cg fe,
                    stations (data kb) !! L.1.1 = Some cv
                    ∧ stations (data kb) !! goal = Some cg
                    ∧ haversine (lat cv, lon cv) (lat cg, lon cg) = inl fe
                    ∧ e = match fe with
                          | math_domain => ValueError
                          | float_overflow => OverflowError
                          end)
               ∨ (e = OverflowError
                  ∧ float_limit
                    ≤ walk_cost kb "tiempo" None (ls ++ [L]))))).
Proof.
  intros Hsup Hnn.
  destruct (a_star_settles haversine binary64 kb start goal criterio Hsup Hnn)
    as (fuel0 & r & Hr & Hs & _ & Hrun).
  exists fuel0, r. split; [done|].
  destruct r as [[[path|] [c|]]|e|]; simpl in Hs; try done.
  - right. left. destruct Hs as (ls & Hok & Hend & -> & Hle). by exists ls, c.
  - by left.
  - right. right. destruct Hs as (ls & L & Hok & Hnd & Hp).
    apply priority_raises in Hp as [-> Hp].
    exists e, ls, L. split; [done|]. split; [done|]. split; [done|].
    split; [done|].
    destruct Hp as [Hk|[(cv & cg & fe & Hv & Hg & Hd & He)|[-> Hlim]]].
    + by left.
    + right. left. exists cv, cg, fe. split; [done|]. split; [done|].
      split; [done|]. destruct fe; by injection He.
    + right. right. split; [done|].
      pose proof (walk_cost_nonneg kb "tiempo" start None _ Hsup Hnn Hok). lia.
Qed.

Lemma a_star_outcomes_witness :
  ∃ fuel0 r,
    (∀ fuel, (fuel0 ≤ fuel)%nat →
       (a_star colocated no_rounding fuel (build plaza) "S" "G" "tiempo").2 = r)
    ∧ (r = Returns (None, Infinity)
       ∨ (∃ ls c,
            r = Returns (Some (walk_states ("S", None) ls), Fin c)
            ∧ walk_ok (graph (build plaza)) "S" ls
            ∧ walk_end "S" ls = "G"
            ∧ walk_cost (build plaza) "tiempo" None ls ≤ c)
       ∨ (∃ e ls (L : Link),
            r = Raises e
            ∧ "tiempo" = "tiempo"
            ∧ walk_ok (graph (build plaza)) "S" (ls ++ [L])
            ∧ NoDup (walk_states ("S", None) (ls ++ [L]))
            ∧ ((e = KeyError
                ∧ (stations (data (build plaza)) !! L.1.1 = None
                   ∨ stations (data (build plaza)) !! "G" = None))
               ∨ (∃ cv cg fe,
                    stations (data (build plaza)) !! L.1.1 = Some cv
                    ∧ stations (data (build plaza)) !! "G" = Some cg
                    ∧ colocated (lat cv, lon cv) (lat cg, lon cg) = inl fe
                    ∧ e = match fe with
                          | math_domain => ValueError
                          | float_overflow => OverflowError
                          end)
               ∨ (e = OverflowError
                  ∧ float_limit
                    ≤ walk_cost (build plaza) "tiempo" None (ls ++ [L]))))).
Proof.
  apply a_star_outcomes.
  - left. reflexivity.
  - intros _. apply nonneg_costsb_spec. vm_compute. reflexivity.
Defined.

(** ** The three criteria on one walk *)

(** X3: along every walk the cost accumulated under saltos is the number of
    links plus the cost under transbordos, and the cost under tiempo is the
    sum of the travel times plus the penalty times the cost under
    transbordos. *)
Theorem walk_cost_decomposition (kb : KnowledgeBase) (last_line : option string)
    (ls : list Link) :
  walk_cost kb "saltos" last_line ls
  = Z.of_nat (length ls) + walk_cost kb "transbordos" last_line ls
  ∧ walk_cost kb "tiempo" last_line ls
    = walk_time ls
      + transfer_penalty (data kb) * walk_cost kb "transbordos" last_line ls.
Proof.
  revert last_line. induction ls as [|L ls IH]; intros l; [simpl; split; lia|].
  destruct (IH (Some L.1.2)) as [IH1 IH2].
  cbn [walk_cost walk_time length]. rewrite IH1, IH2.
  unfold stepz, step_for, step_cost. simpl.
  destruct (is_transfer l L.1.2); split; lia.
Qed.

(** ** Links run both ways *)

Lemma graph_build_sym d u v line t :
  (v, line, t) ∈ links_of (graph (build d)) u
  ↔ (u, line, t) ∈ links_of (graph (build d)) v.
Proof.
  assert (∀ u v, (v, line, t) ∈ links_of (graph (build d)) u
                 → (u, line, t) ∈ links_of (graph (build d)) v) as H.
  { clear u v. intros u v HL.
    apply graph_build in HL as (r & Hr & [[-> E] | [-> E]]);
      injection E as -> -> ->; apply graph_build; exists r; split; try done.
    - by right.
    - by left. }
  split; apply H.
Qed.

Lemma walk_back d u (ls : list Link) :
  walk_ok (graph (build d)) u ls →
  ∃ ls' : list Link,
    walk_ok (graph (build d)) (walk_end u ls) ls'
    ∧ walk_end (walk_end u ls) ls' = u
    ∧ length ls' = length ls
    ∧ walk_time ls' = walk_time ls.
Proof.
  revert u. induction ls as [|[[v line] t] ls IH]; intros u; simpl.
  - intros _. by exists [].
  - intros [HL Hok]. destruct (IH v Hok) as (ls' & Hok' & Hend' & Hlen & Htime).
    exists (ls' ++ [(u, line, t)]). split; [|split; [|split]].
    + apply walk_ok_app. split; [done|]. rewrite Hend'. simpl. split; [|done].
      by apply graph_build_sym.
    + rewrite walk_end_app. done.
    + rewrite length_app. simpl. lia.
    + assert (∀ l1 l2 : list Link, walk_time (l1 ++ l2) = walk_time l1 + walk_time l2)
        as Happ.
      { intros l1 l2. induction l1 as [|x l1 IHl]; simpl; [done|]. rewrite IHl. lia. }
      rewrite Happ. simpl. lia.
Qed.

(** X4: in a knowledge base built by the constructor every adjacency entry
    has its mirror: [v] is a neighbour of [u] by a line and a time exactly
    when [u] is a neighbour of [v] by the same line and time; hence every
    walk can be walked back with as many links and the same sum of travel
    times, and reachability is symmetric. *)
Theorem links_both_ways (d : Data) (u v : string) :
  (∀ line t,
     (v, line, t) ∈ (neighbors (build d) u).1
     ↔ (u, line, t) ∈ (neighbors (build d) v).1)
  ∧ (∀ ls : list Link,
       walk_ok (graph (build d)) u ls → walk_end u ls = v →
       ∃ ls' : list Link,
         walk_ok (graph (build d)) v ls' ∧ walk_end v ls' = u
         ∧ length ls' = length ls ∧ walk_time ls' = walk_time ls)
  ∧ (reachable (build d) u v ↔ reachable (build d) v u).
Proof.
  assert (∀ a b (ls : list Link),
            walk_ok (graph (build d)) a ls → walk_end a ls = b →
            ∃ ls' : list Link,
              walk_ok (graph (build d)) b ls' ∧ walk_end b ls' = a
              ∧ length ls' = length ls ∧ walk_time ls' = walk_time ls) as Hback.
  { intros a b ls Hok <-. by apply walk_back. }
  split; [|split].
  - intros line t. apply graph_build_sym.
  - apply Hback.
  - split; intros (ls & Hok & Hend);
      destruct (Hback _ _ ls Hok Hend) as (ls' & Hok' & Hend' & _); by exists ls'.
Qed.

(** ** Lines per station *)

Lemma lines_of_dd_add (m : gmap string (gset string)) k x s line :
  line ∈ default ∅ (dd_add m k x !! s)
  ↔ line ∈ default ∅ (m !! s) ∨ (s = k ∧ line = x).
Proof.
  unfold dd_add. destruct (decide (s = k)) as [-> |Hne].
  - rewrite lookup_insert_eq. simpl. rewrite elem_of_union, elem_of_singleton. tauto.
  - rewrite lookup_insert_ne by done. tauto.
Qed.

Lemma lines_build d s line :
  line ∈ default ∅ (lines_by_station (build d) !! s)
  ↔ ∃ r : LinkRow, r ∈ links d ∧ r.1.2 = line ∧ (s = r.1.1.1 ∨ s = r.1.1.2).
Proof.
  unfold build. simpl. generalize (links d). intros rows.
  induction rows as [|r rows IH] using rev_ind.
  - simpl. rewrite lookup_empty. simpl. split.
    + intros H. by apply not_elem_of_empty in H.
    + intros (r & H & _). by apply elem_of_nil in H.
  - rewrite foldl_app. simpl. destruct r as [[[a b] l] t]. unfold add_lines.
    rewrite !lines_of_dd_add, IH. split.
    + intros [[(r' & Hin & H)|[-> ->]]|[-> ->]].
      * exists r'. split; [|done]. apply elem_of_app. by left.
      * exists (a, b, l, t). split; [|by split; [|left]].
        apply elem_of_app. right. by apply list_elem_of_singleton.
      * exists (a, b, l, t). split; [|by split; [|right]].
        apply elem_of_app. right. by apply list_elem_of_singleton.
    + intros (r' & Hin & Hl & Hs). apply elem_of_app in Hin as [Hin|Hin].
      * left. left. by exists r'.
      * apply list_elem_of_singleton in Hin as ->. simpl in Hl, Hs. subst l.
        destruct Hs as [-> | ->]; [left; by right|by right].
Qed.

Lemma lines_entries d s line :
  line ∈ default ∅ (lines_by_station (build d) !! s)
  ↔ ∃ v t, (v, line, t) ∈ links_of (graph (build d)) s.
Proof.
  rewrite lines_build. split.
  - intros ([[[a b] l] t] & Hr & Hl & Hs). simpl in Hl, Hs. subst l.
    destruct Hs as [-> | ->].
    + exists b, t. apply graph_build. exists (a, b, line, t). split; [done|]. by left.
    + exists a, t. apply graph_build. exists (a, b, line, t). split; [done|]. by right.
  - intros (v & t & HL). apply graph_build in HL as (r & Hr & [[-> E] | [-> E]]);
      injection E as -> -> ->; exists r; split; try done; split; try done.
    + by left.
    + by right.
Qed.

Lemma size_gt_1 (X : gset string) :
  (1 < size X)%nat ↔ ∃ x y, x ∈ X ∧ y ∈ X ∧ x ≠ y.
Proof.
  split.
  - intros H. destruct (size_pos_elem_of X) as [x Hx]; [lia|].
    destruct (size_pos_elem_of (X ∖ {[x]})) as [y Hy].
    { rewrite size_difference by (by apply singleton_subseteq_l).
      rewrite size_singleton. lia. }
    apply elem_of_difference in Hy as [Hy Hxy].
    exists x, y. split; [done|]. split; [done|].
    intros ->. apply Hxy. by apply elem_of_singleton.
  - intros (x & y & Hx & Hy & Hne).
    assert (size ({[x]} ∪ {[y]} : gset string) ≤ size X)%nat as Hle.
    { apply subseteq_size. apply union_subseteq.
      split; by apply singleton_subseteq_l. }
    rewrite size_union, !size_singleton in Hle; [lia|].
    by apply disjoint_singleton_l, not_elem_of_singleton.
Qed.

(** X5: in a knowledge base built by the constructor the lines recorded for
    a station are exactly the lines of its adjacency entries, and
    [is_interchange] answers true exactly for the stations that have two
    adjacency entries of different lines (rule R4). *)
Theorem is_interchange_correct (d : Data) (s : string) :
  (∀ line,
     line ∈ default ∅ (lines_by_station (build d) !! s)
     ↔ ∃ v t, (v, line, t) ∈ (neighbors (build d) s).1)
  ∧ ((is_interchange (build d) s).1 = true
     ↔ ∃ L1 L2 : Link,
         L1 ∈ (neighbors (build d) s).1 ∧ L2 ∈ (neighbors (build d) s).1
         ∧ L1.1.2 ≠ L2.1.2).
Proof.
  split; [apply lines_entries|].
  unfold is_interchange. simpl. rewrite bool_decide_eq_true, size_gt_1. split.
  - intros (x & y & Hx & Hy & Hne).
    apply lines_entries in Hx as (v1 & t1 & H1).
    apply lines_entries in Hy as (v2 & t2 & H2).
    by exists (v1, x, t1), (v2, y, t2).
  - intros ([[v1 x] t1] & [[v2 y] t2] & H1 & H2 & Hne). simpl in Hne.
    exists x, y. split; [|split; [|done]]; apply lines_entries; eauto.
Qed.

Lemma graph_build_key d s :
  is_Some (graph (build d) !! s) ↔ ∃ L : Link, L ∈ links_of (graph (build d)) s.
Proof.
  split; [|intros [L HL]; by eapply links_of_nonempty].
  unfold build. simpl. generalize (links d). intros rows.
  induction rows as [|r rows IH] using rev_ind.
  - simpl. rewrite lookup_empty. by intros [? ?].
  - rewrite foldl_app. simpl. destruct r as [[[a b] l] t].
    intros Hs.
    destruct (decide (s = a)) as [-> |Ha].
    { exists (b, l, t). apply links_of_add_link. right. by left. }
    destruct (decide (s = b)) as [-> |Hb].
    { exists (a, l, t). apply links_of_add_link. right. by right. }
    unfold add_link, dd_append in Hs. rewrite !lookup_insert_ne in Hs by done.
    destruct (IH Hs) as [L HL]. exists L. apply links_of_add_link. by left.
Qed.

Lemma lines_build_key d s :
  is_Some (lines_by_station (build d) !! s)
  ↔ ∃ line, line ∈ default ∅ (lines_by_station (build d) !! s).
Proof.
  split.
  - unfold build. simpl. generalize (links d). intros rows.
    induction rows as [|r rows IH] using rev_ind.
    + simpl. rewrite lookup_empty. by intros [? ?].
    + rewrite foldl_app. simpl. destruct r as [[[a b] l] t].
      intros Hs. unfold add_lines.
      destruct (decide (s = a)) as [-> |Ha].
      { exists l. apply lines_of_dd_add. left. apply lines_of_dd_add. by right. }
      destruct (decide (s = b)) as [-> |Hb].
      { exists l. apply lines_of_dd_add. by right. }
      unfold add_lines, dd_add in Hs. rewrite !lookup_insert_ne in Hs by done.
      destruct (IH Hs) as [line Hl]. exists line.
      apply lines_of_dd_add. left. apply lines_of_dd_add. by left.
  - intros [line Hl]. destruct (lines_by_station (build d) !! s); [by eauto|].
    simpl in Hl. by apply not_elem_of_empty in Hl.
Qed.

(** X6: right after construction a stop has an adjacency list exactly when
    it has a set of lines, exactly when some link row names it; no stored
    adjacency list and no stored set of lines is empty. *)
Theorem build_keys (d : Data) (s : string) :
  (is_Some (graph (build d) !! s)
   ↔ ∃ r : LinkRow, r ∈ links d ∧ (s = r.1.1.1 ∨ s = r.1.1.2))
  ∧ (is_Some (lines_by_station (build d) !! s) ↔ is_Some (graph (build d) !! s))
  ∧ graph (build d) !! s ≠ Some []
  ∧ lines_by_station (build d) !! s ≠ Some ∅.
Proof.
  assert (is_Some (graph (build d) !! s)
          ↔ ∃ r : LinkRow, r ∈ links d ∧ (s = r.1.1.1 ∨ s = r.1.1.2)) as Hg.
  { rewrite graph_build_key. split.
    - intros (L & HL). apply graph_build in HL as (r & Hr & [[-> _]|[-> _]]);
        exists r; split; try done; [by left|by right].
    - intros ([[[a b] l] t] & Hr & [-> | ->]); simpl.
      + exists (b, l, t). apply graph_build. exists (a, b, l, t). split; [done|]. by left.
      + exists (a, l, t). apply graph_build. exists (a, b, l, t). split; [done|]. by right. }
  split; [done|]. split; [|split].
  - rewrite Hg, lines_build_key. split.
    + intros (line & Hl). apply lines_build in Hl as (r & Hr & _ & Hs). by exists r.
    + intros (r & Hr & Hs). exists r.1.2. apply lines_build. by exists r.
  - intros H. assert (is_Some (graph (build d) !! s)) as Hs by by rewrite H.
    apply graph_build_key in Hs as [L HL]. unfold links_of in HL. rewrite H in HL.
    by apply elem_of_nil in HL.
  - intros H. assert (is_Some (lines_by_station (build d) !! s)) as Hs by by rewrite H.
    apply lines_build_key in Hs as [line Hl]. rewrite H in Hl.
    by apply not_elem_of_empty in Hl.
Qed.

(** ** A path is found whenever there is one *)

Lemma relax_shape haversine binary64 kb goal criterio u l st (L : Link) st' :
  relax haversine binary64 kb goal criterio u l st L = Returns st' →
  st' = st
  ∨ ∃ p g', openpq st' = (p, arrive L) :: openpq st
      ∧ g_cost st' = <[arrive L := g']> (g_cost st).
Proof.
  destruct L as [[v line] t]. unfold relax.
  destruct (step_for kb criterio t (is_transfer l line)) as [step| |]; simpl; [|done..].
  destruct (dict_get (g_cost st) (u, l)) as [gu| |]; simpl; [|done..].
  destruct (lt_get_inf _ _); [|by intros [= <-]; left].
  destruct (priority haversine binary64 kb goal criterio _ v) as [pr| |]; simpl;
    [|done..].
  intros [= <-]. right. by eexists _, _.
Qed.

Lemma relax_all_changes haversine binary64 kb goal criterio u l (ls : list Link) st st' :
  relax_all haversine binary64 kb goal criterio u l st ls = Returns st' →
  (∀ e : entry, e ∈ openpq st → e ∈ openpq st')
  ∧ (∀ x g', g_cost st' !! x = Some g' →
       g_cost st !! x = Some g' ∨ waiting st' x).
Proof.
  revert st. induction ls as [|L ls IH]; intros st; simpl.
  - intros [= <-]. split; [done|]. intros x g' Hx. by left.
  - destruct (relax haversine binary64 kb goal criterio u l st L) as [st1| |] eqn:E;
      simpl; [|done..].
    intros Hall. destruct (IH _ Hall) as [Hin Hg].
    destruct (relax_shape _ _ _ _ _ _ _ _ _ _ E) as [->|(p & g1 & Hpq & Hg1)];
      [done|].
    split.
    + intros e He. apply Hin. rewrite Hpq. by apply list_elem_of_further.
    + intros x g' Hx. destruct (Hg _ _ Hx) as [H1|H1]; [|by right].
      rewrite Hg1 in H1. destruct (decide (arrive L = x)) as [<-|Hne].
      * right. exists p. apply Hin. rewrite Hpq. apply list_elem_of_here.
      * left. by rewrite lookup_insert_ne in H1.
Qed.

Section Complete.
Variable haversine : Q * Q → Q * Q → float_exn + Q.
Variable binary64 : Q → Q.
Variable kb : KnowledgeBase.
Variables start goal criterio : string.
Hypothesis Hsup : supported criterio.
Hypothesis Hnn : criterio = "tiempo" → nonneg_costs kb.

Lemma start_explored :
  explored kb goal criterio (start_search start).
Proof.
  intros x gx Hx. simpl in Hx. apply lookup_singleton_Some in Hx as [<- _].
  left. exists 0%Q. apply list_elem_of_here.
Qed.

Lemma iteration_explored st p (u : State) pq st' :
  inv1 kb start criterio st →
  explored kb goal criterio st →
  heappop (openpq st) = Some ((p, u), pq) →
  u.1 ≠ goal →
  relax_all haversine binary64 kb goal criterio u.1 u.2 (popped st pq)
    (links_of (graph kb) u.1) = Returns st' →
  explored kb goal criterio st'.
Proof.
  intros Hinv Hex Hpop Hng Hrel.
  destruct (popped_defined kb start criterio st p u pq Hinv Hpop) as [gu Hgu].
  destruct (relax_all_steps haversine binary64 kb start goal criterio Hsup Hnn u gu _ _ _
              (λ _ H, H) (popped_inv1 kb start criterio st p u pq Hinv Hpop)
              Hgu Hrel) as (Hi & _ & Hg & Hle & Hr & _).
  destruct (relax_all_changes _ _ _ _ _ _ _ _ _ _ Hrel) as [Hin Hchg].
  intros x gx Hx.
  destruct (Hchg _ _ Hx) as [Hold|Hw]; [|by left].
  simpl in Hold.
  destruct (Hex _ _ Hold) as [(p' & Hp')|[Hxg Hcl]].
  - destruct (popped_cases st p u pq Hpop _ Hp') as [[= -> ->]|Hpq].
    + right. by split.
    + left. exists p'. by apply Hin.
  - right. split; [done|]. intros L HL.
    destruct (Hcl _ HL) as (gx0 & gy & Hx0 & Hy & Hrel0).
    destruct (Hle _ _ Hy) as (gy' & Hy' & Hyle).
    exists gx, gy'. split; [done|]. split; [done|].
    assert (gx0 = gx) by congruence. lia.
Qed.

Lemma a_star_loop_complete fuel st kb' :
  kb_same kb kb' →
  inv1 kb start criterio st →
  explored kb goal criterio st →
  (a_star_loop haversine binary64 fuel kb' goal criterio st).2 = Returns (None, Infinity) →
  ¬ reachable kb start goal.
Proof.
  intros Hkb Hi He.
  apply (a_star_loop_ind haversine binary64 kb goal criterio
           (λ st, inv1 kb start criterio st ∧ explored kb goal criterio st)
           (λ r, r = Returns (None, Infinity) → ¬ reachable kb start goal));
    try done.
  - intros st0 [Hinv Hex] Hemp _ (ls & Hok & Hend).
    eapply (all_closed_no_walk kb goal criterio st0 (start, None) 0 ls);
      [|apply Hinv|done|done].
    intros y gy Hy. destruct (Hex _ _ Hy) as [(p & Hp)|?]; [|done].
    rewrite Hemp in Hp. by apply elem_of_nil in Hp.
  - intros st0 p u pq f _ _ _.
    destruct (reconstruct f (parents st0) (Some u) []) as [path| |]; simpl; [|done..].
    by destruct (dict_get (g_cost st0) u).
  - intros st0 p u pq st1 [Hinv Hex] Hpop Hng E. split.
    + by destruct (iteration haversine binary64 kb start goal criterio Hsup Hnn
                     st0 p u pq Hinv Hpop st1 Hng E).
    + by eapply iteration_explored.
Qed.

End Complete.

(** X7: under a supported criterion, and under tiempo with travel times
    and penalty not negative and with priorities that can all be computed
    (coordinates for the goal and every linked station, a distance returned
    by [haversine] for each of them against the goal, and the cost of every
    walk from the start that passes no state twice within the range of
    [float]), whatever the distances and the rounding, and so also with a
    heuristic that overestimates, the search returns a path exactly when
    the goal is reachable from the start. *)
Theorem a_star_finds_path (haversine : Q * Q → Q * Q → float_exn + Q)
    (binary64 : Q → Q) (kb : KnowledgeBase)
    (start goal criterio : string) :
  supported criterio →
  (criterio = "tiempo" →
   nonneg_costs kb ∧ heuristic_computable haversine kb start goal) →
  (reachable kb start goal
   ↔ ∃ fuel0 path c, ∀ fuel, (fuel0 ≤ fuel)%nat →
       (a_star haversine binary64 fuel kb start goal criterio).2
       = Returns (Some path, Fin c)).
Proof.
  intros Hsup Hwf.
  assert (criterio = "tiempo" → nonneg_costs kb) as Hnn
    by (intros Ht; by destruct (Hwf Ht)).
  assert (criterio = "tiempo" → heuristic_computable haversine kb start goal)
    as Hc by (intros Ht; by destruct (Hwf Ht)).
  split.
  - intros Hreach.
    destruct (a_star_settles haversine binary64 kb start goal criterio Hsup Hnn)
      as (fuel0 & r & Hr & Hs & _ & Hrun).
    destruct r as [[[path|] [c|]]|e|]; simpl in Hs; try done.
    + by exists fuel0, path, c.
    + exfalso. revert Hreach.
      apply (a_star_loop_complete haversine binary64 kb start goal criterio
               Hsup Hnn fuel0 (start_search start) kb (kb_same_refl kb)
               (start_inv1 kb start criterio)
               (start_explored kb start goal criterio)).
      by apply Hrun.
    + exfalso.
      by apply (sound_no_raise haversine binary64 kb start goal criterio
                  Hsup Hnn e Hc).
  - intros (fuel0 & path & c & Hrun).
    pose proof (a_star_loop_sound haversine binary64 kb start goal criterio
                  Hsup Hnn fuel0 (start_search start) kb (kb_same_refl kb)
                  (start_inv1 kb start criterio)) as Hs.
    unfold a_star in Hrun. rewrite (Hrun fuel0 (Nat.le_refl _)) in Hs.
    destruct Hs as (ls & Hok & Hend & _). by exists ls.
Qed.

Lemma a_star_finds_path_witness :
  reachable (build plaza) "S" "G"
  ↔ ∃ fuel0 path c, ∀ fuel, (fuel0 ≤ fuel)%nat →
      (a_star colocated no_rounding fuel (build plaza) "S" "G" "tiempo").2
      = Returns (Some path, Fin c).
Proof.
  assert (nonneg_costs (build plaza)) as Hnn
    by (apply nonneg_costsb_spec; vm_compute; reflexivity).
  apply a_star_finds_path.
  - left. reflexivity.
  - intros _. split; [done|]. split; [|split].
    + apply has_coordsb_spec. vm_compute. reflexivity.
    + apply distance_defined_colocated.
    + apply (within_float_rangeb_spec _ _ 13 Hnn). vm_compute. reflexivity.
Defined.

(** ** The counts of the explanation *)

Lemma find_dest_Some (v : string) (l : list Link) (L : Link) :
  L ∈ l → L.1.1 = v →
  ∃ L', List.find (λ L : Link, String.eqb L.1.1 v) l = Some L'.
Proof.
  intros HL Hv. induction HL as [L l|L L0 l HL IH]; simpl.
  - rewrite <- Hv, String.eqb_refl. by eexists.
  - destruct (String.eqb L0.1.1 v); [by eexists|]. by apply IH.
Qed.

Lemma find_dest_spec (v : string) (l : list Link) (L : Link) :
  List.find (λ L : Link, String.eqb L.1.1 v) l = Some L → L ∈ l ∧ L.1.1 = v.
Proof.
  intros H. apply find_some in H as [Hin Heq].
  split; [by apply list_elem_of_In|]. by apply String.eqb_eq.
Qed.

Lemma find_dest_None (v : string) (l : list Link) (L : Link) :
  List.find (λ L : Link, String.eqb L.1.1 v) l = None → L ∈ l → L.1.1 ≠ v.
Proof.
  intros H HL Hv. destruct (find_dest_Some v l L HL Hv) as [L' HL']. congruence.
Qed.

(** One round of the loop of [explain_route], read on the knowledge base
    [kb] that the explanation started from. *)
Lemma explain_step_cases kb kb1 (path_states : list State) t i :
  kb_same kb kb1 →
  let r := explain_step path_states (kb1, t) i in
  kb_same kb r.1
  ∧ ((r.2 = t
      ∧ ¬ ∃ x y (L : Link), path_states !! i = Some x ∧ path_states !! S i = Some y
            ∧ L ∈ links_of (graph kb) x.1 ∧ L.1.1 = y.1)
     ∨ ∃ u line_u v line_v (L : Link),
         path_states !! i = Some (u, line_u)
         ∧ path_states !! S i = Some (v, line_v)
         ∧ found kb u v = Some L
         ∧ let transfer :=
             (0 <? i)%nat
             && negb (bool_decide (Some line_u = snd <$> path_states !! (i - 1)%nat))
             && negb (bool_decide (line_u = None)) in
           let penalty := if transfer then transfer_penalty (data kb) else 0 in
           lines r.2 = lines t ++ [(u, v, L.1.2, L.2, penalty)]
           ∧ transbordos r.2 = transbordos t + (if transfer then 1 else 0)
           ∧ saltos r.2 = saltos t + 1
           ∧ total_tiempo r.2 = total_tiempo t + (L.2 + penalty)).
Proof.
  intros Hkb. pose proof Hkb as (Hd & Hl & Hg). unfold explain_step.
  rewrite Nat.add_1_r.
  destruct (path_states !! i) as [[u line_u]|] eqn:Ei; simpl.
  2:{ split; [done|]. left. split; [done|]. by intros (x & y & L & [=] & _). }
  destruct (path_states !! S i) as [[v line_v]|] eqn:Ej; simpl.
  2:{ split; [done|]. left. split; [done|]. by intros (x & y & L & _ & [=] & _). }
  rewrite Hg.
  destruct (List.find (λ L : Link, String.eqb L.1.1 v) (links_of (graph kb) u))
    as [[[v' line] base_t]|] eqn:Ef.
  - split; [exact (kb_same_trans _ _ _ Hkb (kb_same_neighbors kb1 u))|].
    right. exists u, line_u, v, line_v, (v', line, base_t).
    split; [done|]. split; [done|]. split; [done|]. cbn [data neighbors snd].
    rewrite Hd.
    destruct ((0 <? i)%nat
              && negb (bool_decide (Some line_u = snd <$> path_states !! (i - 1)%nat))
              && negb (bool_decide (line_u = None)));
      simpl; repeat split; lia.
  - split; [exact (kb_same_trans _ _ _ Hkb (kb_same_neighbors kb1 u))|].
    left. split; [done|].
    intros (x & y & L & [= <-] & [= <-] & HL & Hv).
    by apply (find_dest_None _ _ _ Ef HL).
Qed.

Lemma explain_fold_counts kb (path_states : list State) (n : nat) kb1 t :
  kb_same kb kb1 →
  (n ≤ length path_states - 1)%nat →
  let r := foldl (explain_step path_states) (kb1, t) (seq 0 n) in
  kb_same kb r.1
  ∧ 0 ≤ transbordos r.2 - transbordos t ≤ saltos r.2 - saltos t
  ∧ saltos r.2 - saltos t ≤ Z.of_nat n
  ∧ (saltos r.2 - saltos t = Z.of_nat n
     ↔ ∀ i x y, (i < n)%nat →
         path_states !! i = Some x → path_states !! S i = Some y →
         ∃ L : Link, L ∈ links_of (graph kb) x.1 ∧ L.1.1 = y.1).
Proof.
  intros Hkb. induction n as [|n IH]; intros Hn.
  - simpl. split; [done|]. split; [lia|]. split; [lia|]. split; [|lia].
    intros _ i x y Hi. lia.
  - rewrite seq_S, foldl_app. simpl.
    destruct (foldl (explain_step path_states) (kb1, t) (seq 0 n)) as [kbn tn].
    simpl in IH. destruct IH as (Hkbn & Htr & Hle & Hiff); [lia|].
    destruct (explain_step_cases kb kbn path_states tn n Hkbn)
      as [Hkb' [[Ht Hno]|(u & lu & v & lv & L & Hi & Hj & Hf & _ & Htr' & Hs' & _)]].
    + split; [done|]. rewrite Ht. split; [done|]. split; [lia|].
      split; [lia|]. intros Hall. exfalso. apply Hno.
      destruct (lookup_lt_is_Some_2 path_states n) as [x Hx]; [lia|].
      destruct (lookup_lt_is_Some_2 path_states (S n)) as [y Hy]; [lia|].
      destruct (Hall n x y) as [L HL]; [lia|done|done|].
      by exists x, y, L.
    + split; [done|]. rewrite Htr', Hs'.
      apply find_dest_spec in Hf as [HL Hv].
      split; [destruct (_ && _ && _); lia|]. split; [lia|].
      split.
      * intros Heq i x y Hlt Hx Hy.
        destruct (decide (i = n)) as [->|Hne].
        -- rewrite Hi in Hx. rewrite Hj in Hy. injection Hx as <-. injection Hy as <-.
           by exists L.
        -- apply (λ H, proj1 Hiff H i x y); [lia|lia|done|done].
      * intros Hall. assert (saltos tn - saltos t = Z.of_nat n); [|lia].
        apply Hiff. intros i x y Hlt. apply Hall. lia.
Qed.


(** ** The explanation of a chain returned by the search *)

Lemma walk_ok_lookup g u (ls : list Link) (k : nat) (L : Link) :
  walk_ok g u ls → ls !! k = Some L → L ∈ links_of g (walk_end u (take k ls)).
Proof.
  revert u k. induction ls as [|L0 ls IH]; intros u [|k]; simpl; try done.
  - by intros [H _] [= <-].
  - intros [_ H] Hk. by apply IH.
Qed.

Lemma found_times_snoc kb u (ls : list Link) (L : Link) :
  found_times kb u (ls ++ [L])
  = found_times kb u ls + found_time kb (walk_end u ls) L.1.1.
Proof.
  revert u. induction ls as [|L0 ls IH]; intros u; simpl; [lia|].
  rewrite IH. lia.
Qed.

Lemma stepz_transbordos kb l (L : Link) :
  stepz kb "transbordos" l L = if is_transfer l L.1.2 then 1 else 0.
Proof. reflexivity. Qed.

(** Transfers that [explain_route] has counted after [k] rounds on the chain
    of a walk: the first boarding, counted at the second round, and the
    line changes between the links before the last one. *)
Lemma transfer_flag_walk kb start (ls : list Link) (k : nat) (L : Link) :
  ls !! k = Some L →
  let path_states := walk_states (start, None) ls in
  let line_u := (state_after (start, None) (take k ls)).2 in
  let counted (k : nat) : Z :=
    if (k <=? 1)%nat then 0
    else 1 + walk_cost kb "transbordos" None (take (k - 1) ls) in
  (if (0 <? k)%nat
      && negb (bool_decide (Some line_u = snd <$> path_states !! (k - 1)%nat))
      && negb (bool_decide (line_u = None))
   then 1 else 0)
  = counted (S k) - counted k.
Proof.
  intros Hk. pose proof (lookup_lt_Some _ _ _ Hk) as Hlt.
  destruct k as [|[|k]]; cbn zeta.
  - simpl. lia.
  - destruct (lookup_lt_is_Some_2 ls 0) as [L0 H0]; [lia|].
    rewrite walk_states_lookup by lia.
    rewrite (state_after_take _ _ _ _ H0).
    change (2 - 1)%nat with 1%nat. change (1 - 1)%nat with 0%nat.
    rewrite (take_S_r _ _ _ H0). simpl.
    rewrite stepz_transbordos. simpl. lia.
  - destruct (lookup_lt_is_Some_2 ls k) as [L1 H1]; [lia|].
    destruct (lookup_lt_is_Some_2 ls (S k)) as [L0 H0]; [lia|].
    rewrite walk_states_lookup by lia.
    replace (S (S k) - 1)%nat with (S k) by lia.
    replace (S (S (S k)) - 1)%nat with (S (S k)) by lia.
    rewrite (state_after_take _ _ _ _ H0), (state_after_take _ _ _ _ H1).
    rewrite (take_S_r _ _ _ H0).
    rewrite (walk_cost_snoc _ _ _ start), (state_after_take _ _ _ _ H1).
    rewrite stepz_transbordos. simpl.
    destruct (String.eqb_spec L0.1.2 L1.1.2) as [E|E]; simpl.
    + rewrite E. rewrite bool_decide_eq_true_2 by done. simpl. lia.
    + rewrite bool_decide_eq_false_2 by congruence. simpl. lia.
Qed.

Lemma explain_fold_walk kb start (ls : list Link) (k : nat) :
  walk_ok (graph kb) start ls →
  (k ≤ length ls)%nat →
  let r := foldl (explain_step (walk_states (start, None) ls))
             (kb, {| lines := []; transbordos := 0; saltos := 0; total_tiempo := 0 |})
             (seq 0 k) in
  kb_same kb r.1
  ∧ saltos r.2 = Z.of_nat k
  ∧ transbordos r.2
    = (if (k <=? 1)%nat then 0
       else 1 + walk_cost kb "transbordos" None (take (k - 1) ls))
  ∧ total_tiempo r.2
    = found_times kb start (take k ls)
      + transfer_penalty (data kb) * transbordos r.2.
Proof.
  intros Hok. induction k as [|k IH]; intros Hk.
  - simpl. split; [apply kb_same_refl|]. lia.
  - rewrite seq_S, foldl_app. simpl.
    destruct (foldl _ _ (seq 0 k)) as [kbk tk].
    simpl in IH. destruct IH as (Hkb & Hs & Htr & Htot); [lia|].
    destruct (lookup_lt_is_Some_2 ls k) as [L HL]; [lia|].
    pose proof (walk_states_lookup (start, None) ls k ltac:(lia)) as Hi.
    pose proof (walk_states_lookup (start, None) ls (S k) ltac:(lia)) as Hj.
    rewrite (state_after_take _ _ _ _ HL) in Hj.
    pose proof (walk_ok_lookup _ _ _ _ _ Hok HL) as Hin.
    pose proof (state_after_end (start, None) (take k ls)) as Hend. simpl in Hend.
    pose proof (transfer_flag_walk kb start ls k L HL) as Hflag. cbn zeta in Hflag.
    destruct (explain_step_cases kb kbk (walk_states (start, None) ls) tk k Hkb)
      as [Hkb' [[_ Hno]|(u & lu & v & lv & L' & Hi' & Hj' & Hf & _ & Htr' & Hs' & Htot')]].
    + exfalso. apply Hno. eexists _, _, L. split; [exact Hi|]. split; [exact Hj|].
      split; [by rewrite Hend|done].
    + rewrite Hi in Hi'. rewrite Hj in Hj'.
      injection Hj' as <- <-.
      assert (u = walk_end start (take k ls) ∧
              lu = (state_after (start, None) (take k ls)).2) as [-> ->].
      { rewrite <- Hend. by destruct (state_after _ _); injection Hi' as -> ->. }
      split; [done|]. split; [lia|].
      cbn beta in Hflag.
      change (S k <=? 1)%nat with (k <=? 0)%nat in Hflag.
      change (S k - 1)%nat with (k - 0)%nat in Hflag.
      rewrite Htr', Htot', Htr, Htot.
      rewrite (take_S_r _ _ _ HL), found_times_snoc.
      unfold found_time. rewrite Hf.
      revert Hflag. destruct ((0 <? k)%nat && _ && _); intros Hflag; split; lia.
Qed.

Lemma explain_route_walk (kb : KnowledgeBase) (start : string)
    (ls : list Link) :
  walk_ok (graph kb) start ls →
  let r := explain_route kb (walk_states (start, None) ls) in
  kb_same kb r.1
  ∧ r.2.2 = Z.of_nat (length ls)
  ∧ r.2.1.2
    = (if (length ls <=? 1)%nat then 0
       else 1 + walk_cost kb "transbordos" None (take (length ls - 1) ls))
  ∧ r.2.1.1.2
    = found_times kb start ls + transfer_penalty (data kb) * r.2.1.2.
Proof.
  intros Hok. unfold explain_route.
  destruct (walk_states (start, None) ls) as [|s0 rest] eqn:E.
  { by destruct ls. }
  rewrite <- E. rewrite walk_states_length.
  replace (S (length ls) - 1)%nat with (length ls) by lia.
  generalize (explain_fold_walk kb start ls (length ls) Hok (Nat.le_refl _)).
  cbn zeta.
  destruct (foldl (explain_step _) _ _) as [kb' t]. cbn [fst snd].
  intros (Hkb & Hs & Htr & Htot). by rewrite firstn_all in Htot.
Qed.

Lemma take_removelast (ls : list Link) :
  take (length ls - 1) ls = removelast ls.
Proof.
  destruct ls as [|L0 ls0] using rev_ind; [done|].
  rewrite removelast_last, length_app. simpl.
  replace (length ls0 + 1 - 1)%nat with (length ls0) by lia.
  by rewrite take_app_length.
Qed.

(** The transfers reported for a chain against its line changes. *)
Lemma reported_transfers_bounds kb (ls : list Link) :
  let reported :=
    if (length ls <=? 1)%nat then 0
    else 1 + walk_cost kb "transbordos" None (removelast ls) in
  walk_cost kb "transbordos" None ls ≤ reported
    ≤ walk_cost kb "transbordos" None ls + 1.
Proof.
  cbn zeta. destruct ls as [|L0 ls0] using rev_ind; [simpl; lia|].
  rewrite removelast_last, length_app. simpl.
  rewrite (walk_cost_snoc _ _ _ EmptyString), stepz_transbordos.
  destruct ls0 as [|L1 ls1]; [simpl; lia|].
  replace (length (L1 :: ls1) + 1 <=? 1)%nat with false
    by (symmetry; apply Nat.leb_gt; simpl; lia).
  destruct (is_transfer _ _); lia.
Qed.

(** X9: on the chain of a walk that starts without a line, as [a_star]
    returns it, [explain_route] counts one hop per link; with at most one
    link it reports no transfer, with more it reports one transfer for the
    first boarding plus the line changes of the chain without its last link,
    so never fewer than the line changes of the whole chain and at most one
    more; and its time is the time of the first adjacency entry towards each
    next station plus the penalty for every reported transfer. *)
Theorem explain_route_of_walk (kb : KnowledgeBase) (start : string)
    (ls : list Link) :
  walk_ok (graph kb) start ls →
  let r := explain_route kb (walk_states (start, None) ls) in
  kb_same kb r.1
  ∧ r.2.2 = Z.of_nat (length ls)
  ∧ r.2.1.2
    = (if (length ls <=? 1)%nat then 0
       else 1 + walk_cost kb "transbordos" None (removelast ls))
  ∧ walk_cost kb "transbordos" None ls ≤ r.2.1.2
      ≤ walk_cost kb "transbordos" None ls + 1
  ∧ r.2.1.1.2
    = found_times kb start ls + transfer_penalty (data kb) * r.2.1.2.
Proof.
  intros Hok.
  pose proof (explain_route_walk kb start ls Hok) as H.
  pose proof (reported_transfers_bounds kb ls) as Hb.
  cbn zeta in H, Hb |- *. destruct H as (Hkb & Hs & Htr & Htot).
  rewrite take_removelast in Htr.
  split; [done|]. split; [done|]. split; [done|]. split; [|done].
  by rewrite Htr.
Qed.

Lemma explain_route_of_walk_witness :
  let r := explain_route (build one_line)
             (walk_states ("A", None) [("B", "L1", 5); ("C", "L1", 4)]) in
  kb_same (build one_line) r.1
  ∧ r.2.2 = 2
  ∧ r.2.1.2 = 1
  ∧ 0 ≤ r.2.1.2 ≤ 0 + 1
  ∧ r.2.1.1.2 = 9 + 3 * r.2.1.2.
Proof.
  apply (explain_route_of_walk (build one_line) "A"
           [("B", "L1", 5); ("C", "L1", 4)]).
  simpl. split; [|split; [|done]]; vm_compute; repeat constructor.
Defined.

(** ** The text of the explanation *)

Lemma string_length_app (a b : string) :
  String.length (a +:+ b) = (String.length a + String.length b)%nat.
Proof. induction a as [|c a IH]; simpl; [done|]. by rewrite IH. Qed.

Lemma substring_skip (a b : string) (n k : nat) :
  String.substring (String.length a + n) k (a +:+ b) = String.substring n k b.
Proof. induction a as [|c a IH]; simpl; [done|]. apply IH. Qed.

Lemma substring_all (s : string) : String.substring 0 (String.length s) s = s.
Proof.
  induction s as [|c s IH]; simpl; [done|]. by rewrite IH.
Qed.

Lemma endswith_refl (s : string) : endswith s s = true.
Proof.
  unfold endswith. rewrite Nat.leb_refl, Nat.sub_diag, substring_all.
  apply String.eqb_refl.
Qed.

Lemma endswith_app (a b suffix : string) :
  endswith b suffix = true → endswith (a +:+ b) suffix = true.
Proof.
  unfold endswith. intros [Hle Heq]%andb_true_iff.
  apply Nat.leb_le in Hle. rewrite string_length_app.
  apply andb_true_iff. split; [apply Nat.leb_le; lia|].
  replace (String.length a + String.length b - String.length suffix)%nat
    with (String.length a + (String.length b - String.length suffix))%nat by lia.
  by rewrite substring_skip.
Qed.

Lemma endswith_concat (sep suffix : string) (steps : list string) :
  steps ≠ [] →
  endswith (List.last steps EmptyString) suffix = true →
  endswith (String.concat sep steps) suffix = true.
Proof.
  induction steps as [|x steps IH]; [done|]. intros _.
  destruct steps as [|y steps]; [done|].
  intros H. change (endswith (x +:+ sep +:+ String.concat sep (y :: steps)) suffix = true).
  do 2 apply endswith_app. by apply IH.
Qed.

(** The step that appends the last station when the text does not end
    with it. *)
Lemma route_text_end (steps : list string) (last_station : string) :
  endswith
    (String.concat newline
       match steps with
       | [] => steps ++ [last_station]
       | _ :: _ =>
           if negb (endswith (List.last steps EmptyString) last_station)
           then steps ++ [last_station] else steps
       end) last_station = true.
Proof.
  destruct steps as [|x rest] eqn:Es.
  - simpl. apply endswith_refl.
  - rewrite <- Es.
    destruct (endswith (List.last _ _) _) eqn:Ee; cbn [negb].
    + apply endswith_concat; [by rewrite Es|done].
    + apply endswith_concat; [by destruct steps|].
      rewrite last_last. apply endswith_refl.
Qed.

(** X10: for every chain that is not empty, the text that [explain_route]
    returns ends with the name of the station of the last state, whether the
    links of the chain were found or not. *)
Theorem explain_route_names_destination (kb : KnowledgeBase)
    (path_states : list State) :
  path_states ≠ [] →
  endswith (explain_route kb path_states).2.1.1.1
    (List.last path_states (EmptyString, None)).1 = true.
Proof.
  intros Hne. unfold explain_route.
  destruct path_states as [|s rest] eqn:E; [done|]. rewrite <- E.
  destruct (foldl (explain_step _) _ _) as [kb' t]. cbn [fst snd].
  apply route_text_end.
Qed.

Lemma explain_route_names_destination_witness :
  endswith (explain_route (build one_line) [("A", None); ("Z", Some "L9")]).2.1.1.1
    (List.last [("A", None); ("Z", Some "L9")] (EmptyString, None)).1 = true.
Proof. by apply explain_route_names_destination. Defined.

(** ** Search, then explanation *)

Lemma walk_ok_links g g' u (ls : list Link) :
  (∀ s, links_of g' s = links_of g s) → walk_ok g u ls → walk_ok g' u ls.
Proof.
  intros H. revert u. induction ls as [|L ls IH]; intros u; simpl; [done|].
  intros [HL Hok]. split; [by rewrite H|by apply IH].
Qed.

Lemma walk_states_last (s : State) (ls : list Link) (d : State) :
  List.last (walk_states s ls) d = state_after s ls.
Proof.
  revert s. induction ls as [|L ls IH]; intros s; [done|].
  specialize (IH (arrive L)). simpl in *. by destruct ls.
Qed.

Lemma walk_cost_saltos_ge kb l (ls : list Link) :
  Z.of_nat (length ls) ≤ walk_cost kb "saltos" l ls.
Proof.
  revert l. induction ls as [|L ls IH]; intros l; [done|].
  specialize (IH (Some L.1.2)). cbn [walk_cost length].
  unfold stepz, step_for. simpl. destruct (is_transfer l L.1.2); lia.
Qed.

Lemma walk_cost_transbordos_kb kb kb' l (ls : list Link) :
  walk_cost kb' "transbordos" l ls = walk_cost kb "transbordos" l ls.
Proof.
  revert l. induction ls as [|L ls IH]; intros l; [done|].
  cbn [walk_cost]. by rewrite IH.
Qed.

(** X11: when the search, under a supported criterion (under tiempo with
    travel times and penalty not negative), returns a chain, the chain
    begins at the start without a line and ends at the goal, and
    [explain_route], run on the knowledge base the search leaves behind as
    [main] does, finds a link for every pair: it reports one hop less than
    the chain has states, its text ends with the name of the goal, and the
    data and links are still those given to the search.  Under saltos the
    hops are at most the returned cost; under transbordos the reported
    transfers are at most the returned cost plus one. *)
Theorem a_star_then_explain (haversine : Q * Q → Q * Q → float_exn + Q)
    (binary64 : Q → Q)
    (kb kb' : KnowledgeBase) (start goal criterio : string) (fuel : nat)
    (path : list State) (c : Z) :
  supported criterio →
  (criterio = "tiempo" → nonneg_costs kb) →
  a_star haversine binary64 fuel kb start goal criterio
  = (kb', Returns (Some path, Fin c)) →
  let r := explain_route kb' path in
  kb_same kb r.1
  ∧ head path = Some (start, None)
  ∧ (List.last path (EmptyString, None)).1 = goal
  ∧ r.2.2 = Z.of_nat (length path) - 1
  ∧ endswith r.2.1.1.1 goal = true
  ∧ (criterio = "saltos" → r.2.2 ≤ c)
  ∧ (criterio = "transbordos" → r.2.1.2 ≤ c + 1).
Proof.
  intros Hsup Hnn Ha.
  pose proof (a_star_loop_sound haversine binary64 kb start goal criterio Hsup Hnn
                fuel (start_search start) kb (kb_same_refl kb)
                (start_inv1 kb start criterio)) as Hs.
  pose proof (a_star_loop_kb_same haversine binary64 fuel kb goal criterio
                (start_search start)) as Hkb.
  unfold a_star in Ha. rewrite Ha in Hs, Hkb. cbn [fst snd] in Hs, Hkb.
  destruct Hs as (ls & Hok & Hend & -> & Hc).
  pose proof (walk_ok_links _ (graph kb') _ _ (proj2 (proj2 Hkb)) Hok) as Hok'.
  pose proof (explain_route_walk kb' start ls Hok') as H.
  pose proof (reported_transfers_bounds kb' ls) as Hb.
  cbn zeta in H, Hb |- *. destruct H as (Hkb2 & Hhops & Htr & _).
  rewrite take_removelast in Htr.
  rewrite walk_states_last, state_after_end. cbn [fst]. rewrite Hend.
  split; [by eapply kb_same_trans|]. split; [by destruct ls|].
  split; [done|]. split; [rewrite walk_states_length; lia|]. split.
  { unfold explain_route.
    destruct (walk_states (start, None) ls) as [|s0 rest] eqn:E;
      [by destruct ls|].
    rewrite <- E. destruct (foldl (explain_step _) _ _) as [kb2 t].
    cbn [fst snd]. rewrite walk_states_last, state_after_end. cbn [fst].
    rewrite Hend. apply route_text_end. }
  split.
  - intros ->. pose proof (walk_cost_saltos_ge kb None ls). lia.
  - intros ->. rewrite <- Htr in Hb.
    rewrite (walk_cost_transbordos_kb kb kb' None ls) in Hb. lia.
Qed.

Lemma a_star_then_explain_witness :
  let r := explain_route (build one_line)
             [("A", None); ("B", Some "L1"); ("C", Some "L1")] in
  kb_same (build one_line) r.1
  ∧ head [("A", None : option string); ("B", Some "L1"); ("C", Some "L1")]
    = Some ("A", None)
  ∧ (List.last [("A", None); ("B", Some "L1"); ("C", Some "L1")]
       (EmptyString, None)).1 = "C"
  ∧ r.2.2 = 3 - 1
  ∧ endswith r.2.1.1.1 "C" = true
  ∧ ("saltos" = "saltos" → r.2.2 ≤ 2)
  ∧ ("saltos" = "transbordos" → r.2.1.2 ≤ 2 + 1).
Proof.
  apply (a_star_then_explain colocated no_rounding (build one_line) (build one_line)
           "A" "C" "saltos" 7
           [("A", None); ("B", Some "L1"); ("C", Some "L1")] 2).
  - right. left. reflexivity.
  - intros [=].
  - vm_compute. reflexivity.
Defined.

(** ** What the search reads outside tiempo *)

Section OnlyLinks.
Variables haversine1 haversine2 : Q * Q → Q * Q → float_exn + Q.
Variables binary641 binary642 : Q → Q.
Variables goal criterio : string.
Hypothesis Hnt : criterio ≠ "tiempo".

Lemma step_for_other kb1 kb2 base_t transfer :
  step_for kb1 criterio base_t transfer = step_for kb2 criterio base_t transfer.
Proof.
  unfold step_for. destruct (String.eqb_spec criterio "tiempo"); [done|done].
Qed.

Lemma relax_other kb1 kb2 u l st (L : Link) :
  relax haversine1 binary641 kb1 goal criterio u l st L
  = relax haversine2 binary642 kb2 goal criterio u l st L.
Proof.
  destruct L as [[v line] t]. unfold relax, priority.
  rewrite (step_for_other kb1 kb2).
  by destruct (String.eqb_spec criterio "tiempo").
Qed.

Lemma relax_all_other kb1 kb2 u l st (ls : list Link) :
  relax_all haversine1 binary641 kb1 goal criterio u l st ls
  = relax_all haversine2 binary642 kb2 goal criterio u l st ls.
Proof.
  revert st. induction ls as [|L ls IH]; intros st; simpl; [done|].
  rewrite (relax_other kb1 kb2).
  destruct (relax haversine2 binary642 kb2 goal criterio u l st L); simpl; [apply IH|done..].
Qed.

Lemma a_star_loop_other fuel kb1 kb2 st :
  graph kb1 = graph kb2 →
  let r1 := a_star_loop haversine1 binary641 fuel kb1 goal criterio st in
  let r2 := a_star_loop haversine2 binary642 fuel kb2 goal criterio st in
  graph r1.1 = graph r2.1 ∧ r1.2 = r2.2.
Proof.
  revert kb1 kb2 st. induction fuel as [|fuel IH]; intros kb1 kb2 st Hg; simpl;
    [done|].
  destruct (heappop (openpq st)) as [[[p [u l]] pq]|]; [|done].
  destruct (String.eqb u goal); [done|].
  rewrite Hg, (relax_all_other _ (neighbors kb2 u).2).
  destruct (relax_all haversine2 binary642 _ _ _ _ _ _ _) as [st'| |]; simpl; [|done..].
  by apply IH.
Qed.

End OnlyLinks.

(** X12: under every criterion other than tiempo the search reads nothing
    but the links: two knowledge bases with the same adjacency mapping,
    whatever their coordinates, their transfer penalty, the distance
    function and the rounding, give the same result, be it a path with its cost, no path or
    an exception, and leave the same adjacency mapping behind. *)
Theorem a_star_reads_only_links
    (haversine1 haversine2 : Q * Q → Q * Q → float_exn + Q)
    (binary641 binary642 : Q → Q)
    (kb1 kb2 : KnowledgeBase) (start goal criterio : string) (fuel : nat) :
  criterio ≠ "tiempo" →
  graph kb1 = graph kb2 →
  (a_star haversine1 binary641 fuel kb1 start goal criterio).2
  = (a_star haversine2 binary642 fuel kb2 start goal criterio).2
  ∧ graph (a_star haversine1 binary641 fuel kb1 start goal criterio).1
    = graph (a_star haversine2 binary642 fuel kb2 start goal criterio).1.
Proof.
  intros Hnt Hg. unfold a_star.
  destruct (a_star_loop_other haversine1 haversine2 binary641 binary642 goal criterio Hnt fuel
              kb1 kb2 (start_search start) Hg) as [H1 H2].
  by split.
Qed.

Lemma a_star_reads_only_links_witness :
  (a_star colocated no_rounding 7 (build one_line) "A" "C" "saltos").2
  = (a_star domain_error (λ x, x + 1)%Q 7
       {| data := bad_data; graph := graph (build one_line);
          lines_by_station := ∅ |} "A" "C" "saltos").2
  ∧ graph (a_star colocated no_rounding 7 (build one_line) "A" "C" "saltos").1
    = graph (a_star domain_error (λ x, x + 1)%Q 7
               {| data := bad_data; graph := graph (build one_line);
                  lines_by_station := ∅ |} "A" "C" "saltos").1.
Proof.
  apply a_star_reads_only_links; [discriminate|reflexivity].
Defined.

(** ** The time of the explanation *)

Lemma no_parallel_linksb_spec kb :
  no_parallel_linksb kb = true → no_parallel_links kb.
Proof.
  unfold no_parallel_linksb. rewrite forallb_forall. intros Hall u L1 L2 H1 H2 Hv.
  unfold links_of in H1, H2.
  destruct (graph kb !! u) as [ls|] eqn:E; simpl in H1, H2;
    [|by apply elem_of_nil in H1].
  specialize (Hall (u, ls)). simpl in Hall.
  rewrite forallb_forall in Hall.
  specialize (Hall ltac:(by apply list_elem_of_In, elem_of_map_to_list)
                   L1 ltac:(by apply list_elem_of_In)).
  rewrite forallb_forall in Hall.
  specialize (Hall L2 ltac:(by apply list_elem_of_In)).
  rewrite Hv, String.eqb_refl in Hall. simpl in Hall.
  by apply bool_decide_eq_true in Hall.
Qed.

Lemma found_link kb u (L : Link) :
  no_parallel_links kb → L ∈ links_of (graph kb) u → found kb u L.1.1 = Some L.
Proof.
  intros Hnp HL. unfold found.
  destruct (find_dest_Some L.1.1 _ L HL eq_refl) as [L' HL'].
  rewrite HL'. destruct (find_dest_spec _ _ _ HL') as [Hin Hv].
  by rewrite (Hnp u L' L Hin HL Hv).
Qed.

Lemma found_times_walk kb u (ls : list Link) :
  no_parallel_links kb → walk_ok (graph kb) u ls →
  found_times kb u ls = walk_time ls.
Proof.
  intros Hnp. revert u. induction ls as [|L ls IH]; intros u; simpl; [done|].
  intros [HL Hok]. unfold found_time. by rewrite (found_link _ _ _ Hnp HL), IH.
Qed.

Lemma walk_cost_tiempo kb l (ls : list Link) :
  walk_cost kb "tiempo" l ls
  = walk_time ls + transfer_penalty (data kb) * walk_cost kb "transbordos" l ls.
Proof.
  revert l. induction ls as [|L ls IH]; intros l; [simpl; lia|].
  cbn [walk_cost walk_time]. rewrite IH.
  unfold stepz, step_for, step_cost. simpl.
  destruct (is_transfer l L.1.2); lia.
Qed.

(** X13: on a network without parallel links (no station has two different
    adjacency entries towards the same neighbour), the time that
    [explain_route] reports for the chain of a walk is the sum of the travel
    times of its links plus the penalty for every reported transfer; it is
    the cost of the walk under tiempo, or that cost plus one penalty. *)
Theorem explain_route_time (kb : KnowledgeBase) (start : string)
    (ls : list Link) :
  no_parallel_links kb →
  walk_ok (graph kb) start ls →
  let r := explain_route kb (walk_states (start, None) ls) in
  r.2.1.1.2 = walk_time ls + transfer_penalty (data kb) * r.2.1.2
  ∧ r.2.1.1.2
    = walk_cost kb "tiempo" None ls
      + transfer_penalty (data kb)
        * (r.2.1.2 - walk_cost kb "transbordos" None ls)
  ∧ (r.2.1.1.2 = walk_cost kb "tiempo" None ls
     ∨ r.2.1.1.2 = walk_cost kb "tiempo" None ls + transfer_penalty (data kb)).
Proof.
  intros Hnp Hok.
  pose proof (explain_route_walk kb start ls Hok) as H.
  pose proof (reported_transfers_bounds kb ls) as Hb.
  cbn zeta in H, Hb |- *. destruct H as (_ & _ & Htr & Ht).
  rewrite take_removelast in Htr. rewrite <- Htr in Hb.
  rewrite (found_times_walk _ _ _ Hnp Hok) in Ht.
  pose proof (walk_cost_tiempo kb None ls) as Hw.
  split; [done|]. split; [lia|].
  assert ((explain_route kb (walk_states (start, None) ls)).2.1.2
          = walk_cost kb "transbordos" None ls
          ∨ (explain_route kb (walk_states (start, None) ls)).2.1.2
            = walk_cost kb "transbordos" None ls + 1) as [E|E] by lia.
  - left. rewrite Ht, Hw, E. lia.
  - right. rewrite Ht, Hw, E. lia.
Qed.

Lemma explain_route_time_witness :
  let r := explain_route (build one_line)
             (walk_states ("A", None) [("B", "L1", 5); ("C", "L1", 4)]) in
  r.2.1.1.2 = 9 + 3 * r.2.1.2
  ∧ r.2.1.1.2 = 9 + 3 * (r.2.1.2 - 0)
  ∧ (r.2.1.1.2 = 9 ∨ r.2.1.1.2 = 9 + 3).
Proof.
  apply (explain_route_time (build one_line) "A"
           [("B", "L1", 5); ("C", "L1", 4)]).
  - apply no_parallel_linksb_spec. vm_compute. reflexivity.
  - simpl. split; [|split; [|done]]; vm_compute; repeat constructor.
Defined.
